(** * tedix-claw: the gateway bootstrap script and the backup sync

    A shallow embedding of [start-openclaw.sh] (the bash coordinator and
    the two node programs it feeds through here-documents) and of
    [src/gateway/sync.ts], with the properties the specification states
    about them.

    Layout:
    - [Js]      JSON documents, the values node holds in memory, and the
                JavaScript operations the two node programs use;
    - [Patch]   the [EOFPATCH] program (configuration patch, every boot);
    - [Token]   the [EOFTOKEN] program (setup-token injection);
    - [Boot]    the bash script: liveness probe, lock directory, restore,
                onboarding, launch, exit trap;
    - [Sync]    [syncToR2];
    - [Api]     the handlers of [src/routes/api.ts] that stand on their
                own: [toBase64], device approval, the two storage routes
                and the setup-token route.
    Definitions come first, theorems after them. *)

From stdpp Require Import gmap strings list fin_maps.
From Stdlib Require Import ZArith QArith Ascii String DecimalString.
#[local] Set Warnings "-register-all,-clear-no-such-hyp".
Close Scope Q_scope.
Open Scope string_scope.
Open Scope list_scope.

(** ** Environment variables

    Both bash ([[ -n "$X" ]]) and node ([if (process.env.X)]) only ask
    whether a variable holds a non-empty string: an unset variable and an
    empty one behave alike everywhere in the script. *)

Abbreviation Env := (gmap string string).

Definition getenv (env : Env) (name : string) : string :=
  default EmptyString (env !! name).

Definition nonempty (s : string) : bool := negb (String.eqb s EmptyString).

Definition env_set (env : Env) (name : string) : bool :=
  nonempty (getenv env name).

Module Js.

(** *** Documents and in-memory values *)

(** What a [.json] file holds. Objects are finite maps: property order is
    not part of a document. *)
Inductive json :=
| JNull
| JBool (b : bool)
| JNum (n : Q)
| JStr (s : string)
| JArr (es : list json)
| JObj (m : gmap string json).

(** What node holds after [JSON.parse] and while the program runs. An
    array is an object too: a named property can be assigned on it and
    read back, but [JSON.stringify] prints its elements only. *)
Inductive value :=
| VNull
| VBool (b : bool)
| VNum (n : Q)
| VStr (s : string)
| VArr (es : list value) (ps : gmap string value)
| VObj (m : gmap string value).

(** [JSON.parse] *)
Fixpoint parse (j : json) : value :=
  match j with
  | JNull => VNull
  | JBool b => VBool b
  | JNum n => VNum n
  | JStr s => VStr s
  | JArr es => VArr (parse <$> es) ∅
  | JObj m => VObj (parse <$> m)
  end.

(** [JSON.stringify]: named properties of arrays are dropped. *)
Fixpoint stringify (v : value) : json :=
  match v with
  | VNull => JNull
  | VBool b => JBool b
  | VNum n => JNum n
  | VStr s => JStr s
  | VArr es _ => JArr (stringify <$> es)
  | VObj m => JObj (stringify <$> m)
  end.

Fixpoint json_size (j : json) : nat :=
  match j with
  | JArr es => S (foldr (λ e n, json_size e + n) 0 es)
  | JObj m => S (map_fold (λ _ e n, json_size e + n) 0 m)
  | _ => 1
  end.

(** *** Expressions

    The result of a JavaScript expression is an [option value]; [None]
    is [undefined]. A computation that can throw a [TypeError] returns an
    outer [option], [None] being the throw. *)

Definition truthy (s : option value) : bool :=
  match s with
  | None | Some VNull => false
  | Some (VBool b) => b
  | Some (VNum n) => negb (Qeq_bool n 0)
  | Some (VStr s) => nonempty s
  | Some (VArr _ _) | Some (VObj _) => true
  end.

(** [x || {}] *)
Definition or_obj (s : option value) : value :=
  match s with
  | Some v => if truthy s then v else VObj ∅
  | None => VObj ∅
  end.

(** [b.k] on a base that is neither [undefined] nor [null]. The names
    the programs use are never array indices, [length], or a method of
    [Object.prototype], [Array.prototype] or the wrapper prototypes, so
    on a primitive the read gives [undefined]. *)
Definition prop (k : string) (b : value) : option value :=
  match b with
  | VObj m => m !! k
  | VArr _ ps => ps !! k
  | _ => None
  end.

(** [b.k = v]; the here-documents run as sloppy-mode scripts, where an
    assignment to a property of a primitive is silently dropped. *)
Definition set_prop (k : string) (v : value) (b : value) : value :=
  match b with
  | VObj m => VObj (<[k:=v]> m)
  | VArr es ps => VArr es (<[k:=v]> ps)
  | _ => b
  end.

(** [delete b.k] *)
Definition del_prop (k : string) (b : value) : value :=
  match b with
  | VObj m => VObj (delete k m)
  | VArr es ps => VArr es (delete k ps)
  | _ => b
  end.

(** [s === 'lit'] *)
Definition is_str (lit : string) (s : option value) : bool :=
  match s with
  | Some (VStr t) => String.eqb t lit
  | _ => false
  end.

(** [s.k]: reading a property of [undefined] or [null] throws. *)
Definition member (s : option value) (k : string) : option (option value) :=
  match s with
  | None | Some VNull => None
  | Some b => Some (prop k b)
  end.

(** [s?.k] *)
Definition opt_member (s : option value) (k : string) : option value :=
  match s with
  | None | Some VNull => None
  | Some b => prop k b
  end.

(** [s.k1.k2...kn] *)
Fixpoint getp (path : list string) (s : option value) : option (option value) :=
  match path with
  | [] => Some s
  | k :: rest => s' ← member s k; getp rest s'
  end.

(** The object reached from [s] through [base] is mutated by [op];
    the result is the new content of [s]. Objects are references, so the
    change is seen through every enclosing object. *)
Fixpoint update (base : list string) (op : value → value) (s : option value)
  : option value :=
  match s with
  | None | Some VNull => None
  | Some b =>
      match base with
      | [] => Some (op b)
      | k :: rest => c ← update rest op (prop k b); Some (set_prop k c b)
      end
  end.

(** [config.<path>] *)
Definition read (path : list string) (config : value) : option (option value) :=
  getp path (Some config).

(** [config.<base>.k = v] *)
Definition assign (base : list string) (k : string) (v : value) (config : value)
  : option value :=
  update base (set_prop k v) (Some config).

(** [config.<base>.k = config.<base>.k || {}] *)
Definition assign_or_obj (base : list string) (k : string) (config : value)
  : option value :=
  cur ← read (base ++ [k]) config; assign base k (or_obj cur) config.

(** [delete config.<base>.k] *)
Definition remove (base : list string) (k : string) (config : value)
  : option value :=
  update base (del_prop k) (Some config).

(** *** Strings *)

(** [s.indexOf(c)], [None] for [-1] *)
Fixpoint index_of (c : ascii) (s : string) : option nat :=
  match s with
  | EmptyString => None
  | String a rest => if Ascii.eqb a c then Some 0 else S <$> index_of c rest
  end.

(** [s.substring(from)] *)
Definition substring_from (from : nat) (s : string) : string :=
  String.substring from (String.length s - from) s.

(** [s.split(c)] *)
Fixpoint split_on (c : ascii) (s : string) : list string :=
  match s with
  | EmptyString => [EmptyString]
  | String a rest =>
      if Ascii.eqb a c then EmptyString :: split_on c rest
      else match split_on c rest with
           | w :: ws => String a w :: ws
           | [] => [String a EmptyString]
           end
  end.

(** [s.startsWith(p)] *)
Definition starts_with (p s : string) : bool := String.prefix p s.

Definition is_space (a : ascii) : bool :=
  let n := nat_of_ascii a in
  (Nat.eqb n 32 || (Nat.leb 9 n && Nat.leb n 13))%bool.

Fixpoint trim_start (s : string) : string :=
  match s with
  | String a rest => if is_space a then trim_start rest else s
  | EmptyString => EmptyString
  end.

Fixpoint trim_end (s : string) : string :=
  match s with
  | String a rest =>
      match trim_end rest with
      | EmptyString => if is_space a then EmptyString else String a EmptyString
      | r => String a r
      end
  | EmptyString => EmptyString
  end.

(** [s.trim()], on the ASCII white space and line terminators. *)
Definition trim (s : string) : string := trim_end (trim_start s).

(** *** [Object.keys] *)

Definition index_key (i : nat) : string :=
  NilEmpty.string_of_uint (Nat.to_uint i).

(** The own enumerable properties of a value: array and string indices
    come first. For an object the order is the map's, not the order of
    insertion. *)
Definition own_entries (v : value) : list (string * value) :=
  match v with
  | VObj m => map_to_list m
  | VArr es ps => imap (λ i e, (index_key i, e)) es ++ map_to_list ps
  | VStr s =>
      imap (λ i c, (index_key i, VStr (String c EmptyString)))
           (list_ascii_of_string s)
  | _ => []
  end.

(** *** Files

    A file that is expected to hold JSON. Both programs read theirs inside
    [try { x = JSON.parse(fs.readFileSync(..)) } catch {}] with [x]
    preset to an empty object, so a missing file and one that does not
    parse are treated alike. *)
Inductive doc_file :=
| Unparseable
| Doc (d : json).

Definition load (f : option doc_file) : value :=
  match f with
  | Some (Doc d) => parse d
  | _ => VObj ∅
  end.

End Js.

Module Patch.
Import Js.

(** ** The configuration patch ([node << EOFPATCH], lines 171-365) *)

Definition VALID_TELEGRAM_KEYS : gset string := list_to_set
  [ "name"; "capabilities"; "markdown"; "commands"; "customCommands"; "configWrites";
    "dmPolicy"; "enabled"; "botToken"; "tokenFile"; "replyToMode"; "groups";
    "allowFrom"; "groupAllowFrom"; "groupPolicy"; "historyLimit"; "dmHistoryLimit"; "dms";
    "textChunkLimit"; "chunkMode"; "blockStreaming"; "draftChunk"; "blockStreamingCoalesce";
    "streamMode"; "mediaMaxMb"; "timeoutSeconds"; "retry"; "network"; "proxy";
    "webhookUrl"; "webhookSecret"; "webhookPath"; "actions"; "reactionNotifications";
    "reactionLevel"; "heartbeat"; "linkPreview"; "responsePrefix"; "accounts" ].

Definition VALID_DISCORD_KEYS : gset string := list_to_set
  [ "name"; "capabilities"; "markdown"; "commands"; "configWrites"; "enabled"; "token";
    "allowBots"; "groupPolicy"; "textChunkLimit"; "chunkMode"; "blockStreaming";
    "blockStreamingCoalesce"; "maxLinesPerMessage"; "mediaMaxMb"; "historyLimit";
    "dmHistoryLimit"; "dms"; "retry"; "actions"; "replyToMode"; "dm"; "guilds";
    "heartbeat"; "execApprovals"; "intents"; "pluralkit"; "responsePrefix"; "accounts" ].

Definition VALID_SLACK_KEYS : gset string := list_to_set
  [ "name"; "capabilities"; "markdown"; "commands"; "configWrites"; "enabled";
    "botToken"; "appToken"; "userToken"; "userTokenReadOnly"; "allowBots";
    "requireMention"; "groupPolicy"; "historyLimit"; "dmHistoryLimit"; "dms";
    "textChunkLimit"; "chunkMode"; "blockStreaming"; "blockStreamingCoalesce";
    "mediaMaxMb"; "reactionNotifications"; "reactionAllowlist"; "replyToMode";
    "replyToModeByChatType"; "thread"; "actions"; "slashCommand"; "dm";
    "channels"; "heartbeat"; "responsePrefix"; "accounts" ].

Definition stripped_line (k : string) : string :=
  "Stripped unknown channel key: " +:+ k.

(** [filterKeys(obj, validKeys)]: the fresh object it returns, and the
    lines it prints. *)
Definition filterKeys (obj : value) (validKeys : gset string)
  : gmap string value * list string :=
  let entries := own_entries obj in
  (list_to_map (filter (λ kv, kv.1 ∈ validKeys) entries),
   (λ kv, stripped_line kv.1) <$> filter (λ kv, kv.1 ∉ validKeys) entries).

Definition enabled_obj : value := VObj {[ "enabled" := VBool true ]}.

(** Lines 184-207: gateway section. *)
Definition gateway_block (env : Env) (config : value) : option value :=
  config ← assign_or_obj [] "gateway" config;
  config ← assign_or_obj [] "channels" config;
  config ← assign ["gateway"] "port" (VNum (inject_Z 18789)) config;
  config ← assign ["gateway"] "mode" (VStr "local") config;
  config ← assign ["gateway"] "trustedProxies" (VArr [VStr "10.1.0.0"] ∅) config;
  config ← (if env_set env "OPENCLAW_GATEWAY_TOKEN" then
              config ← assign_or_obj ["gateway"] "auth" config;
              assign ["gateway"; "auth"] "token"
                     (VStr (getenv env "OPENCLAW_GATEWAY_TOKEN")) config
            else Some config);
  config ← (if String.eqb (getenv env "OPENCLAW_DEV_MODE") "true" then
              config ← assign_or_obj ["gateway"] "controlUi" config;
              assign ["gateway"; "controlUi"] "allowInsecureAuth" (VBool true) config
            else Some config);
  config ← assign_or_obj ["gateway"] "http" config;
  config ← assign_or_obj ["gateway"; "http"] "endpoints" config;
  config ← assign ["gateway"; "http"; "endpoints"] "chatCompletions" enabled_obj config;
  assign ["gateway"; "http"; "endpoints"] "responses" enabled_obj config.

Definition stale_prefix : string := "cf-ai-gw-".

(** The loop of lines 225-229: every own key that starts with the
    prefix is deleted. Index keys of an array or a string are digits. *)
Definition drop_stale_providers (b : value) : value :=
  match b with
  | VObj m => VObj (filter (λ kv, starts_with stale_prefix kv.1 = false) m)
  | VArr es ps => VArr es (filter (λ kv, starts_with stale_prefix kv.1 = false) ps)
  | _ => b
  end.

(** Lines 223-237: providers and default model left over from a removed
    AI Gateway setup. *)
Definition stale_cleanup (env : Env) (config : value) : option value :=
  if negb (env_set env "CF_AI_GATEWAY_MODEL")
     && negb (env_set env "CLOUDFLARE_AI_GATEWAY_API_KEY") then
    models ← read ["models"] config;
    config ← (if truthy models then
                providers ← read ["models"; "providers"] config;
                if truthy providers
                then update ["models"; "providers"] drop_stale_providers (Some config)
                else Some config
              else Some config);
    agents ← read ["agents"] config;
    let defaultModel :=
      opt_member (opt_member (opt_member agents "defaults") "model") "primary" in
    if truthy defaultModel then
      match defaultModel with
      | Some (VStr s) =>
          if starts_with stale_prefix s
          then remove ["agents"; "defaults"] "model" config
          else Some config
      | _ => None (* [defaultModel.startsWith] is not a function *)
      end
    else Some config
  else Some config.

Record Override := {
  providerName : string;
  baseUrl : string;
  apiKey : string;
  api : string;
  modelId : string;
}.

(** Lines 240-262: what [CF_AI_GATEWAY_MODEL] and its companions ask
    for; [None] on the two warning paths. *)
Definition gateway_override (env : Env) : option Override :=
  let raw := getenv env "CF_AI_GATEWAY_MODEL" in
  match index_of "/" raw with
  | None | Some 0 => None
  | Some slashIdx =>
      let gwProvider := String.substring 0 slashIdx raw in
      let modelId := substring_from (slashIdx + 1) raw in
      let accountId := getenv env "CF_AI_GATEWAY_ACCOUNT_ID" in
      let gatewayId := getenv env "CF_AI_GATEWAY_GATEWAY_ID" in
      let apiKey := getenv env "CLOUDFLARE_AI_GATEWAY_API_KEY" in
      let baseUrl : option string :=
        if nonempty accountId && nonempty gatewayId then
          Some ("https://gateway.ai.cloudflare.com/v1/" +:+ accountId +:+ "/"
                  +:+ gatewayId +:+ "/" +:+ gwProvider
                  +:+ (if String.eqb gwProvider "workers-ai" then "/v1" else EmptyString))
        else if String.eqb gwProvider "workers-ai" && env_set env "CF_ACCOUNT_ID" then
          Some ("https://api.cloudflare.com/client/v4/accounts/"
                  +:+ getenv env "CF_ACCOUNT_ID" +:+ "/ai/v1")
        else None in
      match baseUrl with
      | Some url =>
          if nonempty url && nonempty apiKey then
            Some {| providerName := "cf-ai-gw-" +:+ gwProvider;
                    baseUrl := url;
                    apiKey := apiKey;
                    api := if String.eqb gwProvider "anthropic"
                           then "anthropic-messages" else "openai-completions";
                    modelId := modelId |}
          else None
      | None => None
      end
  end.

Definition provider_entry (o : Override) : value :=
  VObj (<["baseUrl" := VStr (baseUrl o)]>
       (<["apiKey" := VStr (apiKey o)]>
       (<["api" := VStr (api o)]>
       {[ "models" :=
            VArr [VObj (<["id" := VStr (modelId o)]>
                       (<["name" := VStr (modelId o)]>
                       (<["contextWindow" := VNum (inject_Z 131072)]>
                       {[ "maxTokens" := VNum (inject_Z 8192) ]})))] ∅ ]}))).

Definition default_model (o : Override) : value :=
  VObj {[ "primary" := VStr (providerName o +:+ "/" +:+ modelId o) ]}.

(** Lines 239-280. *)
Definition model_override (env : Env) (config : value) : option value :=
  if env_set env "CF_AI_GATEWAY_MODEL" then
    match gateway_override env with
    | Some o =>
        config ← assign_or_obj [] "models" config;
        config ← assign_or_obj ["models"] "providers" config;
        config ← assign ["models"; "providers"] (providerName o) (provider_entry o) config;
        config ← assign_or_obj [] "agents" config;
        config ← assign_or_obj ["agents"] "defaults" config;
        assign ["agents"; "defaults"] "model" (default_model o) config
    | None => Some config
    end
  else Some config.

Definition star_list : value := VArr [VStr "*"] ∅.

(** Lines 327-336: the new [channels.telegram] object. *)
Definition telegram_entry (env : Env) (cur : option value) : gmap string value :=
  let existing := (filterKeys (or_obj cur) VALID_TELEGRAM_KEYS).1 in
  let existing := <["botToken" := VStr (getenv env "TELEGRAM_BOT_TOKEN")]> existing in
  let existing := <["enabled" := VBool true]> existing in
  let existing :=
    if env_set env "TELEGRAM_DM_POLICY"
    then <["dmPolicy" := VStr (getenv env "TELEGRAM_DM_POLICY")]> existing
    else existing in
  let existing :=
    if truthy (existing !! "dmPolicy") then existing
    else <["dmPolicy" := VStr "pairing"]> existing in
  if env_set env "TELEGRAM_DM_ALLOW_FROM" then
    <["allowFrom" :=
        VArr (VStr <$> split_on "," (getenv env "TELEGRAM_DM_ALLOW_FROM")) ∅]> existing
  else if is_str "open" (existing !! "dmPolicy")
          && negb (truthy (existing !! "allowFrom"))
  then <["allowFrom" := star_list]> existing
  else existing.

(** Lines 326-338. *)
Definition telegram_block (env : Env) (config : value) : option value :=
  if env_set env "TELEGRAM_BOT_TOKEN" then
    cur ← read ["channels"; "telegram"] config;
    assign ["channels"] "telegram" (VObj (telegram_entry env cur)) config
  else Some config.

(** Lines 345-350: [existing.dm] after the policy defaults. *)
Definition discord_dm (env : Env) (cur : option value) : value :=
  let dm := or_obj cur in
  let dm :=
    if env_set env "DISCORD_DM_POLICY"
    then set_prop "policy" (VStr (getenv env "DISCORD_DM_POLICY")) dm
    else dm in
  let dm :=
    if truthy (prop "policy" dm) then dm
    else set_prop "policy" (VStr "pairing") dm in
  if is_str "open" (prop "policy" dm)
     && negb (truthy (prop "allowFrom" dm))
  then set_prop "allowFrom" star_list dm
  else dm.

Definition discord_entry (env : Env) (cur : option value) : gmap string value :=
  let existing := (filterKeys (or_obj cur) VALID_DISCORD_KEYS).1 in
  let existing := <["token" := VStr (getenv env "DISCORD_BOT_TOKEN")]> existing in
  let existing := <["enabled" := VBool true]> existing in
  <["dm" := discord_dm env (existing !! "dm")]> existing.

(** Lines 341-352. *)
Definition discord_block (env : Env) (config : value) : option value :=
  if env_set env "DISCORD_BOT_TOKEN" then
    cur ← read ["channels"; "discord"] config;
    assign ["channels"] "discord" (VObj (discord_entry env cur)) config
  else Some config.

Definition slack_entry (env : Env) (cur : option value) : gmap string value :=
  let existing := (filterKeys (or_obj cur) VALID_SLACK_KEYS).1 in
  let existing := <["botToken" := VStr (getenv env "SLACK_BOT_TOKEN")]> existing in
  let existing := <["appToken" := VStr (getenv env "SLACK_APP_TOKEN")]> existing in
  <["enabled" := VBool true]> existing.

(** Lines 355-361. *)
Definition slack_block (env : Env) (config : value) : option value :=
  if env_set env "SLACK_BOT_TOKEN" && env_set env "SLACK_APP_TOKEN" then
    cur ← read ["channels"; "slack"] config;
    assign ["channels"] "slack" (VObj (slack_entry env cur)) config
  else Some config.

(** The statements between reading and writing the file, in order. *)
Definition patch_config (env : Env) (config : value) : option value :=
  config ← gateway_block env config;
  config ← stale_cleanup env config;
  config ← model_override env config;
  config ← telegram_block env config;
  config ← discord_block env config;
  slack_block env config.

(** The whole program: the document it writes, or [None] when it dies
    of a [TypeError] before [fs.writeFileSync]. *)
Definition patch_document (env : Env) (f : option doc_file) : option json :=
  stringify <$> patch_config env (load f).

(** The configuration file after the step. *)
Definition patch_file (env : Env) (f : option doc_file) : option doc_file :=
  match patch_document env f with
  | Some d => Some (Doc d)
  | None => f
  end.

End Patch.

Module Token.
Import Js.

(** ** Setup-token injection ([node << EOFTOKEN], lines 374-423) *)

Definition provider : string := "anthropic".
Definition profileId : string := provider +:+ ":default".

Record Files := {
  profiles_file : option doc_file; (* agents/main/agent/auth-profiles.json *)
  config_file : option doc_file;   (* openclaw.json *)
}.

Definition token_profile (env : Env) : value :=
  VObj (<["type" := VStr "token"]>
       (<["provider" := VStr provider]>
       {[ "token" := VStr (trim (getenv env "CLAUDE_SETUP_TOKEN")) ]})).

Definition profile_ref : value :=
  VObj (<["provider" := VStr provider]> {[ "mode" := VStr "token" ]}).

Definition anthropic_stub : value :=
  VObj {[ "api" := VStr "anthropic-messages" ]}.

(** Lines 386-391: the credential store as loaded, and whether the
    branch that writes is taken:
    [!profiles.profiles[profileId] || !profiles.profiles[profileId].token]. *)
Definition needs_token (profiles : value) : option bool :=
  entry ← read ["profiles"; profileId] profiles;
  if truthy entry then
    token ← member entry "token"; Some (negb (truthy token))
  else Some true.

(** Lines 401-416 on the loaded configuration. *)
Definition reference_profile (config : value) : option value :=
  config ← assign_or_obj [] "auth" config;
  config ← assign_or_obj ["auth"] "profiles" config;
  config ← assign ["auth"; "profiles"] profileId profile_ref config;
  config ← assign_or_obj [] "models" config;
  config ← assign_or_obj ["models"] "providers" config;
  anthropic ← read ["models"; "providers"; "anthropic"] config;
  if truthy anthropic then Some config
  else assign ["models"; "providers"] "anthropic" anthropic_stub config.

(** The program: the two files when node stops, and whether it ended
    normally ([false]: an uncaught [TypeError]). The first file is
    written before the second is read. *)
Definition inject (env : Env) (fs : Files) : Files * bool :=
  match assign_or_obj [] "profiles" (load (profiles_file fs)) with
  | None => (fs, false)
  | Some profiles =>
      match needs_token profiles with
      | None => (fs, false)
      | Some false => (fs, true)
      | Some true =>
          match assign ["profiles"] profileId (token_profile env) profiles with
          | None => (fs, false)
          | Some profiles =>
              let fs := {| profiles_file := Some (Doc (stringify profiles));
                           config_file := config_file fs |} in
              match reference_profile (load (config_file fs)) with
              | None => (fs, false)
              | Some config =>
                  ({| profiles_file := profiles_file fs;
                      config_file := Some (Doc (stringify config)) |}, true)
              end
          end
      end
  end.

End Token.

Module Boot.
Import Js.

(** ** The bash script ([start-openclaw.sh], lines 1-456) *)

(** *** Files the script looks at *)

(** [/root/.openclaw], and its mirror [/data/openclaw/openclaw] in the
    bucket. *)
Record ConfigDir := {
  openclaw_json : option doc_file;  (* openclaw.json *)
  last_sync : option string;        (* .last-sync *)
  auth_profiles : option doc_file;  (* agents/main/agent/auth-profiles.json *)
  gateway_lock : bool;              (* gateway.lock *)
}.

Definition empty_dir : ConfigDir :=
  {| openclaw_json := None; last_sync := None;
     auth_profiles := None; gateway_lock := false |}.

(** [cp -a src/. dst/]: what [src] has replaces what [dst] had, the
    rest of [dst] stays. *)
Definition overlay (src dst : ConfigDir) : ConfigDir :=
  {| openclaw_json := openclaw_json src ∪ openclaw_json dst;
     last_sync := last_sync src ∪ last_sync dst;
     auth_profiles := auth_profiles src ∪ auth_profiles dst;
     gateway_lock := gateway_lock src || gateway_lock dst |}.

Record World := {
  lock_dir : bool;                          (* /tmp/start-openclaw.lock *)
  local : ConfigDir;                        (* /root/.openclaw *)
  workspace : gmap string string;           (* /root/clawd, skills apart *)
  skills : gmap string string;              (* /root/clawd/skills *)
  backup_sync : option string;              (* /data/openclaw/.last-sync *)
  backup_openclaw : ConfigDir;              (* /data/openclaw/openclaw *)
  backup_workspace : gmap string string;    (* /data/openclaw/workspace *)
  backup_skills : gmap string string;       (* /data/openclaw/skills *)
}.

Definition with_lock (b : bool) (w : World) : World :=
  {| lock_dir := b; local := local w; workspace := workspace w; skills := skills w;
     backup_sync := backup_sync w; backup_openclaw := backup_openclaw w;
     backup_workspace := backup_workspace w; backup_skills := backup_skills w |}.

Definition with_local (d : ConfigDir) (w : World) : World :=
  {| lock_dir := lock_dir w; local := d; workspace := workspace w; skills := skills w;
     backup_sync := backup_sync w; backup_openclaw := backup_openclaw w;
     backup_workspace := backup_workspace w; backup_skills := backup_skills w |}.

Definition with_workspace (t : gmap string string) (w : World) : World :=
  {| lock_dir := lock_dir w; local := local w; workspace := t; skills := skills w;
     backup_sync := backup_sync w; backup_openclaw := backup_openclaw w;
     backup_workspace := backup_workspace w; backup_skills := backup_skills w |}.

Definition with_skills (t : gmap string string) (w : World) : World :=
  {| lock_dir := lock_dir w; local := local w; workspace := workspace w; skills := t;
     backup_sync := backup_sync w; backup_openclaw := backup_openclaw w;
     backup_workspace := backup_workspace w; backup_skills := backup_skills w |}.

Definition with_openclaw_json (f : option doc_file) (d : ConfigDir) : ConfigDir :=
  {| openclaw_json := f; last_sync := last_sync d;
     auth_profiles := auth_profiles d; gateway_lock := gateway_lock d |}.

Definition with_last_sync (m : option string) (d : ConfigDir) : ConfigDir :=
  {| openclaw_json := openclaw_json d; last_sync := m;
     auth_profiles := auth_profiles d; gateway_lock := gateway_lock d |}.

Definition with_auth_profiles (f : option doc_file) (d : ConfigDir) : ConfigDir :=
  {| openclaw_json := openclaw_json d; last_sync := last_sync d;
     auth_profiles := f; gateway_lock := gateway_lock d |}.

Definition without_gateway_lock (d : ConfigDir) : ConfigDir :=
  {| openclaw_json := openclaw_json d; last_sync := last_sync d;
     auth_profiles := auth_profiles d; gateway_lock := false |}.

(** *** What the script cannot decide itself

    The outcome of every external command of one invocation. *)
Record Ext := {
  (* [curl -sf --max-time 2 http://localhost:18789/] succeeds *)
  curl_ok : bool;
  (* [date -d "$T" +%s]: the epoch, [None] when date rejects the text *)
  date_epoch : string → option Z;
  (* [timeout 60 cp -a ...]: [None] when it finishes, otherwise what it
     had written when it failed or was killed *)
  cp_config : option ConfigDir;
  cp_marker_ok : bool;
  cp_workspace : option (gmap string string);
  cp_skills : option (gmap string string);
  (* [openclaw onboard]: its exit status and the files it leaves *)
  onboard_status : Z;
  onboard_files : ConfigDir;
  (* what [wait $GATEWAY_PID] returns once the gateway is gone *)
  gateway_status : Z;
}.

(** How a command is started: [cmd &] or [exec cmd]. *)
Inductive Start := Child | Exec.

Inductive Event :=
| Echo (line : string)
| MkdirLock (created : bool)
| RmLock
| CpConfig (ok : bool)
| CpWorkspace (ok : bool)
| CpSkills (ok : bool)
| Onboard (argv : list string)
| NodePatch (ok : bool)
| NodeToken (ok : bool)
| Gateway (how : Start) (argv : list string)
| TrapRmdir.

(** *** Restore (lines 50-129) *)

(** [R2_EPOCH=$(date -d "$R2_TIME" +%s 2>/dev/null || echo "0")] *)
Definition epoch_of (x : Ext) (marker : string) : Z :=
  default 0%Z (date_epoch x marker).

(** Lines 50-80; [true] is the shell's return status 0. *)
Definition should_restore_from_r2 (x : Ext) (w : World) : bool :=
  match backup_sync w with
  | None => false
  | Some r2_time =>
      match last_sync (local w) with
      | None => true
      | Some local_time => (epoch_of x local_time <? epoch_of x r2_time)%Z
      end
  end.

(** Lines 86-100. *)
Definition restore_config (x : Ext) (w : World) : World * list Event :=
  if bool_decide (is_Some (openclaw_json (backup_openclaw w))) then
    if should_restore_from_r2 x w then
      match cp_config x with
      | None =>
          let d := overlay (backup_openclaw w) (local w) in
          let d := if cp_marker_ok x then with_last_sync (backup_sync w) d else d in
          (with_local d w, [CpConfig true; Echo "Restored config from R2 backup"])
      | Some written =>
          (with_local (overlay written (local w)) w,
           [CpConfig false;
            Echo "WARNING: R2 config restore timed out or failed, starting fresh"])
      end
    else (w, [])
  else (w, []).

(** Lines 104-115. *)
Definition restore_workspace (x : Ext) (w : World) : World * list Event :=
  if bool_decide (backup_workspace w ≠ ∅) then
    if should_restore_from_r2 x w then
      match cp_workspace x with
      | None =>
          (with_workspace (backup_workspace w ∪ workspace w) w,
           [CpWorkspace true; Echo "Restored workspace from R2 backup"])
      | Some written =>
          (with_workspace (written ∪ workspace w) w,
           [CpWorkspace false;
            Echo "WARNING: R2 workspace restore timed out or failed"])
      end
    else (w, [])
  else (w, []).

(** Lines 118-129. *)
Definition restore_skills (x : Ext) (w : World) : World * list Event :=
  if bool_decide (backup_skills w ≠ ∅) then
    if should_restore_from_r2 x w then
      match cp_skills x with
      | None =>
          (with_skills (backup_skills w ∪ skills w) w,
           [CpSkills true; Echo "Restored skills from R2 backup"])
      | Some written =>
          (with_skills (written ∪ skills w) w,
           [CpSkills false; Echo "WARNING: R2 skills restore timed out or failed"])
      end
    else (w, [])
  else (w, []).

Definition restore (x : Ext) (w : World) : World * list Event :=
  let '(w, e1) := restore_config x w in
  let '(w, e2) := restore_workspace x w in
  let '(w, e3) := restore_skills x w in
  (w, e1 ++ e2 ++ e3).

(** *** Onboarding (lines 134-161) *)

Inductive AuthChoice :=
| CloudflareAiGateway (account_id gateway_id api_key : string)
| AnthropicApiKey (api_key : string)
| OpenaiApiKey (api_key : string)
| NoAuth.

(** Lines 137-147. *)
Definition auth_choice (env : Env) : AuthChoice :=
  if env_set env "CLOUDFLARE_AI_GATEWAY_API_KEY"
     && env_set env "CF_AI_GATEWAY_ACCOUNT_ID"
     && env_set env "CF_AI_GATEWAY_GATEWAY_ID" then
    CloudflareAiGateway (getenv env "CF_AI_GATEWAY_ACCOUNT_ID")
                        (getenv env "CF_AI_GATEWAY_GATEWAY_ID")
                        (getenv env "CLOUDFLARE_AI_GATEWAY_API_KEY")
  else if env_set env "ANTHROPIC_API_KEY" then
    AnthropicApiKey (getenv env "ANTHROPIC_API_KEY")
  else if env_set env "OPENAI_API_KEY" then
    OpenaiApiKey (getenv env "OPENAI_API_KEY")
  else NoAuth.

(** The words of [$AUTH_ARGS] (values without white space). *)
Definition auth_args (c : AuthChoice) : list string :=
  match c with
  | CloudflareAiGateway account gateway key =>
      [ "--auth-choice"; "cloudflare-ai-gateway-api-key";
        "--cloudflare-ai-gateway-account-id"; account;
        "--cloudflare-ai-gateway-gateway-id"; gateway;
        "--cloudflare-ai-gateway-api-key"; key ]
  | AnthropicApiKey key => [ "--auth-choice"; "apiKey"; "--anthropic-api-key"; key ]
  | OpenaiApiKey key => [ "--auth-choice"; "openai-api-key"; "--openai-api-key"; key ]
  | NoAuth => []
  end.

Definition onboard_argv (env : Env) : list string :=
  [ "openclaw"; "onboard"; "--non-interactive"; "--accept-risk"; "--mode"; "local" ]
  ++ auth_args (auth_choice env)
  ++ [ "--gateway-port"; "18789"; "--gateway-bind"; "lan";
       "--skip-channels"; "--skip-skills"; "--skip-health" ].

(** A step of the part that runs under [set -e] with the trap
    installed: the world, what was printed or run, and the exit status
    when the step ends the script. *)
Definition Step : Type := World * list Event * option Z.

Definition onboard_step (x : Ext) (env : Env) (w : World) : Step :=
  if bool_decide (is_Some (openclaw_json (local w))) then
    (w, [Echo "Using existing config"], None)
  else
    let w' := with_local (overlay (onboard_files x) (local w)) w in
    let run := [Echo "No existing config found, running openclaw onboard...";
                Onboard (onboard_argv env)] in
    if (onboard_status x =? 0)%Z
    then (w', run ++ [Echo "Onboard completed"], None)
    else (w', run, Some (onboard_status x)).

(** *** The two node programs (lines 171-424) *)

Definition patch_step (env : Env) (w : World) : Step :=
  match Patch.patch_document env (openclaw_json (local w)) with
  | Some d =>
      (with_local (with_openclaw_json (Some (Doc d)) (local w)) w,
       [NodePatch true], None)
  | None => (w, [NodePatch false], Some 1%Z)
  end.

Definition token_step (env : Env) (w : World) : Step :=
  if env_set env "CLAUDE_SETUP_TOKEN" then
    let '(fs, ok) :=
      Token.inject env {| Token.profiles_file := auth_profiles (local w);
                          Token.config_file := openclaw_json (local w) |} in
    let d := with_auth_profiles (Token.profiles_file fs)
               (with_openclaw_json (Token.config_file fs) (local w)) in
    (with_local d w, [NodeToken ok], if ok then None else Some 1%Z)
  else (w, [], None).

(** *** Launch (lines 429-449) *)

Definition gateway_argv (env : Env) : list string :=
  [ "openclaw"; "gateway"; "--port"; "18789"; "--verbose";
    "--allow-unconfigured"; "--bind"; "lan" ]
  ++ (if env_set env "OPENCLAW_GATEWAY_TOKEN"
      then [ "--token"; getenv env "OPENCLAW_GATEWAY_TOKEN" ] else []).

Definition launch (env : Env) (w : World) : World * list Event :=
  (with_local (without_gateway_lock (local w)) w,
   [ Echo "Starting OpenClaw Gateway...";
     Echo (if env_set env "OPENCLAW_GATEWAY_TOKEN"
           then "Starting gateway with token auth..."
           else "Starting gateway with device pairing (no token)...");
     Gateway Child (gateway_argv env) ]).

(** *** The script as a machine

    Where one invocation stands. Between two steps other invocations
    may run. *)
Inductive Proc :=
| AtProbe              (* line 15 *)
| AtMkdir              (* line 24 *)
| AtRecover            (* line 28 *)
| AtRetry              (* line 29 *)
| AtBoot               (* line 35, lock held *)
| Waiting              (* line 453, gateway running as a child *)
| Exited (status : Z).

(** The [EXIT] trap of line 35. *)
Definition trap (w : World) : World := with_lock false w.

Definition exit_with (status : Z) (w : World) (es : list Event)
  : Proc * World * list Event :=
  (Exited status, trap w, es ++ [TrapRmdir]).

(** Lines 35-449, from the trap to the start of the gateway. *)
Definition boot (x : Ext) (env : Env) (w : World) : Proc * World * list Event :=
  let '(w, e1) := restore x w in
  match onboard_step x env w with
  | (w, e2, Some s) => exit_with s w (e1 ++ e2)
  | (w, e2, None) =>
      match patch_step env w with
      | (w, e3, Some s) => exit_with s w (e1 ++ e2 ++ e3)
      | (w, e3, None) =>
          match token_step env w with
          | (w, e4, Some s) => exit_with s w (e1 ++ e2 ++ e3 ++ e4)
          | (w, e4, None) =>
              let '(w, e5) := launch env w in
              (Waiting, w, e1 ++ e2 ++ e3 ++ e4 ++ e5)
          end
      end
  end.

Definition already_running : string :=
  "OpenClaw gateway is already running on port 18789, exiting.".
Definition stale_detected : string :=
  "Stale lockfile detected (gateway not running), recovering...".
Definition failed_to_acquire : string :=
  "Failed to acquire lock after recovery, exiting.".

(** One atomic action of an invocation. *)
Definition step (x : Ext) (env : Env) (p : Proc) (w : World)
  : Proc * World * list Event :=
  match p with
  | AtProbe =>
      if curl_ok x then (Exited 0, w, [Echo already_running])
      else (AtMkdir, w, [])
  | AtMkdir =>
      if lock_dir w then (AtRecover, w, [MkdirLock false; Echo stale_detected])
      else (AtBoot, with_lock true w, [MkdirLock true])
  | AtRecover => (AtRetry, with_lock false w, [RmLock])
  | AtRetry =>
      if lock_dir w then (Exited 1, w, [MkdirLock false; Echo failed_to_acquire])
      else (AtBoot, with_lock true w, [MkdirLock true])
  | AtBoot => boot x env w
  | Waiting => exit_with (gateway_status x) w []
  | Exited s => (Exited s, w, [])
  end.

(** An invocation that nothing interleaves with, run until the gateway
    is started or the script has exited. *)
Fixpoint run (fuel : nat) (x : Ext) (env : Env) (p : Proc) (w : World)
  : Proc * World * list Event :=
  match p, fuel with
  | Waiting, _ | Exited _, _ | _, O => (p, w, [])
  | _, S fuel =>
      let '(p', w', es) := step x env p w in
      let '(p'', w'', es') := run fuel x env p' w' in
      (p'', w'', es ++ es')
  end.

Definition ensureRunning (x : Ext) (env : Env) (w : World)
  : Proc * World * list Event :=
  run 5 x env AtProbe w.

(** *** Several invocations at once *)

Record Invocation := {
  ext : Ext;
  environ : Env;
  proc : Proc;
}.

Record System := {
  shared : World;
  invocations : list Invocation;
  trace : list (nat * Event);
}.

(** Invocation [i] takes its next step. *)
Definition sys_step (i : nat) (s : System) : System :=
  match invocations s !! i with
  | None => s
  | Some inv =>
      let '(p, w, es) := step (ext inv) (environ inv) (proc inv) (shared s) in
      {| shared := w;
         invocations :=
           <[i := {| ext := ext inv; environ := environ inv; proc := p |}]>
             (invocations s);
         trace := trace s ++ ((λ e, (i, e)) <$> es) |}
  end.

Definition schedule (order : list nat) (s : System) : System :=
  foldl (λ s i, sys_step i s) s order.

Definition start (w : World) (invs : list (Ext * Env)) : System :=
  {| shared := w;
     invocations := (λ xe, {| ext := xe.1; environ := xe.2; proc := AtProbe |}) <$> invs;
     trace := [] |}.

Definition gateways_started (s : System) : list nat :=
  omap (λ ie, match ie.2 with Gateway _ _ => Some ie.1 | _ => None end) (trace s).

End Boot.

Module Sync.
Import Boot.

(** ** [syncToR2] ([src/gateway/sync.ts], lines 32-97)

    The container is the one the bash script runs in, so the file
    system is [Boot.World]. *)

Record SyncResult := {
  success : bool;
  lastSync : option string;
  error : option string;
  details : option string;
}.

(** The three commands the function hands to [sandbox.startProcess]:
    - [CheckConfig]: [test -f /root/.openclaw/openclaw.json && echo "ok"]
    - [SyncCmd]: the three [rsync -r --no-times --delete ...] joined by
      [&&], then [date -Iseconds > /data/openclaw/.last-sync]
    - [CatLastSync]: [cat /data/openclaw/.last-sync] *)
Inductive Command := CheckConfig | SyncCmd | CatLastSync.

(** What the function cannot decide itself. [mountR2Storage] and
    [waitForProcess] are imported from [./r2] and [./utils]; the first is
    taken by its boolean result (mounting does not change what the bucket
    holds), the second as a wait that returns. [Some msg] in a [_throws]
    field is an [Error] with that message rejected by the sandbox API
    inside the corresponding [try]. *)
Record Ext := {
  mount_ok : bool;
  check_throws : option string;
  (* the output of the check had arrived when the logs were read *)
  check_logged : bool;
  sync_throws : option string; (* before the sync command ran *)
  cat_throws : option string;  (* after it *)
  (* each rsync: [None] when it succeeds, else the tree it leaves *)
  rsync_config : option ConfigDir;
  rsync_workspace : option (gmap string string);
  rsync_skills : option (gmap string string);
  (* [date -Iseconds] *)
  now : string;
  (* stderr, then stdout, of the sync process *)
  sync_stderr : string;
  sync_stdout : string;
}.

Definition with_backup_sync (m : option string) (w : World) : World :=
  {| lock_dir := lock_dir w; local := local w; workspace := workspace w;
     skills := skills w; backup_sync := m; backup_openclaw := backup_openclaw w;
     backup_workspace := backup_workspace w; backup_skills := backup_skills w |}.

Definition with_backup_openclaw (d : ConfigDir) (w : World) : World :=
  {| lock_dir := lock_dir w; local := local w; workspace := workspace w;
     skills := skills w; backup_sync := backup_sync w; backup_openclaw := d;
     backup_workspace := backup_workspace w; backup_skills := backup_skills w |}.

Definition with_backup_workspace (t : gmap string string) (w : World) : World :=
  {| lock_dir := lock_dir w; local := local w; workspace := workspace w;
     skills := skills w; backup_sync := backup_sync w;
     backup_openclaw := backup_openclaw w;
     backup_workspace := t; backup_skills := backup_skills w |}.

Definition with_backup_skills (t : gmap string string) (w : World) : World :=
  {| lock_dir := lock_dir w; local := local w; workspace := workspace w;
     skills := skills w; backup_sync := backup_sync w;
     backup_openclaw := backup_openclaw w;
     backup_workspace := backup_workspace w; backup_skills := t |}.

(** [rsync --delete --exclude='*.lock']: the destination becomes the
    source, except that lock files are neither sent nor deleted. *)
Definition mirror (src dst : ConfigDir) : ConfigDir :=
  {| openclaw_json := openclaw_json src; last_sync := last_sync src;
     auth_profiles := auth_profiles src; gateway_lock := gateway_lock dst |}.

(** The effect of [SyncCmd] on the bucket. *)
Definition run_sync (x : Ext) (w : World) : World :=
  match rsync_config x with
  | Some partial => with_backup_openclaw partial w
  | None =>
      let w := with_backup_openclaw (mirror (local w) (backup_openclaw w)) w in
      match rsync_workspace x with
      | Some partial => with_backup_workspace partial w
      | None =>
          let w := with_backup_workspace (workspace w) w in
          match rsync_skills x with
          | Some partial => with_backup_skills partial w
          | None => with_backup_sync (Some (now x)) (with_backup_skills (skills w) w)
          end
      end
  end.

Definition is_digit (a : ascii) : bool :=
  let n := nat_of_ascii a in (Nat.leb 48 n && Nat.leb n 57)%bool.

(** [/^\d{4}-\d{2}-\d{2}/] *)
Definition looks_like_date (s : string) : bool :=
  match s with
  | String y1 (String y2 (String y3 (String y4 (String d1
      (String m1 (String m2 (String d2 (String a1 (String a2 _))))))))) =>
      is_digit y1 && is_digit y2 && is_digit y3 && is_digit y4
      && Ascii.eqb d1 "-" && is_digit m1 && is_digit m2
      && Ascii.eqb d2 "-" && is_digit a1 && is_digit a2
  | _ => false
  end.

(** [a || b] on strings *)
Definition or_str (a : string) (b : string) : string :=
  if nonempty a then a else b.

Definition failed (err : string) (det : option string) : SyncResult :=
  {| success := false; lastSync := None; error := Some err; details := det |}.

Definition syncToR2 (x : Ext) (env : Env) (w : World)
  : SyncResult * World * list Command :=
  if negb (env_set env "R2_ACCESS_KEY_ID")
     || negb (env_set env "R2_SECRET_ACCESS_KEY")
     || negb (env_set env "CF_ACCOUNT_ID") then
    (failed "R2 storage is not configured" None, w, [])
  else if negb (mount_ok x) then
    (failed "Failed to mount R2 storage" None, w, [])
  else
    match check_throws x with
    | Some msg => (failed "Failed to verify source files" (Some msg), w, [CheckConfig])
    | None =>
        (* stdout holds ok when the file is there and the output arrived *)
        if negb (bool_decide (is_Some (openclaw_json (local w))) && check_logged x) then
          (failed "Sync aborted: no config file found"
                  (Some "openclaw.json not found in config directory."),
           w, [CheckConfig])
        else
          match sync_throws x, cat_throws x with
          | Some msg, _ => (failed "Sync error" (Some msg), w, [CheckConfig])
          | None, Some msg =>
              (failed "Sync error" (Some msg), run_sync x w,
               [CheckConfig; SyncCmd; CatLastSync])
          | None, None =>
              let w := run_sync x w in
              let stamp := Js.trim (default EmptyString (backup_sync w)) in
              if bool_decide (is_Some (backup_sync w)) && looks_like_date stamp then
                ({| success := true; lastSync := Some stamp;
                    error := None; details := None |},
                 w, [CheckConfig; SyncCmd; CatLastSync])
              else
                (failed "Sync failed"
                   (Some (or_str (sync_stderr x)
                            (or_str (sync_stdout x) "No timestamp file created"))),
                 w, [CheckConfig; SyncCmd; CatLastSync])
          end
    end.

End Sync.

(** * Notions the specification uses *)

Module Spec.
Import Boot.

(** The value of a SyncMarker: a missing marker is below every present
    one, and a present one that [date] rejects counts as epoch zero. *)
Inductive Marker :=
| Missing
| Stamp (epoch : Z).

Definition marker_time (x : Ext) (m : option string) : Marker :=
  match m with
  | None => Missing
  | Some text =>
      match date_epoch x text with
      | Some e => Stamp e
      | None => Stamp 0
      end
  end.

(** [newer a b]: [a] is strictly newer than [b]. *)
Definition newer (a b : Marker) : Prop :=
  match a, b with
  | Missing, _ => False
  | Stamp _, Missing => True
  | Stamp ea, Stamp eb => (eb < ea)%Z
  end.

Definition backup_marker (x : Ext) (w : World) : Marker :=
  marker_time x (backup_sync w).

Definition local_marker (x : Ext) (w : World) : Marker :=
  marker_time x (last_sync (local w)).

(** A copy from the bucket was started. *)
Definition is_copy (e : Event) : bool :=
  match e with
  | CpConfig _ | CpWorkspace _ | CpSkills _ => true
  | _ => false
  end.

Definition is_config_copy (e : Event) : bool :=
  match e with
  | CpConfig _ => true
  | _ => false
  end.

Definition is_onboard (e : Event) : bool :=
  match e with
  | Onboard _ => true
  | _ => false
  end.

Definition has_config (w : World) : bool :=
  bool_decide (is_Some (openclaw_json (local w))).

(** The bucket holds a configuration document. *)
Definition backup_has_config (w : World) : bool :=
  bool_decide (is_Some (openclaw_json (backup_openclaw w))).

(** The three variables the gateway-proxy branch of onboarding needs. *)
Definition gateway_proxy_credentials (env : Env) : bool :=
  env_set env "CLOUDFLARE_AI_GATEWAY_API_KEY"
  && env_set env "CF_AI_GATEWAY_ACCOUNT_ID"
  && env_set env "CF_AI_GATEWAY_GATEWAY_ID".

Definition is_exec (e : Event) : bool :=
  match e with
  | Gateway Exec _ => true
  | _ => false
  end.

Definition is_gateway (e : Event) : bool :=
  match e with
  | Gateway _ _ => true
  | _ => false
  end.

(** The invocation holds the lock and has installed the trap. *)
Definition holds_lock (p : Proc) : bool :=
  match p with
  | AtBoot | Waiting => true
  | _ => false
  end.

Definition is_lock_event (e : Event) : bool :=
  match e with
  | MkdirLock _ | RmLock => true
  | _ => false
  end.

(** What the phases between the trap and the launch may print or run. *)
Definition is_phase_event (e : Event) : bool :=
  match e with
  | MkdirLock _ | RmLock | Gateway _ _ | TrapRmdir => false
  | _ => true
  end.

(** [j.k1.k2...] in a document, [None] when the path leaves it. *)
Fixpoint jget (path : list string) (j : Js.json) : option Js.json :=
  match path with
  | [] => Some j
  | k :: rest =>
      match j with
      | Js.JObj m => m !! k ≫= jget rest
      | _ => None
      end
  end.

Definition file_get (path : list string) (f : option Js.doc_file) : option Js.json :=
  match f with
  | Some (Js.Doc d) => jget path d
  | _ => None
  end.

Definition json_truthy (j : option Js.json) : bool := Js.truthy (Js.parse <$> j).

(** The properties of a block, none when it is not an object. *)
Definition block (j : option Js.json) : gmap string Js.json :=
  match j with
  | Some (Js.JObj m) => m
  | _ => ∅
  end.

(** The token the credential store holds for the provider profile. *)
Definition persisted_token (store : option Js.doc_file) : option Js.json :=
  file_get ["profiles"; Token.profileId; "token"] store.

Definition token_persisted (store : option Js.doc_file) : bool :=
  json_truthy (persisted_token store).

(** A block of a document that is either an object or nothing that
    counts ([undefined], [null], [false], [0], the empty string). *)
Definition object_or_nothing (j : option Js.json) : bool :=
  match j with
  | Some (Js.JObj _) => true
  | _ => negb (json_truthy j)
  end.

(** A credential store as the gateway keeps it: no file, or an object
    whose [profiles] is such a block. *)
Definition store_shape (store : option Js.doc_file) : bool :=
  match store with
  | Some (Js.Doc (Js.JObj m)) => object_or_nothing (m !! "profiles")
  | Some (Js.Doc _) => false
  | _ => true
  end.

Definition nested_shape (outer inner : string) (m : gmap string Js.json) : bool :=
  match m !! outer with
  | Some (Js.JObj a) => object_or_nothing (a !! inner)
  | o => object_or_nothing o
  end.

(** A configuration document whose [auth.profiles] and
    [models.providers] are such blocks. *)
Definition config_shape (config : option Js.doc_file) : bool :=
  match config with
  | Some (Js.Doc (Js.JObj m)) =>
      nested_shape "auth" "profiles" m && nested_shape "models" "providers" m
  | Some (Js.Doc _) => false
  | _ => true
  end.

(** The channel integrations the patch knows. *)
Inductive Channel := Telegram | Discord | Slack.

Definition channel_name (c : Channel) : string :=
  match c with Telegram => "telegram" | Discord => "discord" | Slack => "slack" end.

(** The known-valid key set of a channel block. *)
Definition channel_valid (c : Channel) : gset string :=
  match c with
  | Telegram => Patch.VALID_TELEGRAM_KEYS
  | Discord => Patch.VALID_DISCORD_KEYS
  | Slack => Patch.VALID_SLACK_KEYS
  end.

(** The environment asks for the channel. *)
Definition channel_enabled (env : Env) (c : Channel) : bool :=
  match c with
  | Telegram => env_set env "TELEGRAM_BOT_TOKEN"
  | Discord => env_set env "DISCORD_BOT_TOKEN"
  | Slack => env_set env "SLACK_BOT_TOKEN" && env_set env "SLACK_APP_TOKEN"
  end.

(** What the environment always writes into the block. *)
Definition channel_overlay (env : Env) (c : Channel) : list (string * Js.json) :=
  match c with
  | Telegram => [("botToken", Js.JStr (getenv env "TELEGRAM_BOT_TOKEN"));
                 ("enabled", Js.JBool true)]
  | Discord => [("token", Js.JStr (getenv env "DISCORD_BOT_TOKEN"));
                ("enabled", Js.JBool true)]
  | Slack => [("botToken", Js.JStr (getenv env "SLACK_BOT_TOKEN"));
              ("appToken", Js.JStr (getenv env "SLACK_APP_TOKEN"));
              ("enabled", Js.JBool true)]
  end.

(** The keys a block may get from the environment or from a default. *)
Definition channel_overlaid (c : Channel) : list string :=
  match c with
  | Telegram => ["botToken"; "enabled"; "dmPolicy"; "allowFrom"]
  | Discord => ["token"; "enabled"; "dm"]
  | Slack => ["botToken"; "appToken"; "enabled"]
  end.

(** The persisted fields of a channel block. *)
Definition channel_block (c : Channel) (f : option Js.doc_file) : gmap string Js.json :=
  block (file_get ["channels"; channel_name c] f).

(** A configuration document whose [channels] and the block of the
    channel in it are objects or nothing that counts. *)
Definition channels_shape (c : Channel) (config : option Js.doc_file) : bool :=
  match config with
  | Some (Js.Doc (Js.JObj m)) => nested_shape "channels" (channel_name c) m
  | Some (Js.Doc _) => false
  | _ => true
  end.

Definition events (r : Proc * World * list Event) : list Event := r.2.
Definition final (r : Proc * World * list Event) : World := r.1.2.
Definition outcome (r : Proc * World * list Event) : Proc := r.1.1.

End Spec.

(** * The patch, property by property

    The statements of the patch program regrouped by the property of the
    document they write. A slot is what the program does to one property
    of an object: it is given the property's content ([None] when the
    property is missing) and gives the new one, or throws. The program
    of an object is the list of its slots. *)

Module Slots.
Import Js Patch Spec.

(** What [JSON.stringify] prints of a value whatever its properties
    are: the kind, and for an array the elements. *)
Definition skel (v : value) : value :=
  match v with
  | VObj _ => VObj ∅
  | VArr es _ => VArr es ∅
  | _ => v
  end.

(** A property is written ([Some]) or ends up missing ([None]). *)
Definition set_slot {A} (k : string) (c : option A) (m : gmap string A) : gmap string A :=
  match c with
  | Some v => <[k:=v]> m
  | None => delete k m
  end.

Definition Slot : Type := option value → option (option value).

(** The slots of an object run in order, each on its own property. *)
Fixpoint apply_keys (ts : list (string * Slot)) (m : gmap string value)
  : option (gmap string value) :=
  match ts with
  | [] => Some m
  | (k, T) :: ts => c ← T (m !! k); apply_keys ts (set_slot k c m)
  end.

(** Idempotence of a slot across a write and a read of the file: run
    on a parsed property, then on what was written of the result, it
    writes the same. *)
Definition Idem (T : Slot) : Prop :=
  ∀ (j : option json) (x : option value),
    T (parse <$> j) = Some x →
    ∃ x', T (parse <$> (stringify <$> x)) = Some x'
          ∧ stringify <$> x' = stringify <$> x.

(** A program that only assigns and deletes properties: it needs a
    value to work on and leaves its kind and elements alone. *)
Definition keeps (F : option value → option value) : Prop :=
  ∀ s r, F s = Some r → ∃ b, s = Some b ∧ skel r = skel b.

Definition keeps_op (op : value → value) : Prop := ∀ b, skel (op b) = skel b.

(** [b.k = v] *)
Definition const (v : value) : Slot := λ _, Some (Some v).

(** [b.k = b.k || {}] followed by the statements [F] on [b.k] *)
Definition ensure (F : option value → option value) : Slot :=
  λ s, Some <$> F (Some (or_obj s)).

(** Lines 184-207 seen from [config.gateway] and below. *)
Definition port_value : value := VNum (inject_Z 18789).
Definition proxies_value : value := VArr [VStr "10.1.0.0"] ∅.

Definition endpoints_prog (e : option value) : option value :=
  e ← update [] (set_prop "chatCompletions" enabled_obj) e;
  update [] (set_prop "responses" enabled_obj) (Some e).

Definition http_prog (h : option value) : option value :=
  h ← (cur ← getp ["endpoints"] h; update [] (set_prop "endpoints" (or_obj cur)) h);
  h ← update ["endpoints"] (set_prop "chatCompletions" enabled_obj) (Some h);
  update ["endpoints"] (set_prop "responses" enabled_obj) (Some h).

Definition auth_prog (env : Env) (a : option value) : option value :=
  update [] (set_prop "token" (VStr (getenv env "OPENCLAW_GATEWAY_TOKEN"))) a.

Definition control_prog (c : option value) : option value :=
  update [] (set_prop "allowInsecureAuth" (VBool true)) c.

Definition gateway_prog (env : Env) (g : option value) : option value :=
  g ← update [] (set_prop "port" port_value) g;
  g ← update [] (set_prop "mode" (VStr "local")) (Some g);
  g ← update [] (set_prop "trustedProxies" proxies_value) (Some g);
  g ← (if env_set env "OPENCLAW_GATEWAY_TOKEN" then
         g ← (cur ← getp ["auth"] (Some g);
              update [] (set_prop "auth" (or_obj cur)) (Some g));
         update ["auth"]
           (set_prop "token" (VStr (getenv env "OPENCLAW_GATEWAY_TOKEN"))) (Some g)
       else Some g);
  g ← (if String.eqb (getenv env "OPENCLAW_DEV_MODE") "true" then
         g ← (cur ← getp ["controlUi"] (Some g);
              update [] (set_prop "controlUi" (or_obj cur)) (Some g));
         update ["controlUi"] (set_prop "allowInsecureAuth" (VBool true)) (Some g)
       else Some g);
  g ← (cur ← getp ["http"] (Some g); update [] (set_prop "http" (or_obj cur)) (Some g));
  g ← (cur ← getp ["http"; "endpoints"] (Some g);
       update ["http"] (set_prop "endpoints" (or_obj cur)) (Some g));
  g ← update ["http"; "endpoints"] (set_prop "chatCompletions" enabled_obj) (Some g);
  update ["http"; "endpoints"] (set_prop "responses" enabled_obj) (Some g).

Definition endpoints_keys : list (string * Slot) :=
  [("chatCompletions", const enabled_obj); ("responses", const enabled_obj)].

Definition http_keys : list (string * Slot) :=
  [("endpoints", ensure endpoints_prog)].

Definition gateway_keys (env : Env) : list (string * Slot) :=
  [("port", const port_value); ("mode", const (VStr "local"));
   ("trustedProxies", const proxies_value)]
  ++ (if env_set env "OPENCLAW_GATEWAY_TOKEN"
      then [("auth", ensure (auth_prog env))] else [])
  ++ (if String.eqb (getenv env "OPENCLAW_DEV_MODE") "true"
      then [("controlUi", ensure control_prog)] else [])
  ++ [("http", ensure http_prog)].

(** The property is left as it is. *)
Definition keep : Slot := λ s, Some s.

(** Lines 326-361 seen from [config.channels] and below. *)
Definition dm_slot (env : Env) : Slot := λ s, Some (Some (discord_dm env s)).

Definition discord_keys (env : Env) : list (string * Slot) :=
  [("token", const (VStr (getenv env "DISCORD_BOT_TOKEN")));
   ("enabled", const (VBool true));
   ("dm", dm_slot env)].

Definition slack_keys (env : Env) : list (string * Slot) :=
  [("botToken", const (VStr (getenv env "SLACK_BOT_TOKEN")));
   ("appToken", const (VStr (getenv env "SLACK_APP_TOKEN")));
   ("enabled", const (VBool true))].

Definition telegram_slot (env : Env) : Slot := λ s,
  Some (Some (VObj (telegram_entry env s))).
Definition discord_slot (env : Env) : Slot := λ s,
  Some (Some (VObj (discord_entry env s))).
Definition slack_slot (env : Env) : Slot := λ s,
  Some (Some (VObj (slack_entry env s))).

Definition channels_prog (env : Env) (c : option value) : option value :=
  c ← (if env_set env "TELEGRAM_BOT_TOKEN" then
         cur ← getp ["telegram"] c;
         update [] (set_prop "telegram" (VObj (telegram_entry env cur))) c
       else c);
  c ← (if env_set env "DISCORD_BOT_TOKEN" then
         cur ← getp ["discord"] (Some c);
         update [] (set_prop "discord" (VObj (discord_entry env cur))) (Some c)
       else Some c);
  if env_set env "SLACK_BOT_TOKEN" && env_set env "SLACK_APP_TOKEN" then
    cur ← getp ["slack"] (Some c);
    update [] (set_prop "slack" (VObj (slack_entry env cur))) (Some c)
  else Some c.

Definition channels_keys (env : Env) : list (string * Slot) :=
  (if env_set env "TELEGRAM_BOT_TOKEN" then [("telegram", telegram_slot env)] else [])
  ++ (if env_set env "DISCORD_BOT_TOKEN" then [("discord", discord_slot env)] else [])
  ++ (if env_set env "SLACK_BOT_TOKEN" && env_set env "SLACK_APP_TOKEN"
      then [("slack", slack_slot env)] else []).

(** Lines 223-280 seen from [config.models] and [config.agents]: the
    clean-up runs when neither variable is set, the override when the
    model variable is set and complete. *)
Definition cleaning (env : Env) : bool :=
  negb (env_set env "CF_AI_GATEWAY_MODEL")
  && negb (env_set env "CLOUDFLARE_AI_GATEWAY_API_KEY").

Definition overriding (env : Env) : option Override :=
  if env_set env "CF_AI_GATEWAY_MODEL" then gateway_override env else None.

Definition drop_slot : Slot := λ p,
  Some (if truthy p then drop_stale_providers <$> p else p).

Definition clean_models (s : option value) : option (option value) :=
  if truthy s then
    providers ← getp ["providers"] s;
    if truthy providers
    then Some <$> update ["providers"] drop_stale_providers s
    else Some s
  else Some s.

Definition clean_agents (s : option value) : option (option value) :=
  let defaultModel :=
    opt_member (opt_member (opt_member s "defaults") "model") "primary" in
  if truthy defaultModel then
    match defaultModel with
    | Some (VStr t) =>
        if starts_with stale_prefix t
        then Some <$> update ["defaults"] (del_prop "model") s
        else Some s
    | _ => None
    end
  else Some s.

Definition providers_prog (o : Override) (p : option value) : option value :=
  update [] (set_prop (providerName o) (provider_entry o)) p.

Definition models_prog (o : Override) (s : option value) : option value :=
  s ← (cur ← getp ["providers"] s; update [] (set_prop "providers" (or_obj cur)) s);
  update ["providers"] (set_prop (providerName o) (provider_entry o)) (Some s).

Definition defaults_prog (o : Override) (d : option value) : option value :=
  update [] (set_prop "model" (default_model o)) d.

Definition agents_prog (o : Override) (s : option value) : option value :=
  s ← (cur ← getp ["defaults"] s; update [] (set_prop "defaults" (or_obj cur)) s);
  update ["defaults"] (set_prop "model" (default_model o)) (Some s).

Definition models_slot (env : Env) : Slot := λ s,
  s ← (if cleaning env then clean_models s else Some s);
  match overriding env with
  | Some o => ensure (models_prog o) s
  | None => Some s
  end.

Definition agents_slot (env : Env) : Slot := λ s,
  s ← (if cleaning env then clean_agents s else Some s);
  match overriding env with
  | Some o => ensure (agents_prog o) s
  | None => Some s
  end.

(** The whole patch on the root object. *)
Definition root_keys (env : Env) : list (string * Slot) :=
  [("gateway", ensure (gateway_prog env));
   ("channels", ensure (channels_prog env));
   ("models", models_slot env);
   ("agents", agents_slot env)].

(** Every key of the object is in the allow-list. *)
Definition valid_keys (valid : gset string) (M : gmap string value) : Prop :=
  ∀ k, is_Some (M !! k) → k ∈ valid.

(** Values that a write and a read of the file give back unchanged. *)
Definition clean_map (M : gmap string value) : Prop :=
  parse <$> (stringify <$> M) = M.

Definition clean (v : value) : Prop := parse (stringify v) = v.

(** The DM policy of a channel entry: the environment's, else the
    persisted one, else ['pairing']; and the allow-list that goes with
    it: the environment's, else [['*']] for an open policy without one. *)
Definition policy_of (pol : option string) (cur : option value) : option value :=
  let v := match pol with Some p => Some (VStr p) | None => cur end in
  if truthy v then v else Some (VStr "pairing").

Definition allow_of (allow : option value) (open : bool) (cur : option value)
  : option value :=
  match allow with
  | Some a => Some a
  | None => if open && negb (truthy cur) then Some star_list else cur
  end.

Definition policy_overlay (pk : string) (pol : option string) (allow : option value)
    (M : gmap string value) : gmap string value :=
  let P := policy_of pol (M !! pk) in
  set_slot "allowFrom" (allow_of allow (is_str "open" P) (M !! "allowFrom"))
    (set_slot pk P M).

Definition telegram_policy (env : Env) : option string :=
  if env_set env "TELEGRAM_DM_POLICY"
  then Some (getenv env "TELEGRAM_DM_POLICY") else None.

Definition telegram_allow (env : Env) : option value :=
  if env_set env "TELEGRAM_DM_ALLOW_FROM"
  then Some (VArr (VStr <$> split_on "," (getenv env "TELEGRAM_DM_ALLOW_FROM")) ∅)
  else None.

Definition discord_policy (env : Env) : option string :=
  if env_set env "DISCORD_DM_POLICY"
  then Some (getenv env "DISCORD_DM_POLICY") else None.

Definition channel_slot (env : Env) (c : Channel) : Slot :=
  match c with
  | Telegram => telegram_slot env
  | Discord => discord_slot env
  | Slack => slack_slot env
  end.

Definition channel_entry (env : Env) (c : Channel) (cur : option value)
  : gmap string value :=
  match c with
  | Telegram => telegram_entry env cur
  | Discord => discord_entry env cur
  | Slack => slack_entry env cur
  end.

(** The credential store after [profiles.profiles = profiles.profiles || {}]. *)
Definition store_loaded (m : gmap string json) : value :=
  VObj (<["profiles" := VObj (parse <$> block (m !! "profiles"))]> (parse <$> m)).

End Slots.

(** * Sample states

    The end-to-end scenario of the specification: nothing local, a
    bucket with a valid configuration document and the marker
    [2024-01-01T00:00:00Z], a gateway token in the environment. *)

Module Sample.
Import Js Boot.

Definition stamp : string := "2024-01-01T00:00:00Z".

Definition backup_doc : json :=
  JObj {[ "gateway" := JObj {[ "mode" := JStr "local" ]} ]}.

Definition fresh : World :=
  {| lock_dir := false; local := empty_dir; workspace := ∅; skills := ∅;
     backup_sync := None; backup_openclaw := empty_dir;
     backup_workspace := ∅; backup_skills := ∅ |}.

Definition backed_up : World :=
  {| lock_dir := false; local := empty_dir; workspace := ∅; skills := ∅;
     backup_sync := Some stamp;
     backup_openclaw := with_openclaw_json (Some (Doc backup_doc)) empty_dir;
     backup_workspace := {[ "IDENTITY.md" := "me" ]}; backup_skills := ∅ |}.

(** Every external command succeeds; nothing answers on the port. *)
Definition quiet : Ext :=
  {| curl_ok := false;
     date_epoch := λ t, if String.eqb t stamp then Some 1704067200%Z else None;
     cp_config := None; cp_marker_ok := true;
     cp_workspace := None; cp_skills := None;
     onboard_status := 0;
     onboard_files := with_openclaw_json (Some (Doc (JObj ∅))) empty_dir;
     gateway_status := 0 |}.

Definition answering : Ext :=
  {| curl_ok := true;
     date_epoch := date_epoch quiet;
     cp_config := None; cp_marker_ok := true;
     cp_workspace := None; cp_skills := None;
     onboard_status := 0; onboard_files := empty_dir;
     gateway_status := 0 |}.

Definition token_env : Env := {[ "OPENCLAW_GATEWAY_TOKEN" := "secret" ]}.

Definition r2_env : Env :=
  {[ "R2_ACCESS_KEY_ID" := "id"; "R2_SECRET_ACCESS_KEY" := "key";
     "CF_ACCOUNT_ID" := "acct" ]}.

(** The sandbox does what it is asked. *)
Definition syncing : Sync.Ext :=
  {| Sync.mount_ok := true; Sync.check_throws := None; Sync.check_logged := true;
     Sync.sync_throws := None; Sync.cat_throws := None;
     Sync.rsync_config := None; Sync.rsync_workspace := None;
     Sync.rsync_skills := None; Sync.now := "2024-01-02T00:00:00+00:00";
     Sync.sync_stderr := EmptyString; Sync.sync_stdout := EmptyString |}.

(** A lock directory is there and nothing answers on the port. *)
Definition locked : World := with_lock true backed_up.

(** A configuration document is there already: the empty object. *)
Definition configured : World :=
  with_local (with_openclaw_json (Some (Doc (JObj ∅))) empty_dir) backed_up.

Definition all_keys : Env :=
  {[ "CLOUDFLARE_AI_GATEWAY_API_KEY" := "cf-key";
     "CF_AI_GATEWAY_ACCOUNT_ID" := "acct";
     "CF_AI_GATEWAY_GATEWAY_ID" := "gw";
     "ANTHROPIC_API_KEY" := "sk-ant";
     "OPENAI_API_KEY" := "sk-oai" ]}.

(** The scenario of the idempotence property: a document that holds a
    previously patched channel block and one unknown stale key. *)
Definition telegram_env : Env :=
  {[ "TELEGRAM_BOT_TOKEN" := "123:abc"; "OPENCLAW_GATEWAY_TOKEN" := "secret" ]}.

Definition stale_config : option doc_file :=
  Some (Doc (JObj
    {[ "gateway" := JObj {[ "port" := JNum (inject_Z 18789); "mode" := JStr "local" ]};
       "channels" := JObj
         {[ "telegram" := JObj
              {[ "botToken" := JStr "123:abc"; "enabled" := JBool true;
                 "dmPolicy" := JStr "pairing";
                 "groups" := JObj {[ "-100" := JObj {[ "requireMention" := JBool true ]} ]};
                 "legacyField" := JNum 1 ]} ]} ]})).

(** The setup credential as the environment gives it, and a credential
    store in which an operator has put a token. *)
Definition setup_env : Env := {[ "CLAUDE_SETUP_TOKEN" := "  tok-123  " ]}.

Definition admin_store : doc_file :=
  Doc (JObj {[ "profiles" := JObj {[ Token.profileId :=
    JObj {[ "type" := JStr "token"; "provider" := JStr "anthropic";
            "token" := JStr "admin-token" ]} ]} ]}).

Definition with_admin_token : World :=
  with_local (with_auth_profiles (Some admin_store) (local configured))
    configured.

End Sample.

(** * Further notions *)

Module Frame.
Import Boot.

(** Files are put or replaced, none is taken away. *)
Definition grows (w w' : World) : Prop :=
  (is_Some (openclaw_json (local w)) → is_Some (openclaw_json (local w')))
  ∧ (is_Some (last_sync (local w)) → is_Some (last_sync (local w')))
  ∧ (is_Some (auth_profiles (local w)) → is_Some (auth_profiles (local w')))
  ∧ (∀ k, is_Some (workspace w !! k) → is_Some (workspace w' !! k))
  ∧ (∀ k, is_Some (skills w !! k) → is_Some (skills w' !! k)).

(** The bucket is what it was. *)
Definition same_bucket (w w' : World) : Prop :=
  backup_sync w' = backup_sync w ∧ backup_openclaw w' = backup_openclaw w
  ∧ backup_workspace w' = backup_workspace w ∧ backup_skills w' = backup_skills w.

(** The container is what it was. *)
Definition same_container (w w' : World) : Prop :=
  lock_dir w' = lock_dir w ∧ local w' = local w
  ∧ workspace w' = workspace w ∧ skills w' = skills w.

Definition is_patch (e : Event) : bool :=
  match e with NodePatch _ => true | _ => false end.

Definition is_token (e : Event) : bool :=
  match e with NodeToken _ => true | _ => false end.

Definition patch_failed (e : Event) : bool :=
  match e with NodePatch false => true | _ => false end.

Definition token_failed (e : Event) : bool :=
  match e with NodeToken false => true | _ => false end.

(** A new container on the same bucket: nothing local yet. *)
Definition fresh_container (w : World) : World :=
  {| lock_dir := false; local := empty_dir; workspace := ∅; skills := ∅;
     backup_sync := backup_sync w; backup_openclaw := backup_openclaw w;
     backup_workspace := backup_workspace w; backup_skills := backup_skills w |}.

(** The guards of [syncToR2] pass and the sandbox rejects no call. *)
Definition sync_runs (x : Sync.Ext) (env : Env) (w : World) : bool :=
  env_set env "R2_ACCESS_KEY_ID" && env_set env "R2_SECRET_ACCESS_KEY"
  && env_set env "CF_ACCOUNT_ID" && Sync.mount_ok x
  && bool_decide (Sync.check_throws x = None)
  && bool_decide (is_Some (openclaw_json (local w))) && Sync.check_logged x
  && bool_decide (Sync.sync_throws x = None)
  && bool_decide (Sync.cat_throws x = None).

(** Every [rsync] of the chain succeeds. *)
Definition sync_completes (x : Sync.Ext) : bool :=
  bool_decide (Sync.rsync_config x = None)
  && bool_decide (Sync.rsync_workspace x = None)
  && bool_decide (Sync.rsync_skills x = None).

(** The configuration file is missing, unreadable, or holds an object. *)
Definition root_object (f : option Js.doc_file) : bool :=
  match f with
  | Some (Js.Doc (Js.JObj _)) => true
  | Some (Js.Doc _) => false
  | _ => true
  end.

(** The section [k] of the configuration is an object or nothing that
    counts. *)
Definition section_shape (k : string) (f : option Js.doc_file) : bool :=
  root_object f && Spec.object_or_nothing (Spec.file_get [k] f).

(** The properties of [config.a] that the patch program writes. *)
Definition patched_sections : list string := ["gateway"; "channels"; "models"; "agents"].

(** A block with a DM policy under [pk]: there is one, and an open one
    comes with an allow-list. *)
Definition dm_policy_ok (pk : string) (b : gmap string Js.json) : Prop :=
  Spec.json_truthy (b !! pk) = true
  ∧ (b !! pk = Some (Js.JStr "open") → Spec.json_truthy (b !! "allowFrom") = true).

(** A configuration document whose [auth.profiles] is an object or
    nothing that counts, and one whose [agents.defaults] is. *)
Definition auth_shape (config : option Js.doc_file) : bool :=
  match config with
  | Some (Js.Doc (Js.JObj m)) => Spec.nested_shape "auth" "profiles" m
  | Some (Js.Doc _) => false
  | _ => true
  end.

Definition defaults_shape (config : option Js.doc_file) : bool :=
  match config with
  | Some (Js.Doc (Js.JObj m)) => Spec.nested_shape "agents" "defaults" m
  | Some (Js.Doc _) => false
  | _ => true
  end.

End Frame.



(** * The admin API ([src/routes/api.ts])

    The handlers of the admin routes, as functions of the request and of
    what the sandbox answers. A response is what [c.json(obj, status)]
    sends: the status code and the document, in which a property whose
    value is [undefined] does not appear. *)

Module Api.
Import Js Boot.

Record Response := {
  status : Z;
  body : json;
}.

(** [c.json({ k1: v1, ... }, status)]; [None] is [undefined]. *)
Definition c_json (fields : list (string * option json)) (st : Z) : Response :=
  {| status := st;
     body := JObj (list_to_map (omap (λ kv, pair kv.1 <$> kv.2) fields)) |}.

(** ** [toBase64] (lines 21-26)

    A JavaScript string is a sequence of UTF-16 code units; the binary
    string handed to [btoa] is a sequence of character codes. *)

Definition is_high (u : Z) : bool := (55296 <=? u)%Z && (u <=? 56319)%Z.
Definition is_low (u : Z) : bool := (56320 <=? u)%Z && (u <=? 57343)%Z.

(** The scalar values [TextEncoder] sees: a surrogate pair is one
    value, a surrogate without its partner is U+FFFD. *)
Fixpoint scalars (s : list Z) : list Z :=
  match s with
  | [] => []
  | u :: rest =>
      if is_high u then
        match rest with
        | v :: rest' =>
            if is_low v
            then (65536 + (u - 55296) * 1024 + (v - 56320))%Z :: scalars rest'
            else 65533%Z :: scalars rest
        | [] => [65533%Z]
        end
      else if is_low u then 65533%Z :: scalars rest
      else u :: scalars rest
  end.

(** UTF-8 of one scalar value *)
Definition utf8 (c : Z) : list Z :=
  if (c <? 128)%Z then [c]
  else if (c <? 2048)%Z then
    [Z.lor 192 (Z.shiftr c 6); Z.lor 128 (Z.land c 63)]
  else if (c <? 65536)%Z then
    [Z.lor 224 (Z.shiftr c 12); Z.lor 128 (Z.land (Z.shiftr c 6) 63);
     Z.lor 128 (Z.land c 63)]
  else
    [Z.lor 240 (Z.shiftr c 18); Z.lor 128 (Z.land (Z.shiftr c 12) 63);
     Z.lor 128 (Z.land (Z.shiftr c 6) 63); Z.lor 128 (Z.land c 63)].

(** [new TextEncoder().encode(str)] *)
Definition encode (str : list Z) : list Z := scalars str ≫= utf8.

Definition alphabet : list ascii :=
  list_ascii_of_string
    "ABCDEFGHIJKLMNOPQRSTUVWXYZabcdefghijklmnopqrstuvwxyz0123456789+/".

Definition digit64 (n : Z) : ascii := nth (Z.to_nat n) alphabet "="%char.

(** The four characters of a 24-bit group, the last [pad] of them
    replaced by the padding character. *)
Definition group64 (n : Z) (pad : nat) : list ascii :=
  take (4 - pad)
    [digit64 (Z.shiftr n 18); digit64 (Z.land (Z.shiftr n 12) 63);
     digit64 (Z.land (Z.shiftr n 6) 63); digit64 (Z.land n 63)]
  ++ replicate pad "="%char.

Fixpoint encode64 (bs : list Z) : list ascii :=
  match bs with
  | [] => []
  | [a] => group64 (Z.shiftl a 16) 2
  | [a; b] => group64 (Z.lor (Z.shiftl a 16) (Z.shiftl b 8)) 1
  | a :: b :: c :: rest =>
      group64 (Z.lor (Z.lor (Z.shiftl a 16) (Z.shiftl b 8)) c) 0 ++ encode64 rest
  end.

(** [btoa(binary)]: [None] is the [InvalidCharacterError] thrown for a
    character code above 255. *)
Definition btoa (binary : list Z) : option string :=
  if forallb (λ b, (0 <=? b)%Z && (b <=? 255)%Z) binary
  then Some (string_of_list_ascii (encode64 binary))
  else None.

(** The loop of line 24 appends [String.fromCharCode(byte)] for each
    byte, so the binary string has the bytes as its character codes. *)
Definition toBase64 (str : list Z) : option string := btoa (encode str).

Definition is_byte (b : Z) : Prop := (0 <= b < 256)%Z.

(** A code point of Unicode. *)
Definition is_scalar (c : Z) : Prop := (0 <= c < 1114112)%Z.

(** A string of UTF-16 code units. *)
Definition code_units (str : list Z) : Prop :=
  Forall (λ u, (0 <= u < 65536)%Z) str.

Definition is_letter (a : ascii) : bool :=
  let n := nat_of_ascii a in
  (Nat.leb 65 n && Nat.leb n 90) || (Nat.leb 97 n && Nat.leb n 122).

(** What may stand between double quotes in a shell command without
    being read as anything but itself. *)
Definition base64_char (a : ascii) : bool :=
  is_letter a || Sync.is_digit a
  || Ascii.eqb a "+" || Ascii.eqb a "/" || Ascii.eqb a "=".

(** ** Request parameters (lines 99 and 473) *)

(** [[a-zA-Z0-9_-]] *)
Definition request_id_char (a : ascii) : bool :=
  is_letter a || Sync.is_digit a || Ascii.eqb a "_" || Ascii.eqb a "-".

(** [!requestId || !/^[a-zA-Z0-9_-]+$/.test(requestId)], negated. A
    missing parameter is the empty string here. *)
Definition valid_request_id (requestId : string) : bool :=
  nonempty requestId && forallb request_id_char (list_ascii_of_string requestId).

(** [/^[a-zA-Z0-9_:-]+$/] *)
Definition valid_profile_id (profileId : string) : bool :=
  nonempty profileId
  && forallb (λ a, request_id_char a || Ascii.eqb a ":")
       (list_ascii_of_string profileId).

(** ** [POST /devices/:requestId/approve] (lines 95-131) *)

(** [s.includes(t)] *)
Fixpoint includes (t s : string) : bool :=
  String.prefix t s
  || match s with
     | String _ rest => includes t rest
     | EmptyString => false
     end.

Definition lower (a : ascii) : ascii :=
  let n := nat_of_ascii a in
  if Nat.leb 65 n && Nat.leb n 90 then ascii_of_nat (n + 32) else a.

(** [s.toLowerCase()], on the ASCII letters: no other character has a
    lower case among the letters of the word that is looked for. *)
Fixpoint to_lower (s : string) : string :=
  match s with
  | String a rest => String (lower a) (to_lower rest)
  | EmptyString => EmptyString
  end.

(** What the sandbox answers. [Some msg] in a [_rejects] field is an
    [Error] with that message thrown inside the [try]: by
    [ensureGateway], or by one of [startProcess], [waitForProcess] and
    [getLogs]. An output that is [undefined] is the empty string. *)
Record Cli := {
  ensure_rejects : option string;
  cli_rejects : option string;
  cli_stdout : string;
  cli_stderr : string;
  cli_exit_zero : bool;
}.

Definition approve_command (requestId : string) : string :=
  "openclaw devices approve " +:+ requestId +:+ " --url ws://localhost:18789".

(** The response, and the commands handed to [sandbox.startProcess]. *)
Definition approve (x : Cli) (requestId : string) : Response * list string :=
  if negb (valid_request_id requestId) then
    (c_json [("error", Some (JStr "Invalid requestId format"))] 400, [])
  else
    match ensure_rejects x with
    | Some msg => (c_json [("error", Some (JStr msg))] 500, [])
    | None =>
        match cli_rejects x with
        | Some msg =>
            (c_json [("error", Some (JStr msg))] 500, [approve_command requestId])
        | None =>
            let success :=
              includes "approved" (to_lower (cli_stdout x)) || cli_exit_zero x in
            (c_json [("success", Some (JBool success));
                     ("requestId", Some (JStr requestId));
                     ("message", Some (JStr (if success then "Device approved"
                                             else "Approval may have failed")));
                     ("stdout", Some (JStr (cli_stdout x)));
                     ("stderr", Some (JStr (cli_stderr x)))] 200,
             [approve_command requestId])
        end
    end.

(** The characters of the command line that the shell reads as
    themselves: those of a request id, and the blank, colon, slash and
    dot of the fixed part. *)
Definition plain_char (a : ascii) : bool :=
  request_id_char a || Ascii.eqb a " " || Ascii.eqb a ":" || Ascii.eqb a "/"
  || Ascii.eqb a ".".

(** The character [c] does not occur in [w]. *)
Definition lacks (c : ascii) (w : string) : bool :=
  forallb (λ a, negb (Ascii.eqb a c)) (list_ascii_of_string w).

(** ** [GET /storage] (lines 206-251) *)

(** What [cat /data/openclaw/.last-sync 2>/dev/null], with an [echo]
    of the empty string as its fallback, prints for a marker file: its
    content, or the line feed of [echo]. *)
Definition marker_output (marker : option string) : string :=
  match marker with
  | Some content => content
  | None => String "010" EmptyString
  end.

(** [probe] is what lines 226-233 give when they are reached: [None]
    when a call of the sandbox throws, else [logs.stdout]. *)
Definition storage (env : Env) (probe : option (option string)) : Response :=
  let hasCredentials :=
    env_set env "R2_ACCESS_KEY_ID" && env_set env "R2_SECRET_ACCESS_KEY"
    && env_set env "CF_ACCOUNT_ID" in
  let missing :=
    (if env_set env "R2_ACCESS_KEY_ID" then [] else ["R2_ACCESS_KEY_ID"])
    ++ (if env_set env "R2_SECRET_ACCESS_KEY" then [] else ["R2_SECRET_ACCESS_KEY"])
    ++ (if env_set env "CF_ACCOUNT_ID" then [] else ["CF_ACCOUNT_ID"]) in
  let lastSync : option string :=
    if hasCredentials then
      match probe with
      | Some (Some stdout) =>
          let timestamp := trim stdout in
          if nonempty timestamp then Some timestamp else None
      | _ => None
      end
    else None in
  c_json
    [("configured", Some (JBool hasCredentials));
     ("missing", match missing with
                 | [] => None
                 | _ => Some (JArr (JStr <$> missing))
                 end);
     ("lastSync", Some (from_option JStr JNull lastSync));
     ("message",
      Some (JStr (if hasCredentials
                  then "R2 storage is configured. Your data will persist across container restarts."
                  else "R2 storage is not configured. Paired devices and conversations will be lost when the container restarts.")))]
    200.

(** ** [POST /storage/sync] (lines 254-276) *)

Definition storage_sync (x : Sync.Ext) (env : Env) (w : World)
  : Response * World * list Sync.Command :=
  let '(result, w, cmds) := Sync.syncToR2 x env w in
  (if Sync.success result then
     c_json [("success", Some (JBool true));
             ("message", Some (JStr "Sync completed successfully"));
             ("lastSync", JStr <$> Sync.lastSync result)] 200
   else
     c_json [("success", Some (JBool false));
             ("error", JStr <$> Sync.error result);
             ("details", JStr <$> Sync.details result)]
       (if from_option (includes "not configured") false (Sync.error result)
        then 400 else 500),
   w, cmds).

(** ** [POST /auth/setup-token] (lines 358-466)

    The file is a module, so its code is strict: an assignment to a
    property of a primitive value throws a [TypeError], where the
    here-documents of the bootstrap script drop it silently. *)

(** [b.k = v] in strict code *)
Definition set_strict (k : string) (v : value) (b : value) : option value :=
  match b with
  | VObj m => Some (VObj (<[k:=v]> m))
  | VArr es ps => Some (VArr es (<[k:=v]> ps))
  | _ => None
  end.

(** As [Js.update], for an operation that can throw. *)
Fixpoint update_strict (base : list string) (op : value → option value)
    (s : option value) : option value :=
  match s with
  | None | Some VNull => None
  | Some b =>
      match base with
      | [] => op b
      | k :: rest => c ← update_strict rest op (prop k b); Some (set_prop k c b)
      end
  end.

(** [config.<base>.k = v] *)
Definition assign_strict (base : list string) (k : string) (v : value)
    (config : value) : option value :=
  update_strict base (set_strict k v) (Some config).

(** [config.<base>.k = config.<base>.k || {}] *)
Definition assign_or_obj_strict (base : list string) (k : string) (config : value)
  : option value :=
  cur ← read (base ++ [k]) config; assign_strict base k (or_obj cur) config.

(** What the engine decides: the text a value that is no string gets
    inside a template literal, and the message of a [TypeError]. *)
Record Engine := {
  render : value → string;
  type_error : string;
}.

Definition text (e : Engine) (v : value) : string :=
  match v with
  | VStr s => s
  | _ => render e v
  end.

(** What the sandbox does. [Some msg] in a [_rejects] field is an
    [Error] with that message thrown by one of the calls of the step:
    [ensureGateway] (line 378), the read of the credential store (lines
    381-385), its write (403-406), the read of the configuration
    (409-411), its write (438-441), [findExistingGateway] (444). A
    [_logged] field tells whether the output of [cat] had arrived when
    the logs were read, a [_written] field whether the shell command
    wrote its file; the handler looks at no exit status. *)
Record Calls := {
  gateway_rejects : option string;
  read_store_rejects : option string;
  store_logged : bool;
  write_store_rejects : option string;
  store_written : bool;
  read_config_rejects : option string;
  config_logged : bool;
  write_config_rejects : option string;
  config_written : bool;
  find_rejects : option string;
}.

(** An answer, or an exception that leaves the handler. *)
Inductive Reply :=
| Sent (r : Response)
| Uncaught.

Definition failure (st : Z) (msg : string) : Response :=
  c_json [("success", Some (JBool false)); ("error", Some (JStr msg))] st.

(** [JSON.parse(logs.stdout?.trim() || "{}")] inside [try], with the
    empty object for what does not parse: the file as [Js.load] reads
    it, when its content has arrived. *)
Definition read_file (logged : bool) (f : option doc_file) : value :=
  if logged then load f else VObj ∅.

(** [body.provider || "anthropic"] *)
Definition requested_provider (p : option value) : value :=
  match p with
  | Some v => if truthy p then v else VStr "anthropic"
  | None => VStr "anthropic"
  end.

Definition token_entry (provider : value) (token : string) : value :=
  VObj (<["type" := VStr "token"]>
       (<["provider" := provider]>
       {[ "token" := VStr (trim token) ]})).

Definition reference (provider : value) : value :=
  VObj (<["provider" := provider]> {[ "mode" := VStr "token" ]}).

Definition sonnet : value :=
  VObj {[ "primary" := VStr "anthropic/claude-sonnet-4-5" ]}.

(** Lines 394-399 on the loaded credential store. *)
Definition store_profile (profileId : string) (entry : value) (parsed : value)
  : option value :=
  parsed ← assign_or_obj_strict [] "profiles" parsed;
  assign_strict ["profiles"] profileId entry parsed.

(** Lines 419-435 on the loaded configuration. *)
Definition reference_provider (provider : value) (profileId : string)
    (config : value) : option value :=
  config ← assign_or_obj_strict [] "auth" config;
  config ← assign_or_obj_strict ["auth"] "profiles" config;
  config ← assign_strict ["auth"; "profiles"] profileId (reference provider) config;
  if is_str "anthropic" (Some provider) then
    config ← assign_or_obj_strict [] "agents" config;
    config ← assign_or_obj_strict ["agents"] "defaults" config;
    config ← assign_strict ["agents"; "defaults"] "model" sonnet config;
    config ← assign_or_obj_strict [] "models" config;
    config ← assign_or_obj_strict ["models"] "providers" config;
    anthropic ← read ["models"; "providers"; "anthropic"] config;
    if truthy anthropic then Some config
    else assign_strict ["models"; "providers"] "anthropic" (VObj ∅) config
  else Some config.

(** The result of a request: the reply, the two files, and whether a
    restart of the gateway was put in hand. *)
Definition Outcome : Type := Reply * Token.Files * bool.

Definition fail (msg : string) (fs : Token.Files) : Outcome :=
  (Sent (failure 500 msg), fs, false).

(** Lines 377-465: the [try] block. *)
Definition save_token (e : Engine) (x : Calls) (provider : value) (token : string)
    (fs : Token.Files) : Outcome :=
  let profileId := text e provider +:+ ":default" in
  match gateway_rejects x with
  | Some msg => fail msg fs
  | None =>
  match read_store_rejects x with
  | Some msg => fail msg fs
  | None =>
  match store_profile profileId (token_entry provider token)
          (read_file (store_logged x) (Token.profiles_file fs)) with
  | None => fail (type_error e) fs
  | Some parsed =>
  let fs :=
    if store_written x
    then {| Token.profiles_file := Some (Doc (stringify parsed));
            Token.config_file := Token.config_file fs |}
    else fs in
  match write_store_rejects x with
  | Some msg => fail msg fs
  | None =>
  match read_config_rejects x with
  | Some msg => fail msg fs
  | None =>
  match reference_provider provider profileId
          (read_file (config_logged x) (Token.config_file fs)) with
  | None => fail (type_error e) fs
  | Some config =>
  let fs :=
    if config_written x
    then {| Token.profiles_file := Token.profiles_file fs;
            Token.config_file := Some (Doc (stringify config)) |}
    else fs in
  match write_config_rejects x with
  | Some msg => fail msg fs
  | None =>
  match find_rejects x with
  | Some msg => fail msg fs
  | None =>
      (Sent (c_json [("success", Some (JBool true));
                     ("message",
                      Some (JStr ("Setup token saved for " +:+ text e provider
                                  +:+ ". Gateway is restarting...")))] 200),
       fs, true)
  end end end end end end end end.

(** The handler. [body] is what [c.req.json()] gives, [None] when it
    throws. *)
Definition setup_token (e : Engine) (x : Calls) (body : option json)
    (fs : Token.Files) : Outcome :=
  match body with
  | None => (Sent (failure 400 "Invalid JSON body"), fs, false)
  | Some j =>
      match member (Some (parse j)) "provider" with
      | None => (Uncaught, fs, false)
      | Some p =>
          match prop "token" (parse j) with
          | Some (VStr token) =>
              if nonempty token && nonempty (trim token)
              then save_token e x (requested_provider p) token fs
              else (Sent (failure 400 "Token is required"), fs, false)
          | _ => (Sent (failure 400 "Token is required"), fs, false)
          end
      end
  end.

(** Every call of the sandbox succeeds. *)
Definition obliging (x : Calls) : bool :=
  bool_decide (gateway_rejects x = None)
  && bool_decide (read_store_rejects x = None) && store_logged x
  && bool_decide (write_store_rejects x = None) && store_written x
  && bool_decide (read_config_rejects x = None) && config_logged x
  && bool_decide (write_config_rejects x = None) && config_written x
  && bool_decide (find_rejects x = None).

(** The sandbox gets as far as writing the credential store. *)
Definition store_saved (x : Calls) : bool :=
  bool_decide (gateway_rejects x = None)
  && bool_decide (read_store_rejects x = None) && store_logged x
  && store_written x.

(** The token a request body asks to save, if it asks for one. *)
Definition requested_token (body : option json) : option string :=
  match body with
  | Some (JObj m) =>
      match m !! "token" with
      | Some (JStr token) => if nonempty (trim token) then Some token else None
      | _ => None
      end
  | _ => None
  end.

End Api.

(** * Further sample states *)

Module Cases.
Import Js Boot.

(** The configuration file holds [null]. *)
Definition null_config : World :=
  with_local (with_openclaw_json (Some (Doc JNull)) empty_dir) Sample.fresh.

(** The first [rsync] fails after it has written nothing new; the
    bucket holds a marker from an earlier sync. *)
Definition failing_rsync : Sync.Ext :=
  {| Sync.mount_ok := true; Sync.check_throws := None; Sync.check_logged := true;
     Sync.sync_throws := None; Sync.cat_throws := None;
     Sync.rsync_config := Some (backup_openclaw Sample.backed_up);
     Sync.rsync_workspace := None; Sync.rsync_skills := None;
     Sync.now := "2024-01-02T00:00:00+00:00";
     Sync.sync_stderr := "rsync: write failed"; Sync.sync_stdout := EmptyString |}.

(** A configuration with a section of its own and a discord block, for
    an environment that asks for telegram only. *)
Definition custom_config : option doc_file :=
  Some (Doc (JObj
    {[ "meta" := JObj {[ "lastTouchedVersion" := JStr "2026.2.6" ]};
       "channels" := JObj
         {[ "discord" := JObj {[ "token" := JStr "old"; "legacy" := JBool true ]} ]} ]})).

(** A configuration that an AI Gateway setup has left: its provider and
    the default model that points to it, beside a provider of the
    operator's. *)
Definition gateway_config : option doc_file :=
  Some (Doc (JObj
    {[ "models" := JObj
         {[ "providers" := JObj
              {[ "cf-ai-gw-openai" := JObj {[ "api" := JStr "openai-completions" ]};
                 "anthropic" := JObj {[ "api" := JStr "anthropic-messages" ]} ]} ]};
       "agents" := JObj
         {[ "defaults" := JObj
              {[ "model" := JObj {[ "primary" := JStr "cf-ai-gw-openai/gpt-4o" ]} ]} ]} ]})).

(** An AI Gateway setup that routes to Anthropic. *)
Definition override_env : Env :=
  {[ "CF_AI_GATEWAY_MODEL" := "anthropic/claude-sonnet-4-5";
     "CF_AI_GATEWAY_ACCOUNT_ID" := "acct";
     "CF_AI_GATEWAY_GATEWAY_ID" := "gw";
     "CLOUDFLARE_AI_GATEWAY_API_KEY" := "cf-key" ]}.

(** The model variable lacks the provider part. *)
Definition malformed_env : Env :=
  {[ "CF_AI_GATEWAY_MODEL" := "claude-sonnet-4-5";
     "CLOUDFLARE_AI_GATEWAY_API_KEY" := "cf-key" ]}.

(** An engine that prints nothing for what is no string, and a sandbox
    that does all it is asked. *)
Definition mute : Api.Engine :=
  {| Api.render := λ _, EmptyString; Api.type_error := "TypeError" |}.

Definition helpful : Api.Calls :=
  {| Api.gateway_rejects := None; Api.read_store_rejects := None;
     Api.store_logged := true; Api.write_store_rejects := None;
     Api.store_written := true; Api.read_config_rejects := None;
     Api.config_logged := true; Api.write_config_rejects := None;
     Api.config_written := true; Api.find_rejects := None |}.

(** A request that saves a token for the default provider. *)
Definition token_body : gmap string json :=
  {[ "token" := JStr " sk-ant-oat01-new " ]}.

Definition token_request : option json := Some (JObj token_body).

(** Telegram with direct messages open to everyone. *)
Definition open_env : Env :=
  {[ "TELEGRAM_BOT_TOKEN" := "123:abc"; "TELEGRAM_DM_POLICY" := "open" ]}.

End Cases.

(** * Properties *)

(** Membership in a list that is written out. *)
Ltac list_in := rewrite ?elem_of_app, ?elem_of_cons, ?elem_of_nil; naive_solver.

Module Js_facts.
Import Js.

Lemma json_size_elem (es : list json) (e : json) :
  e ∈ es → (json_size e ≤ foldr (λ e n, json_size e + n) 0 es)%nat.
Proof. induction 1; simpl; lia. Qed.

Lemma json_size_lookup (m : gmap string json) k e :
  m !! k = Some e → (json_size e ≤ map_fold (λ _ e n, json_size e + n) 0 m)%nat.
Proof.
  intros H. rewrite <- (insert_delete_id m k e H).
  rewrite map_fold_insert_L; [lia|intros; lia|apply lookup_delete_eq].
Qed.

(** Induction on documents, through arrays and objects. *)
Lemma json_ind' (P : json → Prop) :
  P JNull → (∀ b, P (JBool b)) → (∀ n, P (JNum n)) → (∀ s, P (JStr s)) →
  (∀ es, Forall P es → P (JArr es)) →
  (∀ m, map_Forall (λ _, P) m → P (JObj m)) →
  ∀ j, P j.
Proof.
  intros Hnull Hbool Hnum Hstr Harr Hobj j.
  remember (json_size j) as n eqn:Hn. revert j Hn.
  induction (lt_wf n) as [n _ IH]. intros j ->.
  destruct j as [| | | |es|m]; auto.
  - apply Harr, Forall_forall. intros e He.
    apply (IH (json_size e)); [|done]. simpl.
    pose proof (json_size_elem _ _ He). lia.
  - apply Hobj. intros k e He.
    apply (IH (json_size e)); [|done]. simpl.
    pose proof (json_size_lookup _ _ _ He). lia.
Qed.

(** Writing what was just read gives the document back. *)
Lemma stringify_parse j : stringify (parse j) = j.
Proof.
  induction j as [| | | |es IH|m IH] using json_ind'; try done.
  - cbn [parse stringify]. f_equal.
    induction IH as [|e es He _ IHes]; [done|].
    rewrite !fmap_cons. by rewrite He, IHes.
  - cbn [parse stringify]. f_equal.
    rewrite <- map_fmap_compose. apply map_eq. intros k.
    rewrite lookup_fmap. destruct (m !! k) as [e|] eqn:E; simpl; [|done].
    by rewrite (IH k e E).
Qed.

Lemma stringify_parse_map (m : gmap string json) :
  stringify <$> (parse <$> m) = m.
Proof.
  rewrite <- map_fmap_compose. apply map_eq. intros k.
  rewrite lookup_fmap. destruct (m !! k); simpl; [|done].
  by rewrite stringify_parse.
Qed.

Lemma parse_stringify_parse j : parse (stringify (parse j)) = parse j.
Proof. by rewrite stringify_parse. Qed.

End Js_facts.

(** ** The configuration patch *)

Module Patch_facts.
Import Js Patch Spec Slots Js_facts.

(** *** Slots *)

Lemma lookup_set_slot_eq {A} k (c : option A) m : set_slot k c m !! k = c.
Proof. destruct c; simpl; [apply lookup_insert_eq|apply lookup_delete_eq]. Qed.

Lemma lookup_set_slot_ne {A} k k' (c : option A) m :
  k ≠ k' → set_slot k c m !! k' = m !! k'.
Proof. intros. destruct c; simpl; [by apply lookup_insert_ne|by apply lookup_delete_ne]. Qed.

Lemma set_slot_set_slot {A} k (c c' : option A) m :
  set_slot k c' (set_slot k c m) = set_slot k c' m.
Proof.
  apply map_eq. intros i. destruct (decide (k = i)) as [->|].
  - by rewrite !lookup_set_slot_eq.
  - by rewrite !lookup_set_slot_ne.
Qed.

Lemma set_slot_commute {A} k k' (c c' : option A) m :
  k ≠ k' → set_slot k c (set_slot k' c' m) = set_slot k' c' (set_slot k c m).
Proof.
  intros Hne. apply map_eq. intros i.
  destruct (decide (k = i)) as [->|Hk].
  - by rewrite lookup_set_slot_eq, lookup_set_slot_ne, lookup_set_slot_eq.
  - rewrite (lookup_set_slot_ne k i) by done.
    destruct (decide (k' = i)) as [->|Hk'].
    + by rewrite !lookup_set_slot_eq.
    + by rewrite !lookup_set_slot_ne.
Qed.

Lemma set_slot_id {A} k (m : gmap string A) : set_slot k (m !! k) m = m.
Proof.
  apply map_eq. intros i. destruct (decide (k = i)) as [->|].
  - by rewrite lookup_set_slot_eq.
  - by rewrite lookup_set_slot_ne.
Qed.

Lemma fmap_set_slot {A B} (f : A → B) k c (m : gmap string A) :
  f <$> set_slot k c m = set_slot k (f <$> c) (f <$> m).
Proof. destruct c; simpl; [apply fmap_insert|apply fmap_delete]. Qed.

Lemma apply_keys_frame ts k c m :
  k ∉ ts.*1 → apply_keys ts (set_slot k c m) = set_slot k c <$> apply_keys ts m.
Proof.
  revert m. induction ts as [|[k' T] ts IH]; intros m Hk; simpl; [done|].
  apply not_elem_of_cons in Hk as [Hne Hk]. simpl in Hne.
  rewrite lookup_set_slot_ne by done.
  destruct (T (m !! k')) as [c'|]; simpl; [|done].
  rewrite set_slot_commute by done. by apply IH.
Qed.

Lemma parse_stringify_map (m : gmap string json) :
  parse <$> (stringify <$> (parse <$> m)) = parse <$> m.
Proof. by rewrite stringify_parse_map. Qed.

Lemma apply_keys_idem ts :
  NoDup ts.*1 → Forall (λ kt, Idem kt.2) ts →
  ∀ (jm : gmap string json) m',
    apply_keys ts (parse <$> jm) = Some m' →
    ∃ m'', apply_keys ts (parse <$> (stringify <$> m')) = Some m''
           ∧ stringify <$> m'' = stringify <$> m'.
Proof.
  induction ts as [|[k T] ts IH]; intros Hnd Hid jm m'; simpl.
  { intros [= <-]. exists (parse <$> jm). by rewrite stringify_parse_map. }
  apply NoDup_cons in Hnd as [Hk Hnd]. apply Forall_cons in Hid as [HT Hid].
  simpl in HT.
  destruct (T ((parse <$> jm) !! k)) as [c|] eqn:Ec; simpl; [|done].
  rewrite apply_keys_frame by done.
  destruct (apply_keys ts (parse <$> jm)) as [m1|] eqn:E1; simpl; [|done].
  intros [= <-].
  destruct (IH Hnd Hid jm m1 E1) as (m2 & E2 & Hm2).
  rewrite lookup_fmap in Ec. destruct (HT _ _ Ec) as (c' & Ec' & Hc').
  exists (set_slot k c' m2).
  rewrite (fmap_set_slot stringify k c m1), (fmap_set_slot parse).
  rewrite lookup_set_slot_eq, Ec'. simpl.
  rewrite set_slot_set_slot, apply_keys_frame by done.
  rewrite E2. simpl. split; [done|].
  by rewrite !fmap_set_slot, Hc', Hm2.
Qed.

Lemma keeps_set_prop k v : keeps_op (set_prop k v).
Proof. by intros []. Qed.

Lemma keeps_del_prop k : keeps_op (del_prop k).
Proof. by intros []. Qed.

Lemma skel_set_prop k v b : skel (set_prop k v b) = skel b.
Proof. by destruct b. Qed.

Lemma update_skel base op s r :
  keeps_op op → update base op s = Some r → ∃ b, s = Some b ∧ skel r = skel b.
Proof.
  intros Hop. revert s r. induction base as [|k base IH]; intros [b|] r; simpl; try done.
  - destruct b; try done; intros [= <-]; eexists; split; try done; apply Hop.
  - destruct b; try done; intros (c & Hc & [= <-])%bind_Some; eexists; split; try done.
Qed.

Lemma update_obj k rest op m :
  update (k :: rest) op (Some (VObj m))
  = c ← update rest op (m !! k); Some (VObj (<[k:=c]> m)).
Proof. done. Qed.

Lemma update_here op b : b ≠ VNull → update [] op (Some b) = Some (op b).
Proof. by destruct b. Qed.

Lemma getp_obj k rest m : getp (k :: rest) (Some (VObj m)) = getp rest (m !! k).
Proof. done. Qed.

Lemma or_obj_not_null s : or_obj s ≠ VNull.
Proof. by destruct s as [[]|]; simpl; try case_match. Qed.

Lemma truthy_or_obj s : truthy (Some (or_obj s)) = true.
Proof.
  destruct s as [v|]; [|done]. unfold or_obj.
  by destruct (truthy (Some v)) eqn:E.
Qed.

Lemma skel_not_obj r b :
  skel r = skel b → (∀ m, b ≠ VObj m) → stringify r = stringify b.
Proof.
  destruct b, r; simpl; try done; congruence.
Qed.

Lemma or_obj_parse (j : option json) :
  ∃ d, or_obj (parse <$> j) = parse d.
Proof.
  destruct j as [d|]; [|by exists (JObj ∅)].
  change (parse <$> Some d) with (Some (parse d)). unfold or_obj.
  destruct (truthy (Some (parse d))); [by exists d|by exists (JObj ∅)].
Qed.

Lemma level_idem (F : option value → option value) ts :
  keeps F → NoDup ts.*1 → Forall (λ kt, Idem kt.2) ts →
  (∀ m, F (Some (VObj m)) = VObj <$> apply_keys ts m) →
  ∀ (d : json) r,
    F (Some (parse d)) = Some r →
    ∃ r', F (Some (parse (stringify r))) = Some r' ∧ stringify r' = stringify r.
Proof.
  intros Hk Hnd Hid Hobj d r Hr.
  assert ((∃ jm, d = JObj jm) ∨ ¬ (∃ jm, d = JObj jm)) as [[jm ->]|Hno].
  { destruct d; try (right; by intros [? ?]). left. by eexists. }
  - simpl in Hr. rewrite Hobj in Hr.
    destruct (apply_keys ts (parse <$> jm)) as [m'|] eqn:E; simplify_eq/=.
    destruct (apply_keys_idem ts Hnd Hid jm m' E) as (m'' & E' & Hm).
    exists (VObj m''). rewrite Hobj, E'. simpl. by rewrite Hm.
  - destruct (Hk _ _ Hr) as (b & [= <-] & Hs).
    assert (stringify r = d) as Hd.
    { rewrite <- (stringify_parse d). apply skel_not_obj; [done|].
      intros m Hm. destruct d; simplify_eq/=. apply Hno. by eexists. }
    exists r. by rewrite Hd.
Qed.

Lemma ensure_idem (F : option value → option value) ts :
  keeps F → NoDup ts.*1 → Forall (λ kt, Idem kt.2) ts →
  (∀ m, F (Some (VObj m)) = VObj <$> apply_keys ts m) →
  Idem (λ s, Some <$> F (Some (or_obj s))).
Proof.
  intros Hk Hnd Hid Hobj j x Hx.
  destruct (or_obj_parse j) as [d Hd]. rewrite Hd in Hx.
  destruct (F (Some (parse d))) as [r|] eqn:Hr; simpl in Hx; simplify_eq.
  destruct (level_idem F ts Hk Hnd Hid Hobj d r Hr) as (r' & Hr' & Heq).
  exists (Some r'). split; [|simpl; by rewrite Heq].
  change (parse <$> (stringify <$> Some r)) with (Some (parse (stringify r))).
  assert (or_obj (Some (parse (stringify r))) = parse (stringify r)) as ->; [|by rewrite Hr'].
  destruct (Hk _ _ Hr) as (b & [= <-] & Hs).
  assert (truthy (Some (parse (stringify r))) = true) as Ht; [|unfold or_obj; by rewrite Ht].
  (* the value came out of or_obj, so it is truthy, and so is what is written *)
  assert (truthy (Some (parse d)) = true) as Htd.
  { rewrite <- Hd. apply truthy_or_obj. }
  clear -Hs Htd. destruct d, r; simplify_eq/=; try done.
Qed.

(** *** The statements of the patch as programs of objects *)

#[local] Arguments update : simpl never.
#[local] Arguments getp : simpl never.
#[local] Arguments or_obj : simpl never.

Lemma getp_nil s : getp [] s = Some s.
Proof. done. Qed.

Lemma update_or_obj op s : update [] op (Some (or_obj s)) = Some (op (or_obj s)).
Proof. apply update_here, or_obj_not_null. Qed.

Lemma update_here_obj op m : update [] op (Some (VObj m)) = Some (op (VObj m)).
Proof. done. Qed.

Ltac lens_simpl :=
  repeat first
    [ rewrite update_obj | rewrite getp_obj | rewrite getp_nil
    | rewrite update_or_obj | rewrite update_here_obj
    | rewrite lookup_insert_eq | rewrite lookup_insert_ne by done
    | rewrite insert_insert_eq
    | progress simpl ].

Ltac lens_case :=
  match goal with
  | |- context [getp ?p (Some ?x)] =>
      destruct (getp p (Some x)) eqn:?; simpl; [|done]
  | |- context [update ?b ?op (Some ?x)] =>
      destruct (update b op (Some x)) eqn:?; simpl; [|done]
  end.

Lemma endpoints_lens m :
  endpoints_prog (Some (VObj m)) = VObj <$> apply_keys endpoints_keys m.
Proof.
  unfold endpoints_prog, endpoints_keys, const. lens_simpl. done.
Qed.

Ltac lens := repeat (lens_simpl; try lens_case); try done.

Lemma http_lens m :
  http_prog (Some (VObj m)) = VObj <$> apply_keys http_keys m.
Proof.
  unfold http_prog, http_keys, ensure, endpoints_prog. lens.
Qed.

Lemma auth_lens env m :
  auth_prog env (Some (VObj m))
  = VObj <$> apply_keys
      [("token", const (VStr (getenv env "OPENCLAW_GATEWAY_TOKEN")))] m.
Proof. unfold auth_prog, const. lens. Qed.

Lemma control_lens m :
  control_prog (Some (VObj m))
  = VObj <$> apply_keys [("allowInsecureAuth", const (VBool true))] m.
Proof. unfold control_prog, const. lens. Qed.

Lemma gateway_lens env m :
  gateway_prog env (Some (VObj m)) = VObj <$> apply_keys (gateway_keys env) m.
Proof.
  unfold gateway_prog, gateway_keys, ensure, const, http_prog, auth_prog, control_prog.
  destruct (env_set env "OPENCLAW_GATEWAY_TOKEN");
    destruct (String.eqb (getenv env "OPENCLAW_DEV_MODE") "true"); lens.
Qed.

Ltac keeps_step :=
  match goal with
  | H : (_ ≫= _) = Some _ |- _ => apply bind_Some in H as (? & ? & H)
  | H : (if ?b then _ else _) = Some _ |- _ => destruct b
  | H : update _ _ _ = Some _ |- _ =>
      apply update_skel in H as (? & ? & ?);
        [|first [apply keeps_set_prop | apply keeps_del_prop]]
  | H : getp _ _ = Some _ |- _ => clear H
  end.

Ltac keeps_tac :=
  intros ? ? ?; repeat keeps_step; simplify_eq;
    (eexists; split; [done|congruence]).

Lemma endpoints_keeps : keeps endpoints_prog.
Proof. unfold endpoints_prog. keeps_tac. Qed.

Lemma http_keeps : keeps http_prog.
Proof. unfold http_prog. keeps_tac. Qed.

Lemma auth_keeps env : keeps (auth_prog env).
Proof. unfold auth_prog. keeps_tac. Qed.

Lemma control_keeps : keeps control_prog.
Proof. unfold control_prog. keeps_tac. Qed.

Lemma gateway_keeps env : keeps (gateway_prog env).
Proof. unfold gateway_prog. keeps_tac. Qed.

Lemma const_idem v : Idem (const v).
Proof. intros j x [= <-]. by exists (Some v). Qed.

Lemma endpoints_idem : Idem (ensure endpoints_prog).
Proof.
  apply (ensure_idem _ endpoints_keys);
    [apply endpoints_keeps| |repeat constructor; apply const_idem|apply endpoints_lens].
  cbn. repeat constructor; set_solver.
Qed.

Ltac lens_head x :=
  lazymatch x with
  | Some _ => fail
  | None => fail
  | mbind _ _ => fail
  | fmap _ _ => fail
  | _ => destruct x eqn:?; simpl; try done
  end.

Ltac lens_bind :=
  match goal with
  | |- context [mbind _ ?x] => lens_head x
  | |- context [@fmap option _ _ _ _ ?x] => lens_head x
  end.

Lemma gateway_block_lens env m :
  gateway_block env (VObj m)
  = g ← gateway_prog env (Some (or_obj (m !! "gateway")));
    Some (VObj (<["channels" := or_obj (m !! "channels")]> (<["gateway" := g]> m))).
Proof.
  unfold gateway_block, gateway_prog, assign_or_obj, assign, read,
    port_value, proxies_value.
  destruct (env_set env "OPENCLAW_GATEWAY_TOKEN");
    destruct (String.eqb (getenv env "OPENCLAW_DEV_MODE") "true");
    repeat (lens_simpl; try lens_case).
  all: by rewrite (insert_insert_ne _ "gateway" "channels"), insert_insert_eq.
Qed.

Ltac lens_if :=
  match goal with
  | |- context [if ?b then _ else _] =>
      lazymatch b with
      | true => fail
      | false => fail
      | _ => destruct b eqn:?; simpl
      end
  end.

Lemma set_slot_same {A} k (c : option A) m : m !! k = c → set_slot k c m = m.
Proof. intros <-. apply set_slot_id. Qed.

Lemma stale_cleanup_lens env m :
  stale_cleanup env (VObj m)
  = if cleaning env then
      mo ← clean_models (m !! "models");
      a ← clean_agents (m !! "agents");
      Some (VObj (set_slot "agents" a (set_slot "models" mo m)))
    else Some (VObj m).
Proof.
  unfold stale_cleanup, cleaning, clean_models, clean_agents, remove, read.
  destruct (negb _ && negb _); [|done].
  lens_simpl.
  assert (∀ M : gmap string value, M !! "agents" = m !! "agents" →
    (let dm := opt_member (opt_member (opt_member (m !! "agents") "defaults") "model")
                 "primary" in
     if truthy dm then
       match dm with
       | Some (VStr s) =>
           if starts_with stale_prefix s
           then update ["agents"; "defaults"] (del_prop "model") (Some (VObj M))
           else Some (VObj M)
       | _ => None
       end
     else Some (VObj M))
    = (let dm := opt_member (opt_member (opt_member (m !! "agents") "defaults") "model")
                   "primary" in
       if truthy dm then
         match dm with
         | Some (VStr t) =>
             if starts_with stale_prefix t
             then Some <$> update ["defaults"] (del_prop "model") (m !! "agents")
             else Some (m !! "agents")
         | _ => None
         end
       else Some (m !! "agents"))
      ≫= λ a, Some (VObj (set_slot "agents" a M))) as Hagents.
  { intros M HM. simpl.
    destruct (truthy _); simpl; [|by rewrite set_slot_same].
    destruct (opt_member _ "primary") as [[| | |t| |]|]; try done.
    destruct (starts_with stale_prefix t); simpl; [|by rewrite set_slot_same].
    rewrite update_obj, HM.
    by destruct (update ["defaults"] (del_prop "model") (m !! "agents")). }
  simpl in Hagents.
  destruct (truthy (m !! "models")) eqn:Etm; simpl.
  - destruct (getp ["providers"] (m !! "models")) as [providers|] eqn:Ep; simpl; [|done].
    destruct (truthy providers) eqn:Etp.
    + lens_simpl.
      destruct (update ["providers"] drop_stale_providers (m !! "models")) as [c|];
        simpl; [|done].
      lens_simpl. rewrite <- Hagents by (by rewrite lookup_insert_ne).
      by lens_simpl.
    + lens_simpl. rewrite set_slot_id, <- Hagents by done. by lens_simpl.
  - lens_simpl. rewrite set_slot_id, <- Hagents by done. by lens_simpl.
Qed.

Lemma model_override_lens env m :
  model_override env (VObj m)
  = match overriding env with
    | Some o =>
        mo ← models_prog o (Some (or_obj (m !! "models")));
        a ← agents_prog o (Some (or_obj (m !! "agents")));
        Some (VObj (<["agents" := a]> (<["models" := mo]> m)))
    | None => Some (VObj m)
    end.
Proof.
  unfold model_override, overriding, models_prog, agents_prog, assign_or_obj, assign, read.
  destruct (env_set env "CF_AI_GATEWAY_MODEL"); [|done].
  destruct (gateway_override env) as [o|]; [|done].
  by repeat (lens_simpl; try lens_case).
Qed.

Lemma channel_blocks_lens env (M : gmap string value) c0 :
  M !! "channels" = Some c0 →
  (c ← telegram_block env (VObj M); c ← discord_block env c; slack_block env c)
  = c ← channels_prog env (Some c0); Some (VObj (<["channels" := c]> M)).
Proof.
  intros HM.
  unfold telegram_block, discord_block, slack_block, channels_prog, assign, read.
  destruct (env_set env "TELEGRAM_BOT_TOKEN");
    destruct (env_set env "DISCORD_BOT_TOKEN");
    destruct (env_set env "SLACK_BOT_TOKEN" && env_set env "SLACK_APP_TOKEN");
    repeat (lens_simpl; rewrite ?HM; try lens_case); try done.
  all: by rewrite insert_id.
Qed.

Lemma channels_lens env m :
  channels_prog env (Some (VObj m)) = VObj <$> apply_keys (channels_keys env) m.
Proof.
  unfold channels_prog, channels_keys, telegram_slot, discord_slot, slack_slot.
  destruct (env_set env "TELEGRAM_BOT_TOKEN");
    destruct (env_set env "DISCORD_BOT_TOKEN");
    destruct (env_set env "SLACK_BOT_TOKEN" && env_set env "SLACK_APP_TOKEN");
    by repeat (lens_simpl; try lens_case).
Qed.

Lemma channels_keeps env : keeps (channels_prog env).
Proof.
  unfold channels_prog. intros s r H.
  destruct s as [b|].
  2:{ destruct (env_set env "TELEGRAM_BOT_TOKEN"); simpl in H; done. }
  repeat keeps_step; simplify_eq; (eexists; split; [done|congruence]).
Qed.

Lemma models_lens o m :
  models_prog o (Some (VObj m))
  = VObj <$> apply_keys [("providers", ensure (providers_prog o))] m.
Proof. unfold models_prog, ensure, providers_prog. lens. Qed.

Lemma providers_lens o m :
  providers_prog o (Some (VObj m))
  = VObj <$> apply_keys [(providerName o, const (provider_entry o))] m.
Proof. unfold providers_prog, const. lens. Qed.

Lemma agents_lens o m :
  agents_prog o (Some (VObj m))
  = VObj <$> apply_keys [("defaults", ensure (defaults_prog o))] m.
Proof. unfold agents_prog, ensure, defaults_prog. lens. Qed.

Lemma defaults_lens o m :
  defaults_prog o (Some (VObj m))
  = VObj <$> apply_keys [("model", const (default_model o))] m.
Proof. unfold defaults_prog, const. lens. Qed.

Lemma models_keeps o : keeps (models_prog o).
Proof. unfold models_prog. keeps_tac. Qed.
Lemma providers_keeps o : keeps (providers_prog o).
Proof. unfold providers_prog. keeps_tac. Qed.
Lemma agents_keeps o : keeps (agents_prog o).
Proof. unfold agents_prog. keeps_tac. Qed.
Lemma defaults_keeps o : keeps (defaults_prog o).
Proof. unfold defaults_prog. keeps_tac. Qed.

(** The whole patch on an object. *)
Ltac lookups :=
  repeat first
    [ rewrite lookup_insert_eq | rewrite lookup_insert_ne by done
    | rewrite lookup_set_slot_eq | rewrite lookup_set_slot_ne by done ].

Ltac same_map :=
  apply map_eq; intros i;
  destruct (decide (i = "gateway")) as [->|];
    [by lookups|];
  destruct (decide (i = "channels")) as [->|];
    [by lookups|];
  destruct (decide (i = "models")) as [->|];
    [by lookups|];
  destruct (decide (i = "agents")) as [->|];
    [by lookups|];
  by lookups.

Lemma patch_config_lens env m :
  patch_config env (VObj m) = VObj <$> apply_keys (root_keys env) m.
Proof.
  unfold patch_config, root_keys, apply_keys, models_slot, agents_slot, ensure.
  rewrite gateway_block_lens.
  destruct (gateway_prog env _) as [g|]; simpl; [|done].
  rewrite stale_cleanup_lens. lookups.
  assert (∀ (M : gmap string value),
    M !! "channels" = Some (or_obj (m !! "channels")) →
    (config1 ← telegram_block env (VObj M);
     config2 ← discord_block env config1; slack_block env config2)
    = c ← channels_prog env (Some (or_obj (m !! "channels")));
      Some (VObj (<["channels" := c]> M))) as Hch.
  { intros M HM. by apply channel_blocks_lens. }
  destruct (channels_prog env (Some (or_obj (m !! "channels")))) as [c|];
    simpl; lookups;
    destruct (cleaning env); destruct (overriding env) as [o|] eqn:Eo; simpl;
    repeat (first [ rewrite model_override_lens, ?Eo
                  | rewrite Hch by (by lookups)
                  | lens_bind ];
            simpl; lookups; try done).
  all: simplify_eq; do 2 f_equal; same_map.
Qed.

Lemma keeps_drop_stale : keeps_op drop_stale_providers.
Proof. by intros []. Qed.

Ltac skel_step :=
  match goal with
  | H : (_ ≫= _) = Some _ |- _ => apply bind_Some in H as (? & ? & H)
  | H : (_ <$> _) = Some _ |- _ => apply fmap_Some in H as (? & H & ?)
  | H : (if ?b then _ else _) = Some _ |- _ => destruct b
  | H : match ?x with _ => _ end = Some _ |- _ => destruct x
  | H : update _ _ _ = Some _ |- _ =>
      apply update_skel in H as (? & ? & ?);
        [|first [apply keeps_set_prop | apply keeps_del_prop | apply keeps_drop_stale]]
  | H : getp _ _ = Some _ |- _ => clear H
  | H : read _ _ = Some _ |- _ => clear H
  end.

Ltac skel_tac := intros ?; repeat skel_step; simplify_eq; congruence.

Lemma gateway_block_skel env c r : gateway_block env c = Some r → skel r = skel c.
Proof. unfold gateway_block, assign_or_obj, assign. skel_tac. Qed.

Lemma stale_cleanup_skel env c r : stale_cleanup env c = Some r → skel r = skel c.
Proof. unfold stale_cleanup, remove. skel_tac. Qed.

Lemma model_override_skel env c r : model_override env c = Some r → skel r = skel c.
Proof. unfold model_override, assign_or_obj, assign. skel_tac. Qed.

Lemma telegram_block_skel env c r : telegram_block env c = Some r → skel r = skel c.
Proof. unfold telegram_block, assign. skel_tac. Qed.

Lemma discord_block_skel env c r : discord_block env c = Some r → skel r = skel c.
Proof. unfold discord_block, assign. skel_tac. Qed.

Lemma slack_block_skel env c r : slack_block env c = Some r → skel r = skel c.
Proof. unfold slack_block, assign. skel_tac. Qed.

Lemma patch_config_keeps env : keeps (λ s, s ≫= patch_config env).
Proof.
  intros [c|] r H; [|done]. simpl in H. exists c. split; [done|].
  unfold patch_config in H.
  repeat (apply bind_Some in H as (? & ? & H)).
  repeat match goal with
  | H : gateway_block _ _ = Some _ |- _ => apply gateway_block_skel in H
  | H : stale_cleanup _ _ = Some _ |- _ => apply stale_cleanup_skel in H
  | H : model_override _ _ = Some _ |- _ => apply model_override_skel in H
  | H : telegram_block _ _ = Some _ |- _ => apply telegram_block_skel in H
  | H : discord_block _ _ = Some _ |- _ => apply discord_block_skel in H
  | H : slack_block _ _ = Some _ |- _ => apply slack_block_skel in H
  end. congruence.
Qed.

#[local] Arguments truthy : simpl never.

(** *** [filterKeys] *)

Lemma filterKeys_obj M valid :
  (filterKeys (VObj M) valid).1 = filter (λ kv, kv.1 ∈ valid) M.
Proof. unfold filterKeys. simpl. by rewrite map_filter_alt. Qed.

Lemma filter_entries_fmap (valid : gset string) (l : list (string * json)) :
  list_to_map (filter (λ kv, kv.1 ∈ valid) (prod_map id parse <$> l))
  =@{gmap string value}
  parse <$> list_to_map (filter (λ kv, kv.1 ∈ valid) l).
Proof.
  induction l as [|[k e] l IH]; simpl.
  - by rewrite fmap_empty.
  - rewrite !filter_cons. simpl. destruct (decide (k ∈ valid)); simpl; [|done].
    rewrite fmap_insert. f_equal. exact IH.
Qed.

Lemma filterKeys_parse d valid :
  ∃ jF : gmap string json, (filterKeys (parse d) valid).1 = parse <$> jF.
Proof.
  destruct d as [| | |s|es|m]; simpl;
    try (exists ∅; by rewrite fmap_empty).
  - eexists.
    rewrite <- (filter_entries_fmap valid
      (imap (λ i c, (index_key i, JStr (String c EmptyString))) (list_ascii_of_string s))).
    by rewrite fmap_imap.
  - eexists. rewrite map_to_list_empty, app_nil_r.
    rewrite <- (filter_entries_fmap valid (imap (λ i e, (index_key i, e)) es)).
    by rewrite fmap_imap, imap_fmap.
  - eexists. rewrite <- map_filter_alt.
    rewrite map_filter_fmap. f_equal.
Qed.

Lemma filterKeys_valid d valid : valid_keys valid (filterKeys d valid).1.
Proof.
  intros k [v Hv]. unfold filterKeys in Hv. simpl in Hv.
  apply elem_of_list_to_map_2 in Hv. by apply list_elem_of_filter in Hv as [? _].
Qed.

Lemma filterKeys_id M valid :
  valid_keys valid M → (filterKeys (VObj M) valid).1 = M.
Proof.
  intros HM. rewrite filterKeys_obj. apply map_filter_id.
  intros k v Hk. simpl. apply HM. by eexists.
Qed.

Lemma valid_keys_insert valid k v M :
  k ∈ valid → valid_keys valid M → valid_keys valid (<[k:=v]> M).
Proof.
  intros Hk HM i. destruct (decide (k = i)) as [<-|]; [done|].
  rewrite lookup_insert_ne by done. apply HM.
Qed.

Lemma valid_keys_reparse valid M :
  valid_keys valid M → valid_keys valid (parse <$> (stringify <$> M)).
Proof.
  intros HM i. rewrite !lookup_fmap. intros [v Hv].
  apply HM. destruct (M !! i); [by eexists|done].
Qed.

Lemma clean_map_parse (jm : gmap string json) : clean_map (parse <$> jm).
Proof. apply parse_stringify_map. Qed.

Lemma clean_map_insert k v M : clean v → clean_map M → clean_map (<[k:=v]> M).
Proof. unfold clean, clean_map. intros Hv HM. by rewrite !fmap_insert, Hv, HM. Qed.

Lemma clean_strs (l : list string) : clean (VArr (VStr <$> l) ∅).
Proof.
  unfold clean. simpl. f_equal. rewrite <- !list_fmap_compose.
  by apply list_fmap_ext.
Qed.

(** *** Idempotence, slot by slot *)

Lemma reparse (j : option json) :
  parse <$> (stringify <$> (parse <$> j)) = parse <$> j.
Proof. destruct j; simpl; [|done]. by rewrite stringify_parse. Qed.

Lemma restringify (x : option value) :
  stringify <$> (parse <$> (stringify <$> x)) = stringify <$> x.
Proof. destruct x; simpl; [|done]. by rewrite stringify_parse. Qed.

(** A second run that leaves its input alone. *)
Lemma idem_fix (T : Slot) x :
  T (parse <$> (stringify <$> x)) = Some (parse <$> (stringify <$> x)) →
  ∃ x', T (parse <$> (stringify <$> x)) = Some x'
        ∧ stringify <$> x' = stringify <$> x.
Proof. intros H. eexists. split; [done|]. apply restringify. Qed.

(** A first run that left its input alone. *)
Lemma idem_same (T : Slot) (j : option json) :
  T (parse <$> j) = Some (parse <$> j) →
  ∃ x', T (parse <$> (stringify <$> (parse <$> j))) = Some x'
        ∧ stringify <$> x' = stringify <$> (parse <$> j).
Proof. intros H. apply idem_fix. by rewrite reparse. Qed.

Lemma keep_idem : Idem keep.
Proof. intros j x [= <-]. by apply idem_same. Qed.

Lemma nodup_keys (l : list string) : bool_decide (NoDup l) = true → NoDup l.
Proof. apply bool_decide_eq_true_1. Qed.

Lemma auth_idem env : Idem (ensure (auth_prog env)).
Proof.
  eapply ensure_idem; [apply auth_keeps| | |apply auth_lens].
  - by apply nodup_keys.
  - repeat constructor. apply const_idem.
Qed.

Lemma control_idem : Idem (ensure control_prog).
Proof.
  eapply ensure_idem; [apply control_keeps| | |apply control_lens].
  - by apply nodup_keys.
  - repeat constructor. apply const_idem.
Qed.

Lemma http_idem : Idem (ensure http_prog).
Proof.
  eapply ensure_idem; [apply http_keeps| | |apply http_lens].
  - by apply nodup_keys.
  - repeat constructor. apply endpoints_idem.
Qed.

Lemma gateway_idem env : Idem (ensure (gateway_prog env)).
Proof.
  eapply ensure_idem; [apply gateway_keeps| | |apply gateway_lens].
  - unfold gateway_keys.
    destruct (env_set env "OPENCLAW_GATEWAY_TOKEN");
      destruct (String.eqb (getenv env "OPENCLAW_DEV_MODE") "true");
      by apply nodup_keys.
  - unfold gateway_keys.
    destruct (env_set env "OPENCLAW_GATEWAY_TOKEN");
      destruct (String.eqb (getenv env "OPENCLAW_DEV_MODE") "true");
      repeat constructor;
      first [apply const_idem|apply auth_idem|apply control_idem|apply http_idem].
Qed.

Lemma providers_idem o : Idem (ensure (providers_prog o)).
Proof.
  eapply ensure_idem; [apply providers_keeps| | |apply providers_lens].
  - repeat constructor; set_solver.
  - repeat constructor. apply const_idem.
Qed.

Lemma models_idem o : Idem (ensure (models_prog o)).
Proof.
  eapply ensure_idem; [apply models_keeps| | |apply models_lens].
  - by apply nodup_keys.
  - repeat constructor. apply providers_idem.
Qed.

Lemma defaults_idem o : Idem (ensure (defaults_prog o)).
Proof.
  eapply ensure_idem; [apply defaults_keeps| | |apply defaults_lens].
  - by apply nodup_keys.
  - repeat constructor. apply const_idem.
Qed.

Lemma agents_idem o : Idem (ensure (agents_prog o)).
Proof.
  eapply ensure_idem; [apply agents_keeps| | |apply agents_lens].
  - by apply nodup_keys.
  - repeat constructor. apply defaults_idem.
Qed.

Lemma idem_ext (T T' : Slot) : (∀ s, T' s = T s) → Idem T → Idem T'.
Proof.
  intros HT Hid j x. rewrite HT. intros Hx.
  destruct (Hid j x Hx) as (x' & ? & ?). exists x'. by rewrite HT.
Qed.

(** A slot that acts key by key on an object and leaves anything else
    alone. *)
Lemma slot_level_idem (T : Slot) ts :
  NoDup ts.*1 → Forall (λ kt, Idem kt.2) ts →
  (∀ m, T (Some (VObj m)) = (λ M, Some (VObj M)) <$> apply_keys ts m) →
  (∀ j x, (∀ jm, j ≠ Some (JObj jm)) → T (parse <$> j) = Some x → x = parse <$> j) →
  Idem T.
Proof.
  intros Hnd Hid Hobj Hother j x Hx.
  assert ((∃ jm, j = Some (JObj jm)) ∨ (∀ jm, j ≠ Some (JObj jm))) as [[jm ->]|Hno].
  { destruct j as [[]|]; try (by right); left; by eexists. }
  - simpl in Hx. rewrite Hobj in Hx.
    destruct (apply_keys ts (parse <$> jm)) as [m'|] eqn:E; simplify_eq/=.
    destruct (apply_keys_idem ts Hnd Hid jm m' E) as (m'' & E' & Hm).
    exists (Some (VObj m'')). rewrite Hobj, E'. simpl. by rewrite Hm.
  - pose proof (Hother j x Hno Hx) as ->. by apply idem_same.
Qed.

Lemma drop_stale_parse d : ∃ d', drop_stale_providers (parse d) = parse d'.
Proof.
  destruct d as [|b|n|s|es|m].
  - by exists JNull.
  - by exists (JBool b).
  - by exists (JNum n).
  - by exists (JStr s).
  - exists (JArr es). simpl. by rewrite map_filter_empty.
  - exists (JObj (filter (λ kv, starts_with stale_prefix kv.1 = false) m)).
    simpl. by rewrite map_filter_fmap.
Qed.

Lemma drop_stale_twice v :
  drop_stale_providers (drop_stale_providers v) = drop_stale_providers v.
Proof.
  destruct v; simpl; try done; f_equal;
    apply map_filter_id; by intros k v' [_ ?]%map_lookup_filter_Some.
Qed.

Lemma truthy_drop_stale v :
  truthy (Some (drop_stale_providers v)) = truthy (Some v).
Proof. by destruct v. Qed.

Lemma drop_idem : Idem drop_slot.
Proof.
  intros j x Hx. destruct (truthy (parse <$> j)) eqn:Et.
  - unfold drop_slot in *. rewrite Et in Hx. simplify_eq.
    destruct j as [d|]; [|done]. simpl in Et |- *.
    destruct (drop_stale_parse d) as [d' Hd']. rewrite Hd', stringify_parse.
    eexists. split; [done|]. rewrite <- Hd', truthy_drop_stale, Et. simpl.
    by rewrite drop_stale_twice, Hd', stringify_parse.
  - assert (x = parse <$> j) as ->.
    { unfold drop_slot in Hx. rewrite Et in Hx. congruence. }
    apply idem_same. unfold drop_slot. by rewrite Et.
Qed.

Lemma prop_parse_other k d : (∀ jm, d ≠ JObj jm) → prop k (parse d) = None.
Proof. destruct d; simpl; try done. intros H. by destruct (H m). Qed.

Lemma getp_truthy k rest b :
  truthy (Some b) = true → getp (k :: rest) (Some b) = getp rest (prop k b).
Proof. by destruct b. Qed.

Lemma clean_models_idem : Idem clean_models.
Proof.
  apply (slot_level_idem _ [("providers", drop_slot)]).
  - by apply nodup_keys.
  - repeat constructor. apply drop_idem.
  - intros m. unfold clean_models, drop_slot. simpl. lens_simpl.
    destruct (truthy (m !! "providers")) eqn:Et; [|by rewrite set_slot_id].
    destruct (m !! "providers") as [v|]; [|done].
    rewrite update_here by (by destruct v). done.
  - intros j x Hno. unfold clean_models.
    destruct (truthy (parse <$> j)) eqn:Et; [|congruence].
    destruct j as [d|]; [|done]. simpl in Et |- *.
    rewrite getp_truthy, prop_parse_other by (done || (intros jm ->; by destruct (Hno jm))).
    simpl. congruence.
Qed.

Lemma opt_member_parse (j : option json) k v :
  opt_member (parse <$> j) k = Some v →
  ∃ m e, j = Some (JObj m) ∧ m !! k = Some e ∧ v = parse e.
Proof.
  destruct j as [[| | | |es|m]|]; simpl; try done.
  rewrite lookup_fmap. destruct (m !! k) as [e|] eqn:E; simpl; [|done].
  intros [= <-]. by exists m, e.
Qed.

Lemma clean_agents_idem : Idem clean_agents.
Proof.
  intros j x Hx.
  assert (x = parse <$> j
          ∨ ∃ m dm, j = Some (JObj m)
              ∧ x = Some (VObj (<["defaults" := VObj (delete "model" (parse <$> dm))]>
                                  (parse <$> m))))
    as [->|(m & dm & -> & ->)].
  { unfold clean_agents in Hx.
    destruct (truthy _) eqn:Et; [|left; congruence].
    destruct (opt_member (parse <$> j) "defaults") as [dv|] eqn:E1; [|done].
    apply opt_member_parse in E1 as (m & e & -> & Hm & ->).
    change (Some (parse e)) with (parse <$> Some e) in *.
    destruct (opt_member (parse <$> Some e) "model") as [mv|] eqn:E2; [|done].
    apply opt_member_parse in E2 as (dm & e' & [= ->] & Hdm & ->).
    destruct (opt_member (Some (parse e')) "primary") as [[| | |t| |]|]; try done.
    destruct (starts_with stale_prefix t); [|left; congruence].
    right. exists m, dm. split; [done|].
    simpl in Hx. rewrite update_obj, lookup_fmap, Hm in Hx. simpl in Hx.
    congruence. }
  - by apply (idem_same clean_agents).
  - apply (idem_fix clean_agents). unfold clean_agents. simpl.
    rewrite !lookup_fmap, lookup_insert_eq. simpl.
    by rewrite !lookup_fmap, lookup_delete_eq.
Qed.

Lemma cleaning_not_overriding env : cleaning env = true → overriding env = None.
Proof.
  unfold cleaning, overriding.
  by destruct (env_set env "CF_AI_GATEWAY_MODEL").
Qed.

Lemma models_slot_idem env : Idem (models_slot env).
Proof.
  unfold models_slot. destruct (cleaning env) eqn:Ec.
  - rewrite (cleaning_not_overriding env Ec).
    apply (idem_ext clean_models); [|apply clean_models_idem].
    intros s. by destruct (clean_models s).
  - destruct (overriding env) as [o|].
    + apply (idem_ext (ensure (models_prog o))); [done|apply models_idem].
    + apply (idem_ext keep); [done|apply keep_idem].
Qed.

Lemma agents_slot_idem env : Idem (agents_slot env).
Proof.
  unfold agents_slot. destruct (cleaning env) eqn:Ec.
  - rewrite (cleaning_not_overriding env Ec).
    apply (idem_ext clean_agents); [|apply clean_agents_idem].
    intros s. by destruct (clean_agents s).
  - destruct (overriding env) as [o|].
    + apply (idem_ext (ensure (agents_prog o))); [done|apply agents_idem].
    + apply (idem_ext keep); [done|apply keep_idem].
Qed.

(** *** Channel entries *)

Lemma truthy_policy_of pol cur : truthy (policy_of pol cur) = true.
Proof.
  unfold policy_of. simpl.
  by destruct (truthy match pol with Some p => Some (VStr p) | None => cur end) eqn:E.
Qed.

Lemma policy_of_twice pol cur : policy_of pol (policy_of pol cur) = policy_of pol cur.
Proof.
  destruct pol as [p|]; [done|].
  unfold policy_of at 1. by rewrite truthy_policy_of.
Qed.

Lemma allow_of_twice allow open cur :
  allow_of allow open (allow_of allow open cur) = allow_of allow open cur.
Proof.
  destruct allow as [a|]; [done|]. simpl.
  destruct open; simpl; [|done].
  by destruct (truthy cur) eqn:E; simpl; [rewrite E|].
Qed.

Lemma overlay_policy pk pol allow M :
  pk ≠ "allowFrom" → policy_overlay pk pol allow M !! pk = policy_of pol (M !! pk).
Proof. intros. unfold policy_overlay. by lookups. Qed.

Lemma overlay_allow pk pol allow M :
  policy_overlay pk pol allow M !! "allowFrom"
  = allow_of allow (is_str "open" (policy_of pol (M !! pk))) (M !! "allowFrom").
Proof. unfold policy_overlay. by lookups. Qed.

Lemma overlay_other pk pol allow M k :
  k ≠ pk → k ≠ "allowFrom" → policy_overlay pk pol allow M !! k = M !! k.
Proof. intros. unfold policy_overlay. by lookups. Qed.

Lemma overlay_twice pk pol allow M :
  pk ≠ "allowFrom" →
  policy_overlay pk pol allow (policy_overlay pk pol allow M) = policy_overlay pk pol allow M.
Proof.
  intros Hpk. apply map_eq. intros i.
  destruct (decide (i = "allowFrom")) as [->|].
  { by rewrite overlay_allow, overlay_policy, policy_of_twice, overlay_allow,
      allow_of_twice. }
  destruct (decide (i = pk)) as [->|].
  { by rewrite overlay_policy, overlay_policy, policy_of_twice. }
  by rewrite !overlay_other.
Qed.

Lemma valid_keys_set_slot valid k c M :
  k ∈ valid → valid_keys valid M → valid_keys valid (set_slot k c M).
Proof.
  intros Hk HM i. destruct (decide (k = i)) as [<-|]; [done|].
  rewrite lookup_set_slot_ne by done. apply HM.
Qed.

Lemma overlay_valid valid pk pol allow M :
  pk ∈ valid → "allowFrom" ∈ valid → valid_keys valid M →
  valid_keys valid (policy_overlay pk pol allow M).
Proof. intros. unfold policy_overlay. by repeat apply valid_keys_set_slot. Qed.

Lemma clean_map_lookup M k v : clean_map M → M !! k = Some v → clean v.
Proof.
  unfold clean_map, clean. intros HM Hv.
  apply (f_equal (λ m, m !! k)) in HM. rewrite !lookup_fmap, Hv in HM.
  simpl in HM. congruence.
Qed.

Lemma clean_map_set_slot k c M :
  (∀ v, c = Some v → clean v) → clean_map M → clean_map (set_slot k c M).
Proof.
  intros Hc HM. unfold clean_map. rewrite !fmap_set_slot. rewrite HM. f_equal.
  destruct c as [v|]; [|done]. simpl. f_equal. by apply Hc.
Qed.

Lemma overlay_clean pk pol allow M :
  (∀ a, allow = Some a → clean a) → clean_map M → clean_map (policy_overlay pk pol allow M).
Proof.
  intros Ha HM. unfold policy_overlay. apply clean_map_set_slot.
  - intros v. unfold allow_of. destruct allow as [a|]; [intros [= <-]; by apply Ha|].
    destruct (_ && _); [by intros [= <-]|]. by apply clean_map_lookup.
  - apply clean_map_set_slot; [|done].
    intros v. unfold policy_of. destruct pol as [p|].
    + destruct (truthy _); by intros [= <-].
    + destruct (truthy _); [by apply clean_map_lookup|by intros [= <-]].
Qed.

Lemma or_obj_obj m : or_obj (Some (VObj m)) = VObj m.
Proof. done. Qed.

Lemma or_obj_twice s : or_obj (Some (or_obj s)) = or_obj s.
Proof. unfold or_obj at 1. by rewrite truthy_or_obj. Qed.

Ltac overlay_cases :=
  repeat (simpl; lookups;
          match goal with
          | |- context [truthy ?x] => destruct (truthy x) eqn:?
          end);
  simpl; lookups;
  repeat (lens_if; lookups);
  rewrite ?insert_insert_eq;
  rewrite ?set_slot_same by (by lookups);
  try done.

Lemma telegram_entry_overlay env cur :
  telegram_entry env cur
  = policy_overlay "dmPolicy" (telegram_policy env) (telegram_allow env)
      (<["enabled" := VBool true]>
         (<["botToken" := VStr (getenv env "TELEGRAM_BOT_TOKEN")]>
            (filterKeys (or_obj cur) VALID_TELEGRAM_KEYS).1)).
Proof.
  unfold telegram_entry, policy_overlay, policy_of, allow_of, telegram_policy, telegram_allow.
  generalize (filterKeys (or_obj cur) VALID_TELEGRAM_KEYS).1. intros F.
  destruct (env_set env "TELEGRAM_DM_POLICY"); destruct (env_set env "TELEGRAM_DM_ALLOW_FROM");
    overlay_cases.
Qed.

Lemma discord_dm_obj env M :
  discord_dm env (Some (VObj M)) = VObj (policy_overlay "policy" (discord_policy env) None M).
Proof.
  unfold discord_dm, policy_overlay, policy_of, allow_of, discord_policy.
  rewrite or_obj_obj.
  destruct (env_set env "DISCORD_DM_POLICY"); overlay_cases.
Qed.

Lemma valid_telegram k :
  k ∈ ["botToken"; "enabled"; "dmPolicy"; "allowFrom"] → k ∈ VALID_TELEGRAM_KEYS.
Proof. rewrite !elem_of_cons, elem_of_nil. intros [->|[->|[->|[->|[]]]]]; by vm_compute. Qed.

Lemma telegram_idem env : Idem (telegram_slot env).
Proof.
  intros j x [= <-].
  set (E := telegram_entry env (parse <$> j)).
  assert (valid_keys VALID_TELEGRAM_KEYS E) as Hvalid.
  { unfold E. rewrite telegram_entry_overlay.
    apply overlay_valid; [apply valid_telegram; list_in..|].
    do 2 (apply valid_keys_insert; [apply valid_telegram; list_in|]).
    apply filterKeys_valid. }
  assert (clean_map E) as Hclean.
  { unfold E. rewrite telegram_entry_overlay.
    destruct (or_obj_parse j) as [d ->].
    destruct (filterKeys_parse d VALID_TELEGRAM_KEYS) as [jF ->].
    apply overlay_clean.
    - unfold telegram_allow. intros a. destruct (env_set _ _); [|done].
      intros [= <-]. apply clean_strs.
    - do 2 (apply clean_map_insert; [done|]). apply clean_map_parse. }
  assert (telegram_entry env (Some (VObj E)) = E) as Hfix.
  { rewrite telegram_entry_overlay, or_obj_obj, filterKeys_id by done.
    unfold E. rewrite telegram_entry_overlay.
    set (F0 := <["enabled" := _]> (<["botToken" := _]> (filterKeys _ _).1)).
    assert (F0 !! "botToken" = Some (VStr (getenv env "TELEGRAM_BOT_TOKEN"))) as Hb
      by (unfold F0; by lookups).
    assert (F0 !! "enabled" = Some (VBool true)) as He by (unfold F0; by lookups).
    clearbody F0.
    rewrite (insert_id _ "botToken") by (by rewrite overlay_other).
    rewrite (insert_id _ "enabled") by (by rewrite overlay_other).
    by rewrite overlay_twice. }
  exists (Some (VObj E)). split; [|done]. simpl.
  unfold clean_map in Hclean. rewrite Hclean. unfold telegram_slot. by rewrite Hfix.
Qed.

Lemma discord_dm_or_obj env s : discord_dm env (Some (or_obj s)) = discord_dm env s.
Proof. unfold discord_dm. by rewrite or_obj_twice. Qed.

Lemma discord_dm_skel env s : skel (discord_dm env s) = skel (or_obj s).
Proof. unfold discord_dm. repeat lens_if; by rewrite ?skel_set_prop. Qed.

Lemma dm_idem env : Idem (dm_slot env).
Proof.
  intros j x [= <-]. rewrite <- discord_dm_or_obj.
  destruct (or_obj_parse j) as [d Hd]. rewrite Hd.
  assert ((∃ jm, d = JObj jm) ∨ ¬ (∃ jm, d = JObj jm)) as [[jm ->]|Hno].
  { destruct d; try (right; by intros [? ?]). left. by eexists. }
  - simpl. rewrite discord_dm_obj.
    assert (clean_map (policy_overlay "policy" (discord_policy env) None (parse <$> jm))) as Hc.
    { apply overlay_clean; [done|apply clean_map_parse]. }
    exists (Some (VObj (policy_overlay "policy" (discord_policy env) None (parse <$> jm)))).
    split; [|done]. simpl. unfold clean_map in Hc. rewrite Hc.
    unfold dm_slot. by rewrite discord_dm_obj, overlay_twice.
  - assert (stringify (discord_dm env (Some (parse d))) = d) as Hs.
    { rewrite <- (stringify_parse d) at 2. apply skel_not_obj.
      - rewrite discord_dm_skel, <- Hd. by rewrite or_obj_twice.
      - intros m Hm. destruct d; simplify_eq/=. apply Hno. by eexists. }
    exists (Some (discord_dm env (Some (parse d)))).
    split; [|done]. simpl. rewrite Hs. unfold dm_slot.
    by rewrite <- discord_dm_or_obj, <- Hd, or_obj_twice.
Qed.

Lemma apply_keys_valid valid ts m M :
  (∀ k, k ∈ ts.*1 → k ∈ valid) → valid_keys valid m →
  apply_keys ts m = Some M → valid_keys valid M.
Proof.
  revert m. induction ts as [|[k T] ts IH]; intros m Hts Hm; simpl.
  { by intros [= <-]. }
  intros (c & _ & HM)%bind_Some. apply (IH (set_slot k c m)); [| |done].
  - intros k' Hk'. apply Hts. simpl. by apply list_elem_of_further.
  - apply valid_keys_set_slot; [|done]. apply Hts. simpl. apply list_elem_of_here.
Qed.

(** A channel entry: the persisted object cut down to the allow-list,
    then overlaid key by key. *)
Lemma entry_idem (valid : gset string) ts (T : Slot) :
  (∀ s, T s = (λ M, Some (VObj M))
                <$> apply_keys ts (filterKeys (or_obj s) valid).1) →
  NoDup ts.*1 → Forall (λ kt, Idem kt.2) ts → (∀ k, k ∈ ts.*1 → k ∈ valid) →
  Idem T.
Proof.
  intros HT Hnd Hid Hts j x. rewrite HT.
  destruct (or_obj_parse j) as [d ->].
  destruct (filterKeys_parse d valid) as [jF HF]. rewrite HF.
  destruct (apply_keys ts (parse <$> jF)) as [M|] eqn:EM; [|done].
  intros [= <-].
  destruct (apply_keys_idem ts Hnd Hid jF M EM) as (M' & EM' & HM').
  exists (Some (VObj M')). split; [|simpl; by rewrite HM'].
  simpl. rewrite HT, or_obj_obj, filterKeys_id, EM'; [done|].
  apply valid_keys_reparse.
  apply (apply_keys_valid valid ts (parse <$> jF)); [done| |done].
  rewrite <- HF. apply filterKeys_valid.
Qed.

Lemma discord_idem env : Idem (discord_slot env).
Proof.
  apply (entry_idem VALID_DISCORD_KEYS (discord_keys env)).
  - intros s. unfold discord_slot, discord_entry, discord_keys, const, dm_slot.
    simpl. by lookups.
  - by apply nodup_keys.
  - repeat constructor; first [apply const_idem|apply dm_idem].
  - intros k. simpl. rewrite !elem_of_cons, elem_of_nil.
    intros [->|[->|[->|[]]]]; by vm_compute.
Qed.

Lemma slack_idem env : Idem (slack_slot env).
Proof.
  apply (entry_idem VALID_SLACK_KEYS (slack_keys env)).
  - intros s. unfold slack_slot, slack_entry, slack_keys, const. simpl. by lookups.
  - by apply nodup_keys.
  - repeat constructor; apply const_idem.
  - intros k. simpl. rewrite !elem_of_cons, elem_of_nil.
    intros [->|[->|[->|[]]]]; by vm_compute.
Qed.

Lemma channels_idem env : Idem (ensure (channels_prog env)).
Proof.
  eapply ensure_idem; [apply channels_keeps| | |apply channels_lens].
  - unfold channels_keys.
    destruct (env_set env "TELEGRAM_BOT_TOKEN");
      destruct (env_set env "DISCORD_BOT_TOKEN");
      destruct (env_set env "SLACK_BOT_TOKEN" && env_set env "SLACK_APP_TOKEN");
      by apply nodup_keys.
  - unfold channels_keys. rewrite !Forall_app. repeat split.
    + destruct (env_set env "TELEGRAM_BOT_TOKEN"); repeat constructor.
      apply telegram_idem.
    + destruct (env_set env "DISCORD_BOT_TOKEN"); repeat constructor.
      apply discord_idem.
    + destruct (env_set env "SLACK_BOT_TOKEN" && env_set env "SLACK_APP_TOKEN");
        repeat constructor.
      apply slack_idem.
Qed.

Lemma patch_config_idem env d r :
  patch_config env (parse d) = Some r →
  ∃ r', patch_config env (parse (stringify r)) = Some r' ∧ stringify r' = stringify r.
Proof.
  assert (NoDup (root_keys env).*1) as Hnd by (by apply nodup_keys).
  assert (Forall (λ kt, Idem kt.2) (root_keys env)) as Hid.
  { repeat constructor;
      first [apply gateway_idem|apply channels_idem
            |apply models_slot_idem|apply agents_slot_idem]. }
  exact (level_idem (λ s, s ≫= patch_config env) (root_keys env)
           (patch_config_keeps env) Hnd Hid (patch_config_lens env) d r).
Qed.

Lemma load_parse f : ∃ d, load f = parse d.
Proof.
  destruct f as [[|d]|]; [by exists (JObj ∅)|by exists d|by exists (JObj ∅)].
Qed.

Lemma patch_document_idem env f d :
  patch_document env f = Some d → patch_document env (Some (Doc d)) = Some d.
Proof.
  unfold patch_document. destruct (load_parse f) as [d0 ->].
  destruct (patch_config env (parse d0)) as [r|] eqn:Hr; [|done].
  intros [= <-]. simpl.
  destruct (patch_config_idem env d0 r Hr) as (r' & -> & Hr'). simpl. by rewrite Hr'.
Qed.

Lemma patch_file_idem env f :
  patch_file env (patch_file env f) = patch_file env f.
Proof.
  unfold patch_file at 2 3.
  destruct (patch_document env f) as [d|] eqn:Hd.
  - unfold patch_file. by rewrite (patch_document_idem env f d Hd).
  - unfold patch_file. by rewrite Hd.
Qed.

(** *** The written document *)

Lemma apply_keys_lookup ts m M k T :
  NoDup ts.*1 → (k, T) ∈ ts → apply_keys ts m = Some M →
  ∃ c, T (m !! k) = Some c ∧ M !! k = c.
Proof.
  revert m. induction ts as [|[k' T'] ts IH]; intros m Hnd Hin; simpl.
  { by apply elem_of_nil in Hin. }
  apply NoDup_cons in Hnd as [Hk' Hnd].
  intros (c & Hc & HM)%bind_Some.
  apply elem_of_cons in Hin as [[= -> ->]|Hin].
  - exists c. split; [done|].
    rewrite apply_keys_frame in HM by done.
    apply fmap_Some in HM as (M0 & _ & ->). apply lookup_set_slot_eq.
  - assert (k' ≠ k) as Hne.
    { intros ->. apply Hk'. apply list_elem_of_fmap. by exists (k, T). }
    destruct (IH (set_slot k' c m) Hnd Hin HM) as (c' & Hc' & HM').
    exists c'. by rewrite lookup_set_slot_ne in Hc'.
Qed.

Lemma or_obj_block o :
  object_or_nothing o = true → or_obj (parse <$> o) = VObj (parse <$> block o).
Proof.
  unfold object_or_nothing, json_truthy, or_obj, block.
  destruct o as [[| | | | |m]|]; simpl; try done.
  all: intros ->%negb_true_iff; by rewrite ?fmap_empty.
Qed.

Lemma channels_keys_nodup env : NoDup (channels_keys env).*1.
Proof.
  unfold channels_keys.
  destruct (env_set env "TELEGRAM_BOT_TOKEN");
    destruct (env_set env "DISCORD_BOT_TOKEN");
    destruct (env_set env "SLACK_BOT_TOKEN" && env_set env "SLACK_APP_TOKEN");
    by apply nodup_keys.
Qed.

Lemma channel_slot_in env c :
  channel_enabled env c = true →
  (channel_name c, channel_slot env c) ∈ channels_keys env.
Proof.
  unfold channels_keys. destruct c; simpl; intros ->; list_in.
Qed.

Lemma channel_slot_entry env c cur :
  channel_slot env c cur = Some (Some (VObj (channel_entry env c cur))).
Proof. by destruct c. Qed.

(** The block of a channel in the written document is the entry built
    from the persisted one. *)
Lemma patched_channel env f d c :
  channels_shape c f = true → channel_enabled env c = true →
  patch_document env f = Some d →
  channel_block c (Some (Doc d))
  = stringify <$> channel_entry env c
      (Some (VObj (parse <$> channel_block c f))).
Proof.
  intros Hshape Hon Hd. unfold patch_document in Hd.
  assert (∃ m, load f = VObj (parse <$> m)
               ∧ nested_shape "channels" (channel_name c) m = true
               ∧ channel_block c f
                 = block (block (m !! "channels") !! channel_name c)) as (m & Hm & Hn & Hb).
  { unfold channels_shape in Hshape. unfold channel_block, file_get.
    destruct f as [[|[| | | | |m]]|]; try done.
    - exists ∅. by rewrite fmap_empty.
    - exists m. split; [done|]. split; [done|]. simpl.
      destruct (m !! "channels") as [[| | | | |a]|]; simpl; rewrite ?lookup_empty; try done.
      by destruct (a !! channel_name c).
    - exists ∅. by rewrite fmap_empty. }
  rewrite Hm, patch_config_lens in Hd.
  destruct (apply_keys (root_keys env) (parse <$> m)) as [M'|] eqn:EM; [|done].
  simpl in Hd. injection Hd as <-.
  assert (NoDup (root_keys env).*1) as Hnd by (by apply nodup_keys).
  assert (("channels", ensure (channels_prog env)) ∈ root_keys env) as Hin
    by (unfold root_keys; list_in).
  destruct (apply_keys_lookup _ _ _ _ _ Hnd Hin EM) as (c0 & Hc0 & HM').
  rewrite lookup_fmap in Hc0. unfold ensure in Hc0.
  assert (object_or_nothing (m !! "channels") = true
          ∧ object_or_nothing (block (m !! "channels") !! channel_name c) = true)
    as [Hch Hcur].
  { unfold nested_shape in Hn. destruct (m !! "channels") as [[]|]; by simpl in *. }
  rewrite (or_obj_block _ Hch), channels_lens in Hc0.
  destruct (apply_keys (channels_keys env) (parse <$> block (m !! "channels")))
    as [C'|] eqn:EC; [|done].
  simpl in Hc0. injection Hc0 as <-.
  destruct (apply_keys_lookup _ _ _ _ _ (channels_keys_nodup env)
              (channel_slot_in env c Hon) EC) as (e & He & HC').
  rewrite channel_slot_entry in He. injection He as <-.
  rewrite lookup_fmap in HC'.
  unfold channel_block at 1. simpl. rewrite lookup_fmap, HM'. simpl.
  rewrite lookup_fmap, HC'. simpl. rewrite Hb.
  set (cur := block (m !! "channels") !! channel_name c) in *.
  assert (channel_entry env c (parse <$> cur)
          = channel_entry env c (Some (or_obj (parse <$> cur)))) as ->.
  { destruct c; unfold channel_entry, telegram_entry, discord_entry, slack_entry;
      by rewrite or_obj_twice. }
  by rewrite (or_obj_block _ Hcur).
Qed.

Lemma channel_entry_valid env c cur :
  valid_keys (channel_valid c) (channel_entry env c cur).
Proof.
  destruct c; simpl.
  - rewrite telegram_entry_overlay.
    apply overlay_valid; [apply valid_telegram; list_in..|].
    do 2 (apply valid_keys_insert; [apply valid_telegram; list_in|]).
    apply filterKeys_valid.
  - unfold discord_entry.
    do 3 (apply valid_keys_insert; [by vm_compute|]). apply filterKeys_valid.
  - unfold slack_entry.
    do 3 (apply valid_keys_insert; [by vm_compute|]). apply filterKeys_valid.
Qed.

Lemma channel_entry_other env c cur k :
  k ∉ channel_overlaid c →
  channel_entry env c cur !! k = (filterKeys (or_obj cur) (channel_valid c)).1 !! k.
Proof.
  destruct c; simpl; rewrite !not_elem_of_cons; intros Hk.
  - rewrite telegram_entry_overlay. rewrite overlay_other by naive_solver.
    by rewrite !lookup_insert_ne by naive_solver.
  - unfold discord_entry. by rewrite !lookup_insert_ne by naive_solver.
  - unfold slack_entry. by rewrite !lookup_insert_ne by naive_solver.
Qed.

Lemma channel_entry_overlay env c cur k v :
  (k, v) ∈ channel_overlay env c →
  stringify <$> channel_entry env c cur !! k = Some v.
Proof.
  destruct c; simpl; rewrite !elem_of_cons, elem_of_nil.
  - rewrite telegram_entry_overlay.
    intros [[= -> ->]|[[= -> ->]|[]]]; rewrite overlay_other by done; by lookups.
  - unfold discord_entry. intros [[= -> ->]|[[= -> ->]|[]]]; by lookups.
  - unfold slack_entry. intros [[= -> ->]|[[= -> ->]|[[= -> ->]|[]]]]; by lookups.
Qed.

(** [filterKeys] on an object *)
Lemma filterKeys_lookup (M : gmap string value) valid k :
  (filterKeys (VObj M) valid).1 !! k = if decide (k ∈ valid) then M !! k else None.
Proof.
  rewrite filterKeys_obj, map_lookup_filter.
  destruct (M !! k) as [v|]; simpl; [|by case_decide].
  case_decide; [by rewrite option_guard_True|by rewrite option_guard_False].
Qed.

Lemma stripped_line_inj k k' : stripped_line k = stripped_line k' → k = k'.
Proof.
  unfold stripped_line. intros H. cbv [String.append] in H. congruence.
Qed.

Lemma filterKeys_log (M : gmap string value) valid k :
  stripped_line k ∈ (filterKeys (VObj M) valid).2 ↔ (k ∉ valid) ∧ is_Some (M !! k).
Proof.
  unfold filterKeys. simpl. rewrite list_elem_of_fmap. split.
  - intros ([k' v] & ->%stripped_line_inj & [? Hin]%list_elem_of_filter).
    apply elem_of_map_to_list in Hin. split; [done|by eexists].
  - intros [Hk [v Hv]]. exists (k, v). split; [done|].
    apply list_elem_of_filter. split; [done|]. by apply elem_of_map_to_list.
Qed.



End Patch_facts.

(** ** Setup-token injection *)

Module Token_facts.
Import Js Token Spec Slots Js_facts Patch_facts.

#[local] Arguments update : simpl never.
#[local] Arguments getp : simpl never.
#[local] Arguments or_obj : simpl never.
#[local] Arguments truthy : simpl never.

Lemma load_shape f :
  store_shape f = true → load f = VObj (parse <$> block (file_get [] f)).
Proof.
  unfold store_shape, load, file_get, block.
  destruct f as [[|[| | | | |m]]|]; simpl; try done; by rewrite ?fmap_empty.
Qed.

Lemma nested_shape_blocks outer inner m :
  nested_shape outer inner m = true →
  object_or_nothing (m !! outer) = true
  ∧ object_or_nothing (block (m !! outer) !! inner) = true.
Proof.
  unfold nested_shape. destruct (m !! outer) as [[]|]; simpl; try done.
Qed.

(** Reading a block of a document that was parsed. *)
Lemma or_obj_lookup (m : gmap string json) k :
  object_or_nothing (m !! k) = true →
  or_obj ((parse <$> m) !! k) = VObj (parse <$> block (m !! k)).
Proof. intros H. rewrite lookup_fmap. by apply or_obj_block. Qed.

Lemma store_loading store :
  store_shape store = true →
  assign_or_obj [] "profiles" (load store)
  = Some (store_loaded (block (file_get [] store))).
Proof.
  intros Hs. rewrite (load_shape _ Hs).
  set (m := block (file_get [] store)).
  assert (object_or_nothing (m !! "profiles") = true) as Hp.
  { unfold m, store_shape, file_get in *.
    destruct store as [[|[| | | | |m']]|]; simpl; rewrite ?lookup_empty; try done. }
  unfold assign_or_obj, assign, read, store_loaded. lens_simpl.
  by rewrite (or_obj_lookup _ _ Hp).
Qed.

Lemma needs_token_loaded (m : gmap string json) :
  needs_token (store_loaded m)
  = Some (negb (json_truthy (block (block (m !! "profiles") !! profileId) !! "token"))).
Proof.
  unfold needs_token, store_loaded, read. lens_simpl. rewrite lookup_fmap.
  destruct (block (m !! "profiles") !! profileId) as [e|]; [|done].
  simpl. destruct (truthy (Some (parse e))) eqn:Et.
  - destruct e as [| | | | |em]; simpl; try done.
    by rewrite lookup_fmap.
  - destruct e as [| | | | |em]; try done.
Qed.

Lemma config_loading config :
  config_shape config = true →
  let m := block (file_get [] config) in
  load config = VObj (parse <$> m)
  ∧ nested_shape "auth" "profiles" m = true
  ∧ nested_shape "models" "providers" m = true.
Proof.
  unfold config_shape, load, file_get, block.
  destruct config as [[|[| | | | |m]]|]; simpl; try done;
    rewrite ?fmap_empty; try done.
  by intros [? ?]%andb_true_iff.
Qed.

Ltac doc_read := repeat (simpl; rewrite ?lookup_fmap; lookups).

Lemma reference_profile_shape config :
  config_shape config = true →
  ∃ c, reference_profile (load config) = Some c
       ∧ jget ["auth"; "profiles"; profileId] (stringify c)
         = Some (stringify profile_ref)
       ∧ jget ["models"; "providers"; "anthropic"] (stringify c)
         = (if json_truthy (file_get ["models"; "providers"; "anthropic"] config)
            then file_get ["models"; "providers"; "anthropic"] config
            else Some (stringify anthropic_stub)).
Proof.
  intros Hc. destruct (config_loading config Hc) as (Hm & Ha & Hmo).
  set (m := block (file_get [] config)) in *.
  assert (file_get ["models"; "providers"; "anthropic"] config
          = block (block (m !! "models") !! "providers") !! "anthropic") as ->.
  { unfold m, file_get. destruct config as [[|d]|]; simpl; rewrite ?lookup_empty; try done.
    destruct d as [| | | | |m']; simpl; rewrite ?lookup_empty; try done.
    destruct (m' !! "models") as [[| | | | |mo]|]; simpl; rewrite ?lookup_empty; try done.
    destruct (mo !! "providers") as [[| | | | |pr]|]; simpl; rewrite ?lookup_empty; try done.
    by destruct (pr !! "anthropic"). }
  apply nested_shape_blocks in Ha as [Ha Hap].
  apply nested_shape_blocks in Hmo as [Hmo Hpr].
  rewrite Hm. unfold reference_profile, assign_or_obj, assign, read.
  repeat (lens_simpl; rewrite ?or_obj_lookup by done).
  rewrite lookup_fmap. unfold json_truthy.
  set (old := block (block (m !! "models") !! "providers") !! "anthropic").
  destruct (truthy (parse <$> old)) eqn:Et;
    (eexists; split; [done|]); doc_read; (split; [done|]).
  - fold old. destruct old; simpl; [|done]. by rewrite stringify_parse.
  - done.
Qed.

Lemma file_get_2 a b f :
  file_get [a; b] f = block (block (file_get [] f) !! a) !! b.
Proof.
  unfold file_get. destruct f as [[|d]|]; simpl; rewrite ?lookup_empty; try done.
  destruct d as [| | | | |m]; simpl; rewrite ?lookup_empty; try done.
  destruct (m !! a) as [[| | | | |m']|]; simpl; rewrite ?lookup_empty; try done.
  by destruct (m' !! b).
Qed.

Lemma file_get_3 a b c f :
  file_get [a; b; c] f = block (block (block (file_get [] f) !! a) !! b) !! c.
Proof.
  unfold file_get. destruct f as [[|d]|]; simpl; rewrite ?lookup_empty; try done.
  destruct d as [| | | | |m]; simpl; rewrite ?lookup_empty; try done.
  destruct (m !! a) as [[| | | | |m']|]; simpl; rewrite ?lookup_empty; try done.
  destruct (m' !! b) as [[| | | | |m'']|]; simpl; rewrite ?lookup_empty; try done.
  by destruct (m'' !! c).
Qed.

Lemma persisted_shape store :
  token_persisted store = true → store_shape store = true.
Proof.
  unfold token_persisted, persisted_token, store_shape, file_get.
  destruct store as [[|[| | | | |m]]|]; simpl; try done.
  by destruct (m !! "profiles") as [[]|].
Qed.

Lemma inject_skip env fs :
  token_persisted (profiles_file fs) = true → inject env fs = (fs, true).
Proof.
  intros Hp. unfold inject.
  rewrite (store_loading _ (persisted_shape _ Hp)), needs_token_loaded.
  unfold token_persisted, persisted_token in Hp. rewrite file_get_3 in Hp.
  by rewrite Hp.
Qed.

Lemma inject_write env fs :
  token_persisted (profiles_file fs) = false →
  store_shape (profiles_file fs) = true → config_shape (config_file fs) = true →
  ∃ fs', inject env fs = (fs', true)
    ∧ file_get ["profiles"; profileId] (profiles_file fs')
      = Some (stringify (token_profile env))
    ∧ (∀ p, p ≠ profileId →
         file_get ["profiles"; p] (profiles_file fs')
         = file_get ["profiles"; p] (profiles_file fs))
    ∧ file_get ["auth"; "profiles"; profileId] (config_file fs')
      = Some (stringify profile_ref)
    ∧ file_get ["models"; "providers"; "anthropic"] (config_file fs')
      = (if json_truthy (file_get ["models"; "providers"; "anthropic"] (config_file fs))
         then file_get ["models"; "providers"; "anthropic"] (config_file fs)
         else Some (stringify anthropic_stub)).
Proof.
  intros Hp Hs Hc. unfold inject.
  rewrite (store_loading _ Hs), needs_token_loaded.
  unfold token_persisted, persisted_token in Hp. rewrite file_get_3 in Hp.
  rewrite Hp. simpl.
  unfold assign, store_loaded. lens_simpl.
  destruct (reference_profile_shape _ Hc) as (c & -> & Href & Hstub).
  eexists. split; [done|]. simpl.
  split; [by doc_read|]. split; [|by split].
  intros p Hne. rewrite file_get_2. doc_read.
  by destruct (block (block (file_get [] (profiles_file fs)) !! "profiles") !! p);
    simpl; rewrite ?stringify_parse.
Qed.

Lemma world_eta (w : Boot.World) :
  Boot.with_local
    (Boot.with_auth_profiles (Boot.auth_profiles (Boot.local w))
       (Boot.with_openclaw_json (Boot.openclaw_json (Boot.local w)) (Boot.local w))) w
  = w.
Proof. by destruct w as [? [] ? ? ? ? ? ?]. Qed.

(** Outside these shapes the writing half can fail: on a store that
    holds [null] the program throws at line 388 and writes nothing. *)
Lemma inject_null_store env config :
  inject env {| profiles_file := Some (Doc JNull); config_file := config |}
  = ({| profiles_file := Some (Doc JNull); config_file := config |}, false).
Proof. done. Qed.



End Token_facts.

Module Boot_facts.
Import Boot Spec.

Lemma should_restore_newer x w :
  should_restore_from_r2 x w = true ↔ newer (backup_marker x w) (local_marker x w).
Proof.
  unfold should_restore_from_r2, backup_marker, local_marker, marker_time, epoch_of, newer.
  destruct (backup_sync w) as [r2|]; [|done].
  destruct (last_sync (local w)) as [loc|].
  - destruct (date_epoch x r2), (date_epoch x loc); simpl; apply Z.ltb_lt.
  - by destruct (date_epoch x r2).
Qed.

Lemma restore_config_events x w :
  existsb is_config_copy (restore_config x w).2
  = backup_has_config w && should_restore_from_r2 x w.
Proof.
  unfold restore_config, backup_has_config.
  case_bool_decide; [|done]. simpl.
  destruct (should_restore_from_r2 x w); [|done].
  by destruct (cp_config x).
Qed.

Lemma restore_config_backup x w :
  backup_sync (restore_config x w).1 = backup_sync w
  ∧ backup_workspace (restore_config x w).1 = backup_workspace w
  ∧ backup_skills (restore_config x w).1 = backup_skills w.
Proof.
  unfold restore_config. case_bool_decide; [|done].
  destruct (should_restore_from_r2 x w); [|done].
  by destruct (cp_config x).
Qed.

(** A copy of the configuration tree is only ever started when the
    decision was positive, and it leaves a later decision positive only
    if it was positive before. *)
Lemma restore_config_copy x w :
  existsb is_copy (restore_config x w).2 = true → should_restore_from_r2 x w = true.
Proof.
  unfold restore_config. case_bool_decide; [|done].
  by destruct (should_restore_from_r2 x w).
Qed.

Lemma restore_config_keeps x w :
  should_restore_from_r2 x w = false → restore_config x w = (w, []).
Proof.
  intros H. unfold restore_config. rewrite H. by case_bool_decide.
Qed.

Lemma restore_workspace_copy x w :
  existsb is_copy (restore_workspace x w).2 = true → should_restore_from_r2 x w = true.
Proof.
  unfold restore_workspace. case_bool_decide; [|done].
  by destruct (should_restore_from_r2 x w).
Qed.

Lemma restore_workspace_decision x w :
  should_restore_from_r2 x (restore_workspace x w).1 = should_restore_from_r2 x w.
Proof.
  unfold restore_workspace. case_bool_decide; [|done].
  destruct (should_restore_from_r2 x w) eqn:E; [|done].
  by destruct (cp_workspace x).
Qed.

Lemma restore_skills_copy x w :
  existsb is_copy (restore_skills x w).2 = true → should_restore_from_r2 x w = true.
Proof.
  unfold restore_skills. case_bool_decide; [|done].
  by destruct (should_restore_from_r2 x w).
Qed.

Lemma restore_copy x w :
  existsb is_copy (restore x w).2 = true → should_restore_from_r2 x w = true.
Proof.
  unfold restore.
  destruct (should_restore_from_r2 x w) eqn:E; [done|].
  rewrite (restore_config_keeps _ _ E).
  destruct (restore_workspace x w) as [w1 e2] eqn:E2.
  destruct (restore_skills x w1) as [w2 e3] eqn:E3. simpl.
  rewrite existsb_app. intros [H|H]%orb_prop.
  - pose proof (restore_workspace_copy x w) as Hc. rewrite E2 in Hc.
    rewrite (Hc H) in E. done.
  - pose proof (restore_skills_copy x w1) as Hc. rewrite E3 in Hc.
    pose proof (restore_workspace_decision x w) as Hd. rewrite E2 in Hd.
    simpl in *. rewrite Hd, E in Hc. by apply Hc.
Qed.

Lemma restore_config_copied x w :
  existsb is_config_copy (restore x w).2
  = backup_has_config w && should_restore_from_r2 x w.
Proof.
  unfold restore. rewrite <- restore_config_events.
  destruct (restore_config x w) as [w0 e1].
  assert (Hw : ∀ w, existsb is_config_copy (restore_workspace x w).2 = false).
  { intros w'. unfold restore_workspace. case_bool_decide; [|done].
    destruct (should_restore_from_r2 x w'); [|done]. by destruct (cp_workspace x). }
  assert (Hs : ∀ w, existsb is_config_copy (restore_skills x w).2 = false).
  { intros w'. unfold restore_skills. case_bool_decide; [|done].
    destruct (should_restore_from_r2 x w'); [|done]. by destruct (cp_skills x). }
  specialize (Hw w0). destruct (restore_workspace x w0) as [w1 e2].
  specialize (Hs w1). destruct (restore_skills x w1) as [w2 e3].
  simpl in *. rewrite !existsb_app, Hw, Hs. by rewrite !orb_false_r.
Qed.

(** C1. The restore decision of [ensureRunning]: [should_restore_from_r2]
    answers yes exactly when the marker of the bucket is strictly newer
    than the local one, a missing marker being older than any present one
    and an unparseable one counting as epoch zero. In the script, a copy
    from the bucket is started only on that answer; when the bucket holds a
    configuration document, the configuration is copied exactly on that
    answer; with no marker in the bucket, or with the two marker files
    equal, nothing is copied. *)
Theorem restore_decision (x : Ext) (w : World) :
  (should_restore_from_r2 x w = true ↔ newer (backup_marker x w) (local_marker x w))
  ∧ (existsb is_copy (restore x w).2 = true → newer (backup_marker x w) (local_marker x w))
  ∧ (backup_has_config w = true →
     (existsb is_config_copy (restore x w).2 = true
      ↔ newer (backup_marker x w) (local_marker x w)))
  ∧ (backup_sync w = None → existsb is_copy (restore x w).2 = false)
  ∧ (backup_sync w = last_sync (local w) → existsb is_copy (restore x w).2 = false).
Proof.
  pose proof (should_restore_newer x w) as Hd.
  pose proof (restore_copy x w) as Hc.
  split; [done|]. split; [by intros ?%Hc%Hd|]. split.
  { intros Hb. rewrite restore_config_copied, Hb. simpl. done. }
  split.
  - intros Hn. apply not_true_is_false. intros E.
    apply Hc in E. unfold should_restore_from_r2 in E. by rewrite Hn in E.
  - intros Heq. apply not_true_is_false. intros E.
    apply Hc in E. unfold should_restore_from_r2 in E. rewrite Heq in E.
    destruct (last_sync (local w)); [|done]. by apply Z.ltb_lt, Z.lt_irrefl in E.
Qed.

(** *** Onboarding *)

Lemma overlay_keeps_config src dst :
  is_Some (openclaw_json dst) → is_Some (openclaw_json (overlay src dst)).
Proof.
  intros [f Hf]. unfold overlay. simpl. rewrite Hf.
  destruct (openclaw_json src); by eexists.
Qed.

Lemma restore_local x w :
  local (restore x w).1 = local (restore_config x w).1.
Proof.
  unfold restore. destruct (restore_config x w) as [w0 e1]. simpl.
  assert (Hw : local (restore_workspace x w0).1 = local w0).
  { unfold restore_workspace. case_bool_decide; [|done].
    destruct (should_restore_from_r2 x w0); [|done]. by destruct (cp_workspace x). }
  destruct (restore_workspace x w0) as [w1 e2]. simpl in Hw.
  assert (Hs : local (restore_skills x w1).1 = local w1).
  { unfold restore_skills. case_bool_decide; [|done].
    destruct (should_restore_from_r2 x w1); [|done]. by destruct (cp_skills x). }
  destruct (restore_skills x w1) as [w2 e3]. simpl in *. congruence.
Qed.

Lemma restore_keeps_config x w :
  has_config w = true → has_config (restore x w).1 = true.
Proof.
  unfold has_config. rewrite !bool_decide_eq_true, restore_local. intros H.
  unfold restore_config. case_bool_decide; [|done].
  destruct (should_restore_from_r2 x w); [|done].
  destruct (cp_config x); simpl; [by apply overlay_keeps_config|].
  destruct (cp_marker_ok x); simpl; by apply overlay_keeps_config.
Qed.

Lemma restore_copied_config x w :
  CpConfig true ∈ (restore x w).2 → has_config (restore x w).1 = true.
Proof.
  unfold has_config. rewrite bool_decide_eq_true, restore_local.
  intros Hin. assert (Hc : CpConfig true ∈ (restore_config x w).2).
  { revert Hin. unfold restore. destruct (restore_config x w) as [w0 e1].
    assert (Hw : CpConfig true ∉ (restore_workspace x w0).2).
    { unfold restore_workspace. case_bool_decide; [|list_in].
      destruct (should_restore_from_r2 x w0); [|list_in].
      destruct (cp_workspace x); simpl; list_in. }
    destruct (restore_workspace x w0) as [w1 e2].
    assert (Hs : CpConfig true ∉ (restore_skills x w1).2).
    { unfold restore_skills. case_bool_decide; [|list_in].
      destruct (should_restore_from_r2 x w1); [|list_in].
      destruct (cp_skills x); simpl; list_in. }
    destruct (restore_skills x w1) as [w2 e3]. simpl in *. list_in. }
  revert Hc. unfold restore_config. case_bool_decide as Hb; [|simpl; list_in].
  destruct (should_restore_from_r2 x w); [|simpl; list_in].
  destruct (cp_config x); simpl; [list_in|]. intros Hc.
  destruct Hb as [f Hf].
  destruct (cp_marker_ok x); simpl; rewrite Hf;
    destruct (openclaw_json (local w)); by eexists.
Qed.

Lemma restore_no_onboard x w : existsb is_onboard (restore x w).2 = false.
Proof.
  unfold restore, restore_config, restore_workspace, restore_skills.
  repeat (case_bool_decide || case_match || simplify_eq/= || done).
Qed.

Lemma restore_no_gateway x w : existsb is_gateway (restore x w).2 = false.
Proof.
  unfold restore, restore_config, restore_workspace, restore_skills.
  repeat (case_bool_decide || case_match || simplify_eq/= || done).
Qed.

(** What [boot] prints and runs, phase by phase. *)
Lemma boot_events x env w :
  ∃ rest,
    events (boot x env w)
    = (restore x w).2 ++ (onboard_step x env (restore x w).1).1.2 ++ rest
    ∧ existsb is_onboard rest = false.
Proof.
  unfold boot, events.
  destruct (restore x w) as [w0 e1]. simpl.
  destruct (onboard_step x env w0) as [[w1 e2] [s|]]; simpl.
  { exists [TrapRmdir]. by rewrite <- !app_assoc. }
  unfold patch_step. destruct (Patch.patch_document _ _); simpl.
  2:{ exists [NodePatch false; TrapRmdir]. by rewrite <- !app_assoc. }
  unfold token_step. destruct (env_set env "CLAUDE_SETUP_TOKEN"); simpl.
  - destruct (Token.inject _ _) as [fs [|]]; simpl.
    + eexists. split; [by rewrite <- ?app_assoc|]. done.
    + eexists. split; [by rewrite <- ?app_assoc|]. done.
  - eexists. split; [by rewrite <- ?app_assoc|]. done.
Qed.

Lemma onboard_step_events x env w :
  existsb is_onboard (onboard_step x env w).1.2 = negb (has_config w)
  ∧ (has_config w = false → Onboard (onboard_argv env) ∈ (onboard_step x env w).1.2).
Proof.
  unfold onboard_step, has_config. case_bool_decide; simpl; [done|].
  destruct (onboard_status x =? 0)%Z; simpl; split; try done; intros _; list_in.
Qed.

Lemma boot_onboard x env w :
  existsb is_onboard (events (boot x env w)) = negb (has_config (restore x w).1).
Proof.
  destruct (boot_events x env w) as (rest & -> & Hrest).
  rewrite !existsb_app, restore_no_onboard, Hrest.
  rewrite (proj1 (onboard_step_events x env _)). by rewrite orb_false_r.
Qed.

(** C5. Onboarding runs exactly when no configuration document is at
    the fixed path after the restore step: a document that was there
    before, even the empty object, or one the restore has just copied,
    keeps it from running whatever the bucket holds. *)
Theorem onboarding_iff_no_config (x : Ext) (env : Env) (w : World) :
  existsb is_onboard (events (boot x env w)) = negb (has_config (restore x w).1)
  ∧ (has_config (restore x w).1 = false →
     Onboard (onboard_argv env) ∈ events (boot x env w))
  ∧ (has_config w = true → existsb is_onboard (events (boot x env w)) = false)
  ∧ (CpConfig true ∈ (restore x w).2 →
     existsb is_onboard (events (boot x env w)) = false).
Proof.
  split; [apply boot_onboard|]. split; [|split].
  - intros H. destruct (boot_events x env w) as (rest & -> & _).
    apply (onboard_step_events x env) in H. list_in.
  - intros H. by rewrite boot_onboard, restore_keeps_config.
  - intros H. by rewrite boot_onboard, restore_copied_config.
Qed.

Lemma onboarding_iff_no_config_witness :
  has_config Sample.configured = true
  ∧ existsb is_onboard
      (events (boot Sample.quiet Sample.token_env Sample.configured)) = false.
Proof.
  destruct (onboarding_iff_no_config Sample.quiet Sample.token_env Sample.configured)
    as (_ & _ & H & _).
  split; [reflexivity|]. apply H. reflexivity.
Defined.

(** *** Liveness probe *)

(** C6. When the probe of port 18789 succeeds the invocation ends at
    once with status 0 and the already-running line: it runs no other
    command, and the lock directory, the local state and the bucket are
    what they were. The same holds for that step among other
    invocations. *)
Theorem fast_path (x : Ext) (env : Env) (w : World) :
  curl_ok x = true →
  ensureRunning x env w = (Exited 0, w, [Echo already_running])
  ∧ ∀ s i inv,
      invocations s !! i = Some inv → proc inv = AtProbe → ext inv = x →
      shared (sys_step i s) = shared s
      ∧ trace (sys_step i s) = trace s ++ [(i, Echo already_running)].
Proof.
  intros H. split.
  - unfold ensureRunning. simpl. by rewrite H.
  - intros s i inv Hi Hp <-. unfold sys_step. rewrite Hi, Hp. simpl. by rewrite H.
Qed.

Lemma fast_path_witness :
  ensureRunning Sample.answering Sample.token_env Sample.locked
  = (Exited 0, Sample.locked, [Echo already_running]).
Proof.
  apply (fast_path Sample.answering Sample.token_env Sample.locked). reflexivity.
Defined.

(** *** Credentials for onboarding *)



(** *** Lock directory *)

Lemma restore_phase x w :
  forallb is_phase_event (restore x w).2 = true
  ∧ lock_dir (restore x w).1 = lock_dir w.
Proof.
  unfold restore.
  assert (H1 : ∀ w, forallb is_phase_event (restore_config x w).2 = true
                    ∧ lock_dir (restore_config x w).1 = lock_dir w).
  { intros w'. unfold restore_config. case_bool_decide; [|done].
    destruct (should_restore_from_r2 x w'); [|done]. by destruct (cp_config x). }
  assert (H2 : ∀ w, forallb is_phase_event (restore_workspace x w).2 = true
                    ∧ lock_dir (restore_workspace x w).1 = lock_dir w).
  { intros w'. unfold restore_workspace. case_bool_decide; [|done].
    destruct (should_restore_from_r2 x w'); [|done]. by destruct (cp_workspace x). }
  assert (H3 : ∀ w, forallb is_phase_event (restore_skills x w).2 = true
                    ∧ lock_dir (restore_skills x w).1 = lock_dir w).
  { intros w'. unfold restore_skills. case_bool_decide; [|done].
    destruct (should_restore_from_r2 x w'); [|done]. by destruct (cp_skills x). }
  specialize (H1 w). destruct (restore_config x w) as [w0 e1].
  specialize (H2 w0). destruct (restore_workspace x w0) as [w1 e2].
  specialize (H3 w1). destruct (restore_skills x w1) as [w2 e3].
  simpl in *. rewrite !forallb_app. split; [|naive_solver].
  destruct H1 as [-> _], H2 as [-> _], H3 as [-> _]. done.
Qed.

Lemma onboard_phase x env w :
  forallb is_phase_event (onboard_step x env w).1.2 = true
  ∧ lock_dir (onboard_step x env w).1.1 = lock_dir w.
Proof.
  unfold onboard_step. case_bool_decide; [done|].
  by destruct (onboard_status x =? 0)%Z.
Qed.

Lemma patch_phase env w :
  forallb is_phase_event (patch_step env w).1.2 = true
  ∧ lock_dir (patch_step env w).1.1 = lock_dir w.
Proof. unfold patch_step. by destruct (Patch.patch_document _ _). Qed.

Lemma token_phase env w :
  forallb is_phase_event (token_step env w).1.2 = true
  ∧ lock_dir (token_step env w).1.1 = lock_dir w.
Proof.
  unfold token_step. destruct (env_set env "CLAUDE_SETUP_TOKEN"); [|done].
  by destruct (Token.inject _ _) as [fs [|]].
Qed.

(** [boot] is the four phases, then either the launch or, when one of
    them fails, the trap. *)
Lemma boot_shape x env w :
  ∃ w' es,
    forallb is_phase_event es = true ∧ lock_dir w' = lock_dir w
    ∧ (boot x env w
       = (Waiting, with_local (without_gateway_lock (local w')) w',
          es ++ (launch env w').2)
       ∨ ∃ s, boot x env w = (Exited s, with_lock false w', es ++ [TrapRmdir])).
Proof.
  unfold boot, exit_with, trap.
  pose proof (restore_phase x w) as [He1 Hl1].
  destruct (restore x w) as [w0 e1]. simpl in *.
  pose proof (onboard_phase x env w0) as [He2 Hl2].
  destruct (onboard_step x env w0) as [[w1 e2] s2]. simpl in *.
  destruct s2 as [s|].
  { exists w1, (e1 ++ e2). rewrite forallb_app, He1, He2.
    split; [done|]. split; [congruence|]. right. by exists s. }
  pose proof (patch_phase env w1) as [He3 Hl3].
  destruct (patch_step env w1) as [[w2 e3] s3]. simpl in *.
  destruct s3 as [s|].
  { exists w2, (e1 ++ e2 ++ e3). rewrite !forallb_app, He1, He2, He3.
    split; [done|]. split; [congruence|]. right. by exists s. }
  pose proof (token_phase env w2) as [He4 Hl4].
  destruct (token_step env w2) as [[w3 e4] s4]. simpl in *.
  destruct s4 as [s|].
  { exists w3, (e1 ++ e2 ++ e3 ++ e4). rewrite !forallb_app, He1, He2, He3, He4.
    split; [done|]. split; [congruence|]. right. by exists s. }
  exists w3, (e1 ++ e2 ++ e3 ++ e4). rewrite !forallb_app, He1, He2, He3, He4.
  split; [done|]. split; [congruence|]. left.
  unfold launch. simpl. by rewrite <- !app_assoc.
Qed.

Lemma phase_events_quiet es :
  forallb is_phase_event es = true →
  existsb is_lock_event es = false ∧ existsb is_exec es = false
  ∧ existsb is_gateway es = false ∧ TrapRmdir ∉ es.
Proof.
  induction es as [|e es IH]; simpl.
  - intros _. repeat split; try done. by intros ?%elem_of_nil.
  - intros [He Hes]%andb_prop. destruct (IH Hes) as (-> & -> & -> & Hn).
    rewrite elem_of_cons. by destruct e as [| | | | | | | | |[]|]; naive_solver.
Qed.

Lemma boot_no_lock_event x env w :
  existsb is_lock_event (events (boot x env w)) = false.
Proof.
  destruct (boot_shape x env w) as (w' & es & Hes & _ & [->|[s ->]]);
    apply phase_events_quiet in Hes as (Hes & _);
    unfold events; simpl; by rewrite existsb_app, Hes.
Qed.

(** The recovery of lines 24-33, when nothing interleaves: the
    directory is removed once, creation is tried a second time and
    succeeds, and the script goes on under the lock. *)
Lemma stale_lock_recovery x env w :
  curl_ok x = false → lock_dir w = true →
  ensureRunning x env w
  = let r := boot x env (with_lock true (with_lock false w)) in
    (outcome r, final r,
     [MkdirLock false; Echo stale_detected; RmLock; MkdirLock true] ++ events r).
Proof.
  intros Hc Hl. unfold ensureRunning. simpl. rewrite Hc. simpl. rewrite Hl. simpl.
  destruct (boot x env _) as [[p w'] es] eqn:E. unfold outcome, final, events. simpl.
  destruct p; by rewrite ?app_nil_r.
Qed.

(** The second attempt is the last: when it fails the script exits with
    status 1 and the line of line 30, and does nothing else. *)
Lemma retry_fails x env w :
  lock_dir w = true →
  step x env AtRetry w = (Exited 1, w, [MkdirLock false; Echo failed_to_acquire])
  ∧ ∀ n, run n x env (Exited 1) w = (Exited 1, w, []).
Proof.
  intros Hl. simpl. rewrite Hl. split; [done|]. by intros [|n].
Qed.

(** C2. An invocation that finds the lock directory present while
    nothing answers on the port removes it and creates it again, whoever
    made it. So a second invocation that arrives after the first has
    recovered the lock, and before its gateway answers, takes the lock
    from the first one instead of failing: both start a gateway. *)
Theorem second_invocation_takes_lock :
  let s := schedule [0; 0; 0; 0; 1; 1; 1; 1; 0; 1]
             (start Sample.locked
                [(Sample.quiet, Sample.token_env); (Sample.quiet, Sample.token_env)]) in
  proc <$> invocations s = [Waiting; Waiting]
  ∧ gateways_started s = [0; 1]
  ∧ (1, Echo failed_to_acquire) ∉ trace s.
Proof.
  vm_compute. split; [done|]. split; [done|].
  intros H. repeat (apply elem_of_cons in H as [H|H]; [discriminate H|]).
  by apply elem_of_nil in H.
Qed.

(** *** Launch *)

Lemma boot_never_exec x env w : existsb is_exec (events (boot x env w)) = false.
Proof.
  destruct (boot_shape x env w) as (w' & es & Hes & _ & [->|[s ->]]);
    apply phase_events_quiet in Hes as (_ & Hes & _);
    unfold events; simpl; by rewrite existsb_app, Hes.
Qed.

Lemma boot_launch x env w w' es :
  boot x env w = (Waiting, w', es) →
  ∃ before, es = before ++ [Gateway Child (gateway_argv env)]
            ∧ lock_dir w' = lock_dir w.
Proof.
  destruct (boot_shape x env w) as (w1 & es1 & Hes & Hl & [->|[s ->]]); [|done].
  intros [= <- <-]. unfold launch. simpl.
  eexists (es1 ++ [_; _]). by rewrite <- app_assoc.
Qed.

Lemma boot_exit x env w s w' es :
  boot x env w = (Exited s, w', es) → lock_dir w' = false ∧ TrapRmdir ∈ es.
Proof.
  destruct (boot_shape x env w) as (w1 & es1 & Hes & Hl & [->|[s' ->]]); [done|].
  intros [= <- <- <-]. split; [done|]. list_in.
Qed.




Lemma restore_decision_witness :
  backup_has_config Sample.backed_up = true
  ∧ existsb is_config_copy (restore Sample.quiet Sample.backed_up).2 = true
  ∧ newer (backup_marker Sample.quiet Sample.backed_up)
          (local_marker Sample.quiet Sample.backed_up).
Proof.
  destruct (restore_decision Sample.quiet Sample.backed_up) as (_ & H & _).
  split; [reflexivity|]. split; [reflexivity|]. apply H. reflexivity.
Defined.

End Boot_facts.

Module Sync_facts.
Import Boot Sync Spec.

Lemma sync_needs_config x env w :
  SyncCmd ∈ (syncToR2 x env w).2 →
  has_config w = true
  ∧ ∃ rest, (syncToR2 x env w).2 = CheckConfig :: SyncCmd :: rest.
Proof.
  unfold syncToR2, has_config.
  destruct (negb _ || negb _ || negb _); simpl; [list_in|].
  destruct (negb (mount_ok x)); simpl; [list_in|].
  destruct (check_throws x); simpl; [list_in|].
  case_bool_decide; simpl; [|list_in].
  destruct (check_logged x); simpl; [|list_in].
  destruct (sync_throws x); simpl; [list_in|].
  destruct (cat_throws x); simpl; [by eauto|].
  destruct (bool_decide _ && _); simpl; by eauto.
Qed.

(** C10. [syncToR2] never writes to the bucket from an empty source:
    with an R2 credential missing, or a failed mount, or no
    [openclaw.json] in the configuration directory, it returns
    [success: false] with an error that says which, runs no rsync, and
    leaves the bucket with its [.last-sync] as it was; and the sync
    command is only ever started after the check for the configuration
    file, with the file there. *)
Theorem sync_guards (x : Ext) (env : Env) (w : World) :
  (env_set env "R2_ACCESS_KEY_ID" = false ∨ env_set env "R2_SECRET_ACCESS_KEY" = false
   ∨ env_set env "CF_ACCOUNT_ID" = false →
   syncToR2 x env w = (failed "R2 storage is not configured" None, w, []))
  ∧ (env_set env "R2_ACCESS_KEY_ID" = true → env_set env "R2_SECRET_ACCESS_KEY" = true →
     env_set env "CF_ACCOUNT_ID" = true → mount_ok x = false →
     syncToR2 x env w = (failed "Failed to mount R2 storage" None, w, []))
  ∧ (env_set env "R2_ACCESS_KEY_ID" = true → env_set env "R2_SECRET_ACCESS_KEY" = true →
     env_set env "CF_ACCOUNT_ID" = true → mount_ok x = true → has_config w = false →
     ∃ det,
       syncToR2 x env w
       = (failed (match check_throws x with
                  | Some _ => "Failed to verify source files"
                  | None => "Sync aborted: no config file found"
                  end) det,
          w, [CheckConfig]))
  ∧ (env_set env "R2_ACCESS_KEY_ID" = false ∨ env_set env "R2_SECRET_ACCESS_KEY" = false
     ∨ env_set env "CF_ACCOUNT_ID" = false ∨ mount_ok x = false ∨ has_config w = false →
     success (syncToR2 x env w).1.1 = false
     ∧ is_Some (error (syncToR2 x env w).1.1)
     ∧ (syncToR2 x env w).1.2 = w
     ∧ SyncCmd ∉ (syncToR2 x env w).2)
  ∧ (SyncCmd ∈ (syncToR2 x env w).2 →
     has_config w = true
     ∧ ∃ rest, (syncToR2 x env w).2 = CheckConfig :: SyncCmd :: rest).
Proof.
  split; [|split; [|split; [|split]]].
  - unfold syncToR2. intros [-> | [-> | ->]]; simpl; by rewrite ?orb_true_r.
  - unfold syncToR2. by intros -> -> -> ->.
  - unfold syncToR2, has_config. intros -> -> -> -> ->. simpl.
    destruct (check_throws x); by eexists.
  - unfold syncToR2, has_config.
    destruct (negb _ || negb _ || negb _) eqn:Ecfg; simpl.
    { intros _. split; [done|]. split; [by eexists|]. split; [done|].
      by intros ?%elem_of_nil. }
    apply orb_false_elim in Ecfg as [[E1 E2]%orb_false_elim E3].
    apply negb_false_iff in E1, E2, E3.
    intros [H|[H|[H|[H|H]]]]; try congruence.
    + rewrite H. simpl. split; [done|]. split; [by eexists|]. split; [done|].
      by intros ?%elem_of_nil.
    + destruct (negb (mount_ok x)); simpl.
      { split; [done|]. split; [by eexists|]. split; [done|].
        by intros ?%elem_of_nil. }
      rewrite H. simpl.
      destruct (check_throws x); simpl;
        (split; [done|]; split; [by eexists|]; split; [done|]; list_in).
  - apply sync_needs_config.
Qed.

Lemma sync_guards_witness :
  ∃ det,
    syncToR2 Sample.syncing Sample.r2_env Sample.fresh
    = (failed "Sync aborted: no config file found" det, Sample.fresh, [CheckConfig]).
Proof.
  destruct (sync_guards Sample.syncing Sample.r2_env Sample.fresh)
    as (_ & _ & H & _).
  apply H; reflexivity.
Defined.

End Sync_facts.

(** ** The restore phase *)

Module Restore_facts.
Import Js Boot Spec Frame.

Lemma equal_markers_no_restore x w :
  backup_sync w = last_sync (local w) → should_restore_from_r2 x w = false.
Proof.
  unfold should_restore_from_r2. intros ->.
  destruct (last_sync (local w)); [|done]. apply Z.ltb_irrefl.
Qed.

(** X1. After a configuration restore nothing else is restored in the
    same boot. When the backup holds a configuration, its marker asks
    for a restore, and the copy and the copy of the marker both succeed,
    the restore phase is the configuration copy alone: the workspace and
    the skills are what they were, and the marker test no longer asks
    for a restore. *)
Theorem config_restore_ends_restore (x : Ext) (w : World) :
  backup_has_config w = true → should_restore_from_r2 x w = true →
  cp_config x = None → cp_marker_ok x = true →
  restore x w
  = (with_local (with_last_sync (backup_sync w)
                   (overlay (backup_openclaw w) (local w))) w,
     [CpConfig true; Echo "Restored config from R2 backup"])
  ∧ workspace (restore x w).1 = workspace w
  ∧ skills (restore x w).1 = skills w
  ∧ should_restore_from_r2 x (restore x w).1 = false.
Proof.
  intros Hb Hr Hcp Hm.
  assert (restore x w
          = (with_local (with_last_sync (backup_sync w)
                           (overlay (backup_openclaw w) (local w))) w,
             [CpConfig true; Echo "Restored config from R2 backup"])) as ->.
  { unfold restore, restore_config. unfold backup_has_config in Hb.
    rewrite Hb, Hr, Hcp, Hm.
    set (w1 := with_local _ w).
    assert (should_restore_from_r2 x w1 = false) as H1
      by (by apply equal_markers_no_restore).
    unfold restore_workspace, restore_skills. rewrite H1.
    repeat case_bool_decide; simpl; by rewrite ?H1. }
  repeat split; try done. by apply equal_markers_no_restore.
Qed.

Lemma config_restore_ends_restore_witness :
  restore Sample.quiet Sample.backed_up
  = (with_local (with_last_sync (backup_sync Sample.backed_up)
                   (overlay (backup_openclaw Sample.backed_up)
                      (local Sample.backed_up))) Sample.backed_up,
     [CpConfig true; Echo "Restored config from R2 backup"])
  ∧ backup_workspace Sample.backed_up !! "IDENTITY.md" = Some "me"
  ∧ workspace (restore Sample.quiet Sample.backed_up).1 = ∅.
Proof.
  destruct (config_restore_ends_restore Sample.quiet Sample.backed_up)
    as (H1 & H2 & _); [reflexivity..|].
  split; [exact H1|]. split; [reflexivity|]. rewrite H2. reflexivity.
Defined.

(** What a copy can do to a directory: put files, never take one away. *)
Lemma overlay_grows src dst :
  (is_Some (openclaw_json dst) → is_Some (openclaw_json (overlay src dst)))
  ∧ (is_Some (last_sync dst) → is_Some (last_sync (overlay src dst)))
  ∧ (is_Some (auth_profiles dst) → is_Some (auth_profiles (overlay src dst))).
Proof.
  unfold overlay. simpl.
  repeat split; intros [v ->];
    by match goal with |- is_Some (?o ∪ _) => destruct o end.
Qed.

Lemma grows_refl w : grows w w.
Proof. by repeat split. Qed.

Lemma grows_trans w1 w2 w3 : grows w1 w2 → grows w2 w3 → grows w1 w3.
Proof.
  intros (a1 & a2 & a3 & a4 & a5) (b1 & b2 & b3 & b4 & b5).
  repeat split; naive_solver.
Qed.

Lemma union_grows (a b : gmap string string) k :
  is_Some (b !! k) → is_Some ((a ∪ b) !! k).
Proof.
  intros [v Hv]. destruct (a !! k) as [u|] eqn:Ha.
  - exists u. by apply lookup_union_Some_l.
  - exists v. by rewrite lookup_union_r.
Qed.

Lemma restore_config_grows x w :
  grows w (restore_config x w).1 ∧ same_bucket w (restore_config x w).1
  ∧ lock_dir (restore_config x w).1 = lock_dir w.
Proof.
  unfold restore_config.
  case_bool_decide; [|by split; [apply grows_refl|]].
  destruct (should_restore_from_r2 x w) eqn:Hr; [|by split; [apply grows_refl|]].
  destruct (cp_config x) as [written|]; simpl.
  - split; [|done]. destruct (overlay_grows written (local w)) as (? & ? & ?).
    by repeat split.
  - split; [|done].
    destruct (overlay_grows (backup_openclaw w) (local w)) as (? & ? & ?).
    destruct (cp_marker_ok x); repeat split; simpl; try done.
    intros _. unfold should_restore_from_r2 in Hr.
    by destruct (backup_sync w).
Qed.

Lemma restore_workspace_grows x w :
  grows w (restore_workspace x w).1 ∧ same_bucket w (restore_workspace x w).1
  ∧ lock_dir (restore_workspace x w).1 = lock_dir w
  ∧ local (restore_workspace x w).1 = local w.
Proof.
  unfold restore_workspace.
  case_bool_decide; [|by split; [apply grows_refl|]].
  destruct (should_restore_from_r2 x w); [|by split; [apply grows_refl|]].
  destruct (cp_workspace x) as [written|]; simpl;
    (split; [|done]); repeat split; simpl; try done; intros k; apply union_grows.
Qed.

Lemma restore_skills_grows x w :
  grows w (restore_skills x w).1 ∧ same_bucket w (restore_skills x w).1
  ∧ lock_dir (restore_skills x w).1 = lock_dir w
  ∧ local (restore_skills x w).1 = local w.
Proof.
  unfold restore_skills.
  case_bool_decide; [|by split; [apply grows_refl|]].
  destruct (should_restore_from_r2 x w); [|by split; [apply grows_refl|]].
  destruct (cp_skills x) as [written|]; simpl;
    (split; [|done]); repeat split; simpl; try done; intros k; apply union_grows.
Qed.

Lemma should_restore_markers x w w' :
  backup_sync w' = backup_sync w → last_sync (local w') = last_sync (local w) →
  should_restore_from_r2 x w' = should_restore_from_r2 x w.
Proof. unfold should_restore_from_r2. by intros -> ->. Qed.



End Restore_facts.

(** ** The script under [set -e] *)

Module Abort_facts.
Import Js Boot Spec Frame.

Lemma existsb_elem {A} (P : A → bool) (a : A) (l : list A) :
  a ∈ l → P a = true → existsb P l = true.
Proof.
  intros Hin HP. apply existsb_exists. exists a. split; [|done].
  by apply list_elem_of_In.
Qed.

Lemma restore_events x w :
  existsb is_patch (restore x w).2 = false
  ∧ existsb is_token (restore x w).2 = false
  ∧ existsb is_onboard (restore x w).2 = false
  ∧ existsb is_gateway (restore x w).2 = false.
Proof.
  unfold restore.
  assert (H1 : ∀ w, ∀ P, (∀ b, P (CpConfig b) = false) → (∀ l, P (Echo l) = false) →
            existsb P (restore_config x w).2 = false).
  { intros w0 P Hc He. unfold restore_config.
    repeat (case_bool_decide || case_match); simpl; by rewrite ?Hc, ?He. }
  assert (H2 : ∀ w, ∀ P, (∀ b, P (CpWorkspace b) = false) → (∀ l, P (Echo l) = false) →
            existsb P (restore_workspace x w).2 = false).
  { intros w0 P Hc He. unfold restore_workspace.
    repeat (case_bool_decide || case_match); simpl; by rewrite ?Hc, ?He. }
  assert (H3 : ∀ w, ∀ P, (∀ b, P (CpSkills b) = false) → (∀ l, P (Echo l) = false) →
            existsb P (restore_skills x w).2 = false).
  { intros w0 P Hc He. unfold restore_skills.
    repeat (case_bool_decide || case_match); simpl; by rewrite ?Hc, ?He. }
  destruct (restore_config x w) as [w1 e1] eqn:E1.
  destruct (restore_workspace x w1) as [w2 e2] eqn:E2.
  destruct (restore_skills x w2) as [w3 e3] eqn:E3. simpl.
  specialize (H1 w). specialize (H2 w1). specialize (H3 w2).
  rewrite E1 in H1. rewrite E2 in H2. rewrite E3 in H3. simpl in *.
  repeat split; rewrite !existsb_app, H1, H2, H3; done.
Qed.

Lemma onboard_events x env w :
  existsb is_patch (onboard_step x env w).1.2 = false
  ∧ existsb is_token (onboard_step x env w).1.2 = false
  ∧ existsb is_gateway (onboard_step x env w).1.2 = false
  ∧ (∀ s, (onboard_step x env w).2 = Some s → s = onboard_status x ∧ s ≠ 0%Z)
  ∧ (existsb is_onboard (onboard_step x env w).1.2 = true →
     (onboard_step x env w).2
     = if (onboard_status x =? 0)%Z then None else Some (onboard_status x)).
Proof.
  unfold onboard_step. case_bool_decide; [by repeat split|].
  destruct (onboard_status x =? 0)%Z eqn:E; simpl;
    (split; [done|]); (split; [done|]); (split; [done|]); (split; [|done]);
    intros s; [done|].
  intros [= <-]. split; [done|]. by apply Z.eqb_neq.
Qed.

Lemma patch_events env w :
  ∃ ok, (patch_step env w).1.2 = [NodePatch ok]
        ∧ (patch_step env w).2 = if ok then None else Some 1%Z.
Proof.
  unfold patch_step. destruct (Patch.patch_document _ _); [by exists true|by exists false].
Qed.

Lemma token_events env w :
  ((token_step env w).1.2 = [] ∧ (token_step env w).2 = None)
  ∨ ∃ ok, (token_step env w).1.2 = [NodeToken ok]
          ∧ (token_step env w).2 = if ok then None else Some 1%Z.
Proof.
  unfold token_step. destruct (env_set env "CLAUDE_SETUP_TOKEN"); [|by left].
  destruct (Token.inject _ _) as [fs ok]. right. by exists ok.
Qed.

Lemma existsb_weaken {A} (P Q : A → bool) (l : list A) :
  (∀ a, Q a = true → P a = true) → existsb P l = false → existsb Q l = false.
Proof.
  intros HPQ. induction l as [|a l IH]; simpl; [done|].
  intros [Ha Hl]%orb_false_iff. rewrite (IH Hl), orb_false_r.
  destruct (Q a) eqn:E; [|done]. by rewrite (HPQ a E) in Ha.
Qed.

Lemma patch_failed_is_patch e : patch_failed e = true → is_patch e = true.
Proof. by destruct e. Qed.

Lemma token_failed_is_token e : token_failed e = true → is_token e = true.
Proof. by destruct e. Qed.



End Abort_facts.

(** ** [syncToR2] and what a later boot finds *)

Module Backup_facts.
Import Js Boot Sync Spec Frame.

Lemma sync_runs_inv x env w :
  sync_runs x env w = true →
  env_set env "R2_ACCESS_KEY_ID" = true ∧ env_set env "R2_SECRET_ACCESS_KEY" = true
  ∧ env_set env "CF_ACCOUNT_ID" = true ∧ mount_ok x = true
  ∧ check_throws x = None ∧ is_Some (openclaw_json (local w))
  ∧ check_logged x = true ∧ sync_throws x = None ∧ cat_throws x = None.
Proof.
  unfold sync_runs. rewrite !andb_true_iff, !bool_decide_eq_true. naive_solver.
Qed.

Lemma sync_runs_result x env w :
  sync_runs x env w = true →
  syncToR2 x env w
  = let w' := run_sync x w in
    let stamp := trim (default EmptyString (backup_sync w')) in
    (if bool_decide (is_Some (backup_sync w')) && looks_like_date stamp
     then {| success := true; lastSync := Some stamp; error := None; details := None |}
     else failed "Sync failed"
            (Some (or_str (sync_stderr x)
                     (or_str (sync_stdout x) "No timestamp file created"))),
     w', [CheckConfig; SyncCmd; CatLastSync]).
Proof.
  intros (A & B & C & M & CT & CFG & LG & ST & CAT)%sync_runs_inv.
  unfold syncToR2. rewrite A, B, C, M, CT, ST, CAT. simpl.
  rewrite bool_decide_eq_true_2, LG by done. simpl.
  by case_match.
Qed.

Lemma run_sync_incomplete x w :
  sync_completes x = false → backup_sync (run_sync x w) = backup_sync w.
Proof.
  unfold sync_completes, run_sync.
  destruct (rsync_config x); [done|]. destruct (rsync_workspace x); [done|].
  destruct (rsync_skills x); [done|]. by rewrite !bool_decide_eq_true_2.
Qed.

Lemma run_sync_complete x w :
  sync_completes x = true →
  run_sync x w
  = {| lock_dir := lock_dir w; local := local w; workspace := workspace w;
       skills := skills w; backup_sync := Some (now x);
       backup_openclaw := mirror (local w) (backup_openclaw w);
       backup_workspace := workspace w; backup_skills := skills w |}.
Proof.
  unfold sync_completes, run_sync.
  intros [[H1 H2]%andb_true_iff H3]%andb_true_iff.
  apply bool_decide_eq_true_1 in H1, H2, H3. by rewrite H1, H2, H3.
Qed.

(** X4. [syncToR2] judges by the marker file alone. When the
    guards pass but an [rsync] of the chain fails, so that no marker is
    written, and the bucket holds the marker of an earlier sync that
    looks like a date, the function reports success with that earlier
    time; the marker is unchanged. *)
Theorem sync_reports_old_marker (x : Sync.Ext) (env : Env) (w : World) (t : string) :
  sync_runs x env w = true → sync_completes x = false →
  backup_sync w = Some t → looks_like_date (trim t) = true →
  success (syncToR2 x env w).1.1 = true
  ∧ lastSync (syncToR2 x env w).1.1 = Some (trim t)
  ∧ backup_sync (syncToR2 x env w).1.2 = Some t.
Proof.
  intros Hr Hc Ht Hd. rewrite (sync_runs_result _ _ _ Hr). simpl.
  rewrite (run_sync_incomplete _ _ Hc), Ht. simpl. by rewrite Hd.
Qed.

Lemma sync_reports_old_marker_witness :
  success (syncToR2 Cases.failing_rsync Sample.r2_env Sample.configured).1.1 = true
  ∧ lastSync (syncToR2 Cases.failing_rsync Sample.r2_env Sample.configured).1.1
    = Some Sample.stamp
  ∧ backup_sync (syncToR2 Cases.failing_rsync Sample.r2_env Sample.configured).1.2
    = Some Sample.stamp.
Proof.
  apply (sync_reports_old_marker Cases.failing_rsync Sample.r2_env Sample.configured
           Sample.stamp); reflexivity.
Defined.

(** X5. Backup, then restore. After a sync in which every [rsync]
    succeeds, a boot in a fresh container on the same bucket restores
    the configuration: the configuration document and the credential
    store it then has are the ones that were synced, and if the copy of
    the marker succeeds the local marker is the time of the sync. *)
Theorem sync_then_restore (x : Sync.Ext) (env : Env) (w : World) (xb : Boot.Ext) :
  sync_runs x env w = true → sync_completes x = true → cp_config xb = None →
  let bucket := (syncToR2 x env w).1.2 in
  let r := restore xb (fresh_container bucket) in
  CpConfig true ∈ r.2
  ∧ is_Some (openclaw_json (local r.1))
  ∧ openclaw_json (local r.1) = openclaw_json (local w)
  ∧ auth_profiles (local r.1) = auth_profiles (local w)
  ∧ (cp_marker_ok xb = true → last_sync (local r.1) = Some (now x)).
Proof.
  intros Hr Hc Hcp. rewrite (sync_runs_result _ _ _ Hr). simpl.
  rewrite (run_sync_complete _ _ Hc).
  apply sync_runs_inv in Hr as (_ & _ & _ & _ & _ & Hcfg & _).
  set (b := fresh_container _).
  assert (restore_config xb b
          = (with_local
               (let d := overlay (mirror (local w) (backup_openclaw w)) empty_dir in
                if cp_marker_ok xb then with_last_sync (Some (now x)) d else d) b,
             [CpConfig true; Echo "Restored config from R2 backup"])) as Hrc.
  { unfold restore_config, should_restore_from_r2. unfold b at 1 2 3. simpl.
    rewrite bool_decide_eq_true_2 by done. by rewrite Hcp. }
  split.
  { unfold restore. rewrite Hrc.
    destruct (restore_workspace xb _) as [w2 e2].
    destruct (restore_skills xb w2) as [w3 e3]. simpl. list_in. }
  rewrite Boot_facts.restore_local, Hrc. simpl.
  destruct Hcfg as [c Hc'].
  destruct (cp_marker_ok xb); simpl; rewrite Hc'; simpl;
    repeat split; try done; by destruct (auth_profiles (local w)).
Qed.

Lemma sync_then_restore_witness :
  openclaw_json
    (local (restore Sample.quiet
              (fresh_container
                 (syncToR2 Sample.syncing Sample.r2_env Sample.configured).1.2)).1)
  = Some (Doc (JObj ∅)).
Proof.
  destruct (sync_then_restore Sample.syncing Sample.r2_env Sample.configured Sample.quiet)
    as (_ & _ & H & _); [reflexivity..|].
  exact H.
Defined.

Lemma run_sync_container x w : same_container w (run_sync x w).
Proof.
  unfold run_sync.
  destruct (rsync_config x); [done|]. destruct (rsync_workspace x); [done|].
  by destruct (rsync_skills x).
Qed.



End Backup_facts.

(** ** More on the configuration patch *)

Module Patch_more.
Import Js Patch Spec Slots Frame Js_facts Patch_facts.

#[local] Arguments update : simpl never.
#[local] Arguments getp : simpl never.
#[local] Arguments or_obj : simpl never.
#[local] Arguments truthy : simpl never.

Lemma apply_keys_other ts m M k :
  k ∉ ts.*1 → apply_keys ts m = Some M → M !! k = m !! k.
Proof.
  revert m. induction ts as [|[k' T] ts IH]; intros m Hk; simpl.
  { by intros [= <-]. }
  apply not_elem_of_cons in Hk as [Hne Hk]. simpl in Hne.
  intros (c & _ & HM)%bind_Some. rewrite (IH _ Hk HM).
  by rewrite lookup_set_slot_ne.
Qed.

Lemma restringify_lookup (m : gmap string json) k :
  stringify <$> ((parse <$> m) !! k) = m !! k.
Proof.
  rewrite lookup_fmap. destruct (m !! k); simpl; [|done]. by rewrite stringify_parse.
Qed.

Lemma root_object_load f :
  root_object f = true → load f = VObj (parse <$> block (file_get [] f)).
Proof.
  unfold root_object, load, file_get, block.
  destruct f as [[|[| | | | |m]]|]; simpl; try done; by rewrite ?fmap_empty.
Qed.

(** The patch of a document that holds an object. *)
Lemma patched_object env f d :
  root_object f = true → patch_document env f = Some d →
  ∃ M, apply_keys (root_keys env) (parse <$> block (file_get [] f)) = Some M
       ∧ d = JObj (stringify <$> M).
Proof.
  intros Hf. unfold patch_document. rewrite (root_object_load _ Hf), patch_config_lens.
  destruct (apply_keys _ _) as [M|]; [|done]. intros [= <-]. by exists M.
Qed.

(** The patch of a document that holds something else. *)
Lemma patched_other env f d :
  root_object f = false → patch_document env f = Some d → f = Some (Doc d).
Proof.
  unfold root_object, patch_document.
  destruct f as [[|d0]|]; try done. simpl. intros Hno.
  destruct (patch_config env (parse d0)) as [r|] eqn:Hr; [|done]. intros [= <-].
  destruct (patch_config_keeps env (Some (parse d0)) r Hr) as (b & [= <-] & Hs).
  do 2 f_equal. rewrite <- (stringify_parse d0). symmetry. apply skel_not_obj; [done|].
  intros m Hm. by destruct d0.
Qed.

Lemma file_get_1 k f : file_get [k] f = block (file_get [] f) !! k.
Proof.
  unfold file_get. destruct f as [[|d]|]; simpl; rewrite ?lookup_empty; try done.
  destruct d as [| | | | |m]; simpl; rewrite ?lookup_empty; try done.
  by destruct (m !! k).
Qed.

Lemma root_keys_names env : (root_keys env).*1 = patched_sections.
Proof. done. Qed.

Lemma root_keys_nodup env : NoDup (root_keys env).*1.
Proof. by apply nodup_keys. Qed.

Lemma or_obj_cases (o : option json) :
  or_obj (parse <$> o) = VObj (parse <$> block o)
  ∨ ∃ d, o = Some d ∧ (∀ m, d ≠ JObj m) ∧ or_obj (parse <$> o) = parse d.
Proof.
  destruct (object_or_nothing o) eqn:E; [left; by apply or_obj_block|].
  right. destruct o as [d|]; [|done]. exists d. split; [done|].
  unfold object_or_nothing, json_truthy in E. split.
  - intros m ->. done.
  - destruct d; try done; apply negb_false_iff in E; simpl in E;
      unfold or_obj; simpl; by rewrite E.
Qed.

Lemma disabled_channel_key env c :
  channel_enabled env c = false → channel_name c ∉ (channels_keys env).*1.
Proof.
  unfold channels_keys. destruct c; simpl; intros ->;
    repeat (case_match; simpl); rewrite ?not_elem_of_cons; repeat split;
      try done; apply not_elem_of_nil.
Qed.

(** What the step does to [config.channels] as a whole. *)
Lemma patched_channels env f d :
  root_object f = true → patch_document env f = Some d →
  ∃ r, channels_prog env (Some (or_obj (parse <$> file_get ["channels"] f))) = Some r
       ∧ file_get ["channels"] (Some (Doc d)) = Some (stringify r).
Proof.
  intros Hf Hd. destruct (patched_object env f d Hf Hd) as (M & HM & ->).
  assert (("channels", ensure (channels_prog env)) ∈ root_keys env) as Hin
    by (unfold root_keys; list_in).
  destruct (apply_keys_lookup _ _ _ _ _ (root_keys_nodup env) Hin HM) as (c & Hc & HMc).
  unfold ensure in Hc. rewrite lookup_fmap, <- file_get_1 in Hc.
  destruct (channels_prog env _) as [r|]; [|done]. simpl in Hc. injection Hc as <-.
  exists r. split; [done|]. simpl. by rewrite lookup_fmap, HMc.
Qed.



(** One level down: a section that is an object or nothing, and the
    object its program leaves. *)
Lemma ensure_level (F : option value → option value) ts (o : option json) c :
  (∀ m, F (Some (VObj m)) = VObj <$> apply_keys ts m) →
  object_or_nothing o = true → ensure F (parse <$> o) = Some c →
  ∃ M, apply_keys ts (parse <$> block o) = Some M ∧ c = Some (VObj M).
Proof.
  intros HF Ho. unfold ensure. rewrite (or_obj_block _ Ho), HF.
  destruct (apply_keys ts _) as [M|]; [|done]. intros [= <-]. by exists M.
Qed.

Lemma apply_keys_const ts m M k v :
  NoDup ts.*1 → (k, const v) ∈ ts → apply_keys ts m = Some M → M !! k = Some v.
Proof.
  intros Hnd Hin HM.
  destruct (apply_keys_lookup _ _ _ _ _ Hnd Hin HM) as (c & [= <-] & ?). done.
Qed.

Lemma gateway_keys_nodup env : NoDup (gateway_keys env).*1.
Proof.
  unfold gateway_keys.
  destruct (env_set env "OPENCLAW_GATEWAY_TOKEN");
    destruct (String.eqb (getenv env "OPENCLAW_DEV_MODE") "true");
    by apply nodup_keys.
Qed.

(** The gateway section of the written document. *)
Lemma patched_gateway env f d :
  section_shape "gateway" f = true → patch_document env f = Some d →
  ∃ G, apply_keys (gateway_keys env) (parse <$> block (file_get ["gateway"] f)) = Some G
       ∧ file_get ["gateway"] (Some (Doc d)) = Some (JObj (stringify <$> G)).
Proof.
  intros [Hf Hg]%andb_true_iff Hd.
  destruct (patched_object env f d Hf Hd) as (M & HM & ->).
  assert (("gateway", ensure (gateway_prog env)) ∈ root_keys env) as Hin
    by (unfold root_keys; list_in).
  destruct (apply_keys_lookup _ _ _ _ _ (root_keys_nodup env) Hin HM) as (c & Hc & HMc).
  rewrite lookup_fmap, <- file_get_1 in Hc.
  destruct (ensure_level _ _ _ _ (gateway_lens env) Hg Hc) as (G & HG & ->).
  exists G. split; [done|]. simpl. by rewrite lookup_fmap, HMc.
Qed.

Lemma jget_app p q j : jget (p ++ q) j = jget p j ≫= jget q.
Proof.
  revert j. induction p as [|k p IH]; intros j; simpl; [done|].
  destruct j; try done. destruct (m !! k) as [j'|]; simpl; [apply IH|done].
Qed.

Lemma file_get_under k q f j :
  file_get [k] f = Some j → file_get (k :: q) f = jget q j.
Proof.
  unfold file_get. destruct f as [[|d]|]; try done.
  change (k :: q) with ([k] ++ q). rewrite jget_app. by intros ->.
Qed.

Lemma file_get_block k q f :
  file_get (k :: q) f = jget q (JObj (block (file_get [k] f))) ∨ q = [].
Proof.
  destruct q as [|k' q]; [by right|]. left.
  unfold file_get. destruct f as [[|d]|]; simpl; rewrite ?lookup_empty; try done.
  destruct d as [| | | | |m]; simpl; rewrite ?lookup_empty; try done.
  destruct (m !! k) as [[| | | | |m']|]; simpl; rewrite ?lookup_empty; try done.
Qed.

Lemma gateway_keys_in env :
  ("port", const port_value) ∈ gateway_keys env
  ∧ ("mode", const (VStr "local")) ∈ gateway_keys env
  ∧ ("trustedProxies", const proxies_value) ∈ gateway_keys env
  ∧ ("http", ensure http_prog) ∈ gateway_keys env
  ∧ (env_set env "OPENCLAW_GATEWAY_TOKEN" = true →
     ("auth", ensure (auth_prog env)) ∈ gateway_keys env)
  ∧ (∀ k, k ∉ ["port"; "mode"; "trustedProxies"; "auth"; "controlUi"; "http"] →
       k ∉ (gateway_keys env).*1)
  ∧ (env_set env "OPENCLAW_GATEWAY_TOKEN" = false → "auth" ∉ (gateway_keys env).*1).
Proof.
  unfold gateway_keys.
  destruct (env_set env "OPENCLAW_GATEWAY_TOKEN");
    destruct (String.eqb (getenv env "OPENCLAW_DEV_MODE") "true"); simpl;
    repeat split; try done; try list_in; intros k; list_in.
Qed.



Lemma truthy_stringify (x : option value) :
  json_truthy (stringify <$> x) = truthy x.
Proof. unfold json_truthy. by destruct x as [[]|]. Qed.

Lemma stringify_open (x : option value) :
  stringify <$> x = Some (JStr "open") → is_str "open" x = true.
Proof. destruct x as [[]|]; simpl; try done. by intros [= ->]. Qed.

Lemma truthy_allow_of allow cur :
  (∀ a, allow = Some a → truthy (Some a) = true) →
  truthy (allow_of allow true cur) = true.
Proof.
  intros Ha. unfold allow_of. destruct allow as [a|]; [by apply Ha|].
  simpl. by destruct (truthy cur) eqn:E.
Qed.

Lemma overlay_policy_ok pk pol allow M :
  pk ≠ "allowFrom" → (∀ a, allow = Some a → truthy (Some a) = true) →
  dm_policy_ok pk (stringify <$> policy_overlay pk pol allow M).
Proof.
  intros Hpk Ha. unfold dm_policy_ok.
  rewrite !lookup_fmap, overlay_policy, overlay_allow, !truthy_stringify by done.
  split; [apply truthy_policy_of|].
  intros ->%stringify_open. by apply truthy_allow_of.
Qed.

Lemma policy_of_env p cur :
  nonempty p = true → policy_of (Some p) cur = Some (VStr p).
Proof. unfold policy_of. simpl. unfold truthy. by intros ->. Qed.

Lemma telegram_block_lookup env (old : gmap string json) k :
  k ∈ VALID_TELEGRAM_KEYS → k ≠ "botToken" → k ≠ "enabled" →
  (<["enabled" := VBool true]>
     (<["botToken" := VStr (getenv env "TELEGRAM_BOT_TOKEN")]>
        (filterKeys (or_obj (Some (VObj (parse <$> old)))) VALID_TELEGRAM_KEYS).1)) !! k
  = parse <$> (old !! k).
Proof.
  intros Hk H1 H2. rewrite !lookup_insert_ne by done.
  rewrite or_obj_obj, filterKeys_lookup, lookup_fmap. by case_decide.
Qed.

Lemma stringify_parse_opt (o : option json) : stringify <$> (parse <$> o) = o.
Proof. destruct o; simpl; [|done]. by rewrite stringify_parse. Qed.



End Patch_more.

(** ** The models and agents sections *)

Module Models_facts.
Import Js Patch Spec Slots Frame Js_facts Patch_facts.

#[local] Arguments update : simpl never.
#[local] Arguments getp : simpl never.
#[local] Arguments or_obj : simpl never.
#[local] Arguments truthy : simpl never.

Lemma file_get_bind k k' q f :
  file_get (k :: k' :: q) f = file_get [k] f ≫= jget (k' :: q).
Proof.
  unfold file_get. destruct f as [[|d]|]; try done.
  change (k :: k' :: q) with ([k] ++ k' :: q). apply Patch_more.jget_app.
Qed.

(** What the step does to one of the four sections. *)
Lemma patched_section env f d k T :
  root_object f = true → (k, T) ∈ root_keys env → patch_document env f = Some d →
  ∃ c, T (parse <$> file_get [k] f) = Some c
       ∧ file_get [k] (Some (Doc d)) = stringify <$> c.
Proof.
  intros Hf Hin Hd. destruct (Patch_more.patched_object env f d Hf Hd) as (M & HM & ->).
  destruct (apply_keys_lookup _ _ _ _ _ (Patch_more.root_keys_nodup env) Hin HM)
    as (c & Hc & HMc).
  rewrite lookup_fmap, <- Patch_more.file_get_1 in Hc.
  exists c. split; [done|]. simpl. rewrite lookup_fmap, HMc. by destruct c.
Qed.

Lemma opt_member_jget (o : option json) k :
  opt_member (parse <$> o) k = parse <$> (o ≫= jget [k]).
Proof.
  destruct o as [[| | | |es|m]|]; simpl; try done.
  rewrite lookup_fmap. by destruct (m !! k).
Qed.

Lemma jget_other q j : (∀ m, j ≠ JObj m) → q ≠ [] → jget q j = None.
Proof. destruct q; [done|]. destruct j; try done. intros H. by destruct (H m). Qed.

Lemma drop_stale_lookup (pj : json) k :
  jget [k] (stringify (drop_stale_providers (parse pj)))
  = if starts_with stale_prefix k then None else jget [k] pj.
Proof.
  destruct pj as [| | | |es|m]; simpl; try (by destruct (starts_with _ _)).
  rewrite lookup_fmap.
  destruct (starts_with stale_prefix k) eqn:E.
  - rewrite (proj2 (map_lookup_filter_None _ _ _)); [done|].
    right. intros x _. simpl. by rewrite E.
  - destruct (m !! k) as [e|] eqn:Ee; simpl.
    + rewrite (map_lookup_filter_Some_2 _ _ k (parse e)); [| |done].
      * simpl. by rewrite stringify_parse.
      * by rewrite lookup_fmap, Ee.
    + rewrite (proj2 (map_lookup_filter_None _ _ _)); [done|].
      left. by rewrite lookup_fmap, Ee.
Qed.

(** The providers after the cleanup. *)
Lemma clean_models_providers (o : option json) c k :
  clean_models (parse <$> o) = Some c →
  (stringify <$> c) ≫= jget ["providers"; k]
  = if starts_with stale_prefix k then None else o ≫= jget ["providers"; k].
Proof.
  unfold clean_models.
  assert (∀ j, (∀ m, j ≠ JObj m) →
            Some j ≫= jget ["providers"; k]
            = if starts_with stale_prefix k then None else Some j ≫= jget ["providers"; k])
    as Hother.
  { intros j Hj. pose proof (jget_other ["providers"; k] j Hj) as H.
    simpl in *. rewrite H by done. by destruct (starts_with _ _). }
  destruct (truthy (parse <$> o)) eqn:Et.
  2:{ intros [= <-]. rewrite Patch_more.stringify_parse_opt.
      destruct o as [j|]; [|by destruct (starts_with _ _)].
      apply Hother. intros m ->. done. }
  destruct o as [j|]; [|done].
  assert ((∃ m, j = JObj m) ∨ (∀ m, j ≠ JObj m)) as [[m ->]|Hno].
  { destruct j; try (by right). left. by eexists. }
  2:{ change (parse <$> Some j) with (Some (parse j)) in *.
      rewrite getp_truthy, prop_parse_other, getp_nil by done. simpl.
      change (truthy None) with false. cbv iota. intros [= <-].
      change (Some (parse j)) with (parse <$> Some j).
      rewrite Patch_more.stringify_parse_opt. by apply Hother. }
  change (parse <$> Some (JObj m)) with (Some (VObj (parse <$> m))).
  rewrite getp_obj, getp_nil. simpl. rewrite lookup_fmap.
  destruct (m !! "providers") as [pj|] eqn:Ep; simpl.
  2:{ intros [= <-]. simpl. rewrite lookup_fmap, lookup_fmap, Ep. simpl.
      by destruct (starts_with _ _). }
  destruct (truthy (Some (parse pj))) eqn:Etp.
  - rewrite update_obj, lookup_fmap, Ep. simpl.
    rewrite update_here by (by destruct pj). simpl. intros [= <-]. simpl.
    rewrite lookup_fmap, lookup_insert_eq. simpl.
    apply drop_stale_lookup.
  - intros [= <-]. simpl. rewrite lookup_fmap, lookup_fmap, Ep. simpl.
    rewrite stringify_parse.
    destruct pj as [| | | |es|pm]; try done; by destruct (starts_with _ _).
Qed.

Lemma primary_jget (o : option json) :
  opt_member (opt_member (opt_member (parse <$> o) "defaults") "model") "primary"
  = parse <$> (o ≫= jget ["defaults"; "model"; "primary"]).
Proof.
  rewrite !opt_member_jget. f_equal.
  destruct o as [j|]; [|done]. simpl.
  destruct j as [| | | |es|m]; try done. simpl.
  destruct (m !! "defaults") as [[| | | |es|dm]|]; try done. simpl.
  by destruct (dm !! "model") as [[| | | |es|mm]|].
Qed.

(** The default model after the cleanup. *)
Lemma clean_agents_primary (o : option json) c :
  clean_agents (parse <$> o) = Some c →
  let old := o ≫= jget ["defaults"; "model"; "primary"] in
  (∀ s, (stringify <$> c) ≫= jget ["defaults"; "model"; "primary"] = Some (JStr s) →
        starts_with stale_prefix s = false)
  ∧ ((∀ s, old = Some (JStr s) → starts_with stale_prefix s = false) →
     stringify <$> c = o).
Proof.
  unfold clean_agents. rewrite primary_jget. cbv zeta.
  set (old := o ≫= jget ["defaults"; "model"; "primary"]).
  destruct (truthy (parse <$> old)) eqn:Et.
  2:{ intros [= <-]. rewrite Patch_more.stringify_parse_opt. fold old. split; [|done].
      intros s Hs. rewrite Hs in Et. destruct s; [done|]. done. }
  destruct old as [[| | |t| |]|] eqn:Eo; try done.
  change (parse <$> Some (JStr t)) with (Some (VStr t)). cbv iota.
  destruct (starts_with stale_prefix t) eqn:Est.
  2:{ intros [= <-]. rewrite Patch_more.stringify_parse_opt. fold old. rewrite Eo.
      split; [|done]. by intros s [= <-]. }
  subst old.
  destruct o as [[| | | |es|m]|]; try done. simpl in Eo.
  destruct (m !! "defaults") as [[| | | |es|dm]|] eqn:Ed; try done.
  simpl. rewrite update_obj, lookup_fmap, Ed. simpl.
  intros [= <-]. simpl.
  rewrite lookup_fmap, lookup_insert_eq. simpl.
  rewrite lookup_fmap, lookup_delete_eq. simpl. split; [done|].
  intros H. specialize (H t eq_refl). congruence.
Qed.

Lemma root_keys_in env :
  ("models", models_slot env) ∈ root_keys env
  ∧ ("agents", agents_slot env) ∈ root_keys env.
Proof. unfold root_keys. split; list_in. Qed.



(** *** The model override *)

Lemma substring_all s : String.substring 0 (String.length s) s = s.
Proof. induction s as [|a s IH]; simpl; [done|]. by rewrite IH. Qed.

Lemma substring_from_cons n a s :
  substring_from (S n) (String a s) = substring_from n s.
Proof. done. Qed.

(** [raw.substring(0, i) + '/' + raw.substring(i + 1)] is [raw] when
    [i] is where the first slash is. *)
Lemma split_at_slash raw i :
  index_of "/" raw = Some i →
  String.substring 0 i raw +:+ "/" +:+ substring_from (i + 1) raw = raw.
Proof.
  revert i. induction raw as [|a raw IH]; intros i; simpl; [done|].
  destruct (Ascii.eqb a "/") eqn:Ea.
  - intros [= <-]. apply Ascii.eqb_eq in Ea as ->. simpl.
    unfold substring_from. simpl. by rewrite Nat.sub_0_r, substring_all.
  - destruct (index_of "/" raw) as [i'|]; simpl; [|done]. intros [= <-].
    change (S i' + 1) with (S (i' + 1)). rewrite substring_from_cons.
    transitivity (String a (String.substring 0 i' raw +:+ "/"
                              +:+ substring_from (i' + 1) raw)); [reflexivity|].
    f_equal. by apply IH.
Qed.

Lemma overriding_inv env o :
  overriding env = Some o →
  cleaning env = false
  ∧ providerName o +:+ "/" +:+ modelId o
    = stale_prefix +:+ getenv env "CF_AI_GATEWAY_MODEL"
  ∧ starts_with stale_prefix (providerName o) = true.
Proof.
  unfold overriding, cleaning.
  destruct (env_set env "CF_AI_GATEWAY_MODEL"); [|done]. simpl.
  intros Ho. split; [done|]. unfold gateway_override in Ho.
  destruct (index_of "/" (getenv env "CF_AI_GATEWAY_MODEL")) as [[|i]|] eqn:Ei;
    try done.
  pose proof (split_at_slash _ _ Ei) as Hraw.
  set (raw := getenv env "CF_AI_GATEWAY_MODEL") in *.
  set (gw := String.substring 0 (S i) raw) in *.
  set (mid := substring_from (S i + 1) raw) in *.
  clearbody gw mid raw. rewrite <- Hraw. clear Hraw Ei.
  assert (starts_with stale_prefix ("cf-ai-gw-" +:+ gw) = true) as Hst.
  { apply String.prefix_correct. by destruct gw. }
  repeat case_match; try done; injection Ho as <-; (split; [reflexivity|exact Hst]).
Qed.

(** A section that is an object or nothing, a block in it that is one
    too, and what two nested programs leave there. *)
Lemma nested_level (F G : option value → option value) inner ts
    (o : option json) c :
  (∀ m, F (Some (VObj m)) = VObj <$> apply_keys [(inner, ensure G)] m) →
  (∀ m, G (Some (VObj m)) = VObj <$> apply_keys ts m) →
  object_or_nothing o = true → object_or_nothing (block o !! inner) = true →
  ensure F (parse <$> o) = Some c →
  ∃ P, apply_keys ts (parse <$> block (block o !! inner)) = Some P
       ∧ (∀ k, (stringify <$> c) ≫= jget [inner; k] = stringify <$> (P !! k))
       ∧ (∀ k, k ≠ inner → (stringify <$> c) ≫= jget [k] = block o !! k).
Proof.
  intros HF HG Ho Hi Hc.
  destruct (Patch_more.ensure_level _ _ _ _ HF Ho Hc) as (M & HM & ->).
  assert (NoDup [(inner, ensure G)].*1) as Hnd by (repeat constructor; set_solver).
  destruct (apply_keys_lookup _ _ _ inner (ensure G) Hnd ltac:(list_in) HM)
    as (ci & Hci & HMi).
  rewrite lookup_fmap in Hci.
  destruct (Patch_more.ensure_level _ _ _ _ HG Hi Hci) as (P & HP & ->).
  exists P. split; [done|]. split.
  - intros k. simpl. rewrite lookup_fmap, HMi. simpl. rewrite lookup_fmap.
    by destruct (P !! k).
  - intros k Hk. simpl. rewrite lookup_fmap.
    assert (k ∉ [(inner, ensure G)].*1) as Hno by (simpl; set_solver).
    rewrite (Patch_more.apply_keys_other [(inner, ensure G)] _ _ k Hno HM).
    rewrite Patch_more.restringify_lookup. by destruct (block o !! k).
Qed.

Lemma file_get_block_1 a k f : block (file_get [a] f) !! k = file_get [a; k] f.
Proof. by rewrite Token_facts.file_get_2, <- Patch_more.file_get_1. Qed.

Lemma file_get_block_2 a b k f :
  block (block (file_get [a] f) !! b) !! k = file_get [a; b; k] f.
Proof. by rewrite Token_facts.file_get_3, <- Patch_more.file_get_1. Qed.



(** Neither cleanup nor override: the two sections are written back as
    they were read. *)
Lemma models_slot_keep env s :
  cleaning env = false → overriding env = None →
  models_slot env s = Some s ∧ agents_slot env s = Some s.
Proof. unfold models_slot, agents_slot. by intros -> ->. Qed.



End Models_facts.

(** ** More on the credential injection *)

Module Token_more.
Import Js Token Spec Slots Boot Frame Js_facts Patch_facts Token_facts.

#[local] Arguments update : simpl never.
#[local] Arguments getp : simpl never.
#[local] Arguments or_obj : simpl never.
#[local] Arguments truthy : simpl never.

Lemma token_step_skip env w :
  token_persisted (auth_profiles (local w)) = true →
  token_step env w
  = (w, if env_set env "CLAUDE_SETUP_TOKEN" then [NodeToken true] else [], None).
Proof.
  intros Hp. unfold token_step. destruct (env_set env "CLAUDE_SETUP_TOKEN"); [|done].
  rewrite inject_skip by done. simpl. by rewrite world_eta.
Qed.



End Token_more.

(** ** The admin API *)

Module Api_facts.
Import Js Boot Spec Frame Api.

(** *** [toBase64] *)

Lemma byte_lor a b :
  (0 <= a < 256)%Z → (0 <= b < 256)%Z → (0 <= Z.lor a b < 256)%Z.
Proof.
  intros Ha Hb. split; [apply Z.lor_nonneg; lia|].
  destruct (decide (Z.lor a b = 0%Z)) as [->|Hne]; [lia|].
  assert (0 <= Z.lor a b)%Z as Hnn by (apply Z.lor_nonneg; lia).
  apply (Z.log2_lt_pow2 _ 8); [lia|].
  rewrite Z.log2_lor by lia.
  apply Z.max_lub_lt.
  - destruct (decide (a = 0%Z)) as [->|]; [done|]. apply Z.log2_lt_pow2; lia.
  - destruct (decide (b = 0%Z)) as [->|]; [done|]. apply Z.log2_lt_pow2; lia.
Qed.

Lemma land_63 x : (0 <= x)%Z → (0 <= Z.land x 63 < 64)%Z.
Proof.
  intros Hx. change 63%Z with (Z.ones 6). rewrite Z.land_ones by lia.
  apply Z.mod_pos_bound. lia.
Qed.

Lemma shiftr_range x k n :
  (0 <= k)%Z → (0 <= x < n * 2 ^ k)%Z → (0 <= Z.shiftr x k < n)%Z.
Proof.
  intros Hk Hx. rewrite Z.shiftr_div_pow2 by done. split.
  - apply Z.div_pos; lia.
  - apply Z.div_lt_upper_bound; lia.
Qed.

Lemma utf8_bytes c : is_scalar c → Forall is_byte (utf8 c).
Proof.
  unfold is_scalar, is_byte, utf8. intros Hc.
  assert (∀ x, (0 <= x)%Z → (0 <= Z.lor 128 (Z.land x 63) < 256)%Z) as Hcont.
  { intros x Hx. pose proof (land_63 x Hx). apply byte_lor; lia. }
  destruct (Z.ltb_spec c 128); [repeat constructor; lia|].
  destruct (Z.ltb_spec c 2048).
  { pose proof (shiftr_range c 6 32).
    repeat constructor; try (apply Hcont; lia); apply byte_lor; lia. }
  destruct (Z.ltb_spec c 65536).
  { pose proof (shiftr_range c 12 16). pose proof (Z.shiftr_nonneg c 6).
    repeat constructor; try (apply Hcont; lia); apply byte_lor; lia. }
  pose proof (shiftr_range c 18 8). pose proof (Z.shiftr_nonneg c 6).
  pose proof (Z.shiftr_nonneg c 12).
  repeat constructor; try (apply Hcont; lia); apply byte_lor; lia.
Qed.

Lemma scalars_range n (s : list Z) :
  (List.length s ≤ n)%nat → code_units s → Forall is_scalar (scalars s).
Proof.
  unfold code_units, is_scalar.
  revert s. induction n as [|n IH]; intros s Hn Hs.
  { destruct s; [constructor|simpl in Hn; lia]. }
  destruct s as [|u rest]; [constructor|].
  apply Forall_cons in Hs as [Hu Hrest]. simpl in Hn. simpl.
  destruct (is_high u) eqn:Eh; unfold is_high in Eh.
  - destruct rest as [|v rest']; [repeat constructor; lia|].
    pose proof Hrest as Hrest0.
    apply Forall_cons in Hrest as [Hv Hrest']. simpl in Hn.
    destruct (is_low v) eqn:El; unfold is_low in El.
    + constructor; [lia|]. apply IH; [lia|done].
    + constructor; [lia|]. apply IH; [simpl; lia|done].
  - destruct (is_low u).
    + constructor; [lia|]. apply IH; [lia|done].
    + constructor; [lia|]. apply IH; [lia|done].
Qed.

Lemma encode_bytes str : code_units str → Forall is_byte (encode str).
Proof.
  intros Hs. unfold encode.
  pose proof (scalars_range _ str (le_n _) Hs) as Hc.
  induction Hc as [|c cs Hc _ IH]; [constructor|].
  simpl. apply Forall_app. split; [by apply utf8_bytes|done].
Qed.

Lemma list_ind3 {A} (P : list A → Prop) :
  P [] → (∀ a, P [a]) → (∀ a b, P [a; b]) →
  (∀ a b c l, P l → P (a :: b :: c :: l)) → ∀ l, P l.
Proof.
  intros H0 H1 H2 H3 l.
  assert (P l ∧ (∀ a, P (a :: l)) ∧ (∀ a b, P (a :: b :: l))) as [? _]; [|done].
  induction l as [|c l (IH0 & IH1 & IH2)]; [done|].
  split; [apply IH1|]. split; [intros a; apply IH2|]. intros a b. by apply H3.
Qed.

Lemma alphabet_chars : Forall (λ a, base64_char a = true) alphabet.
Proof. unfold alphabet. simpl. repeat constructor. Qed.

Lemma digit64_char n : base64_char (digit64 n) = true.
Proof.
  unfold digit64.
  destruct (nth_in_or_default (Z.to_nat n) alphabet "="%char) as [Hin| ->]; [|done].
  pose proof alphabet_chars as H. rewrite Forall_forall in H.
  apply H. by apply list_elem_of_In.
Qed.

Lemma group64_chars n pad :
  Forall (λ a, base64_char a = true) (group64 n pad) ∧ ((pad ≤ 4)%nat → List.length (group64 n pad) = 4).
Proof.
  unfold group64. split.
  - apply Forall_app. split.
    + apply Forall_take. repeat constructor; apply digit64_char.
    + by apply Forall_replicate.
  - intros Hp. rewrite length_app, length_take, length_replicate. simpl. lia.
Qed.

Lemma encode64_chars bs :
  Forall (λ a, base64_char a = true) (encode64 bs)
  ∧ List.length (encode64 bs) = 4 * ((List.length bs + 2) / 3).
Proof.
  induction bs as [|a|a b|a b c l [IH1 IH2]] using list_ind3.
  - done.
  - simpl. split; [apply group64_chars|done].
  - simpl. split; [apply group64_chars|done].
  - change (encode64 (a :: b :: c :: l))
      with (group64 (Z.lor (Z.lor (Z.shiftl a 16) (Z.shiftl b 8)) c) 0 ++ encode64 l).
    split; [apply Forall_app; split; [apply group64_chars|done]|].
    rewrite length_app, (proj2 (group64_chars _ 0)), IH2 by lia.
    change (List.length (a :: b :: c :: l)) with (3 + List.length l).
    replace (3 + List.length l + 2) with (1 * 3 + (List.length l + 2)) by lia.
    rewrite Nat.div_add_l by done. lia.
Qed.

Lemma string_list_length l : String.length (string_of_list_ascii l) = List.length l.
Proof. induction l; simpl; congruence. Qed.

(** X14. [toBase64] never throws and gives plain text. For every
    string of UTF-16 code units the function returns; the result has
    four characters for every three bytes of the UTF-8 encoding, rounded
    up, and consists of letters, digits, [+], [/] and [=] only, so that
    it stands for itself between the double quotes of the shell
    command it is put in. *)
Theorem toBase64_plain (str : list Z) :
  code_units str →
  ∃ out, toBase64 str = Some out
    ∧ String.length out = 4 * ((List.length (encode str) + 2) / 3)
    ∧ forallb base64_char (list_ascii_of_string out) = true.
Proof.
  intros Hs. unfold toBase64, btoa.
  pose proof (encode_bytes str Hs) as Hb.
  assert (forallb (λ b, (0 <=? b)%Z && (b <=? 255)%Z) (encode str) = true) as ->.
  { apply forallb_forall. intros b Hin%list_elem_of_In.
    rewrite Forall_forall in Hb. specialize (Hb b Hin). unfold is_byte in Hb. lia. }
  eexists. split; [done|].
  destruct (encode64_chars (encode str)) as [Hc Hl].
  rewrite string_list_length, list_ascii_of_string_of_list_ascii. split; [done|].
  apply forallb_forall. intros a Hin%list_elem_of_In.
  rewrite Forall_forall in Hc. by apply Hc.
Qed.

(** A quotation mark, a dollar sign, a lone surrogate and a pair. *)
Lemma toBase64_plain_witness :
  ∃ out, toBase64 [34; 36; 56320; 55357; 56832]%Z = Some out
    ∧ String.length out = 12
    ∧ forallb base64_char (list_ascii_of_string out) = true.
Proof.
  destruct (toBase64_plain [34; 36; 56320; 55357; 56832]%Z) as (out & H1 & H2 & H3).
  { unfold code_units. repeat constructor; lia. }
  exists out. split; [exact H1|]. split; [|exact H3]. rewrite H2. vm_compute. reflexivity.
Defined.

(** The encoding loses nothing. *)

Lemma lor_shiftl a b k :
  (0 <= k)%Z → (0 <= a)%Z → (0 <= b < 2 ^ k)%Z →
  Z.lor (Z.shiftl a k) b = (a * 2 ^ k + b)%Z.
Proof.
  intros Hk Ha Hb.
  assert (Z.land (Z.shiftl a k) b = 0%Z) as Hland.
  { apply Z.bits_inj'. intros i Hi. rewrite Z.land_spec, Z.bits_0.
    destruct (decide (i < k)%Z).
    - by rewrite Z.shiftl_spec_low.
    - destruct (decide (b = 0%Z)) as [->|]; [by rewrite Z.bits_0, andb_false_r|].
      assert (Z.log2 b < k)%Z by (apply Z.log2_lt_pow2; lia).
      rewrite (Z.bits_above_log2 b i), andb_false_r; [done|lia|lia]. }
  pose proof (Z.add_lor_land (Z.shiftl a k) b) as H.
  rewrite Hland in H. rewrite (Z.shiftl_mul_pow2 a k) in H at 2 by done. lia.
Qed.

Lemma triple_value a b c :
  is_byte a → is_byte b → is_byte c →
  Z.lor (Z.lor (Z.shiftl a 16) (Z.shiftl b 8)) c = (a * 65536 + b * 256 + c)%Z.
Proof.
  unfold is_byte. intros Ha Hb Hc.
  replace (Z.lor (Z.shiftl a 16) (Z.shiftl b 8))
    with (Z.shiftl (Z.lor (Z.shiftl a 8) b) 8).
  2:{ rewrite Z.shiftl_lor, Z.shiftl_shiftl by lia. done. }
  rewrite (lor_shiftl a b 8) by lia.
  rewrite (lor_shiftl _ c 8) by lia. lia.
Qed.

Lemma pair_value a b :
  is_byte a → is_byte b →
  Z.lor (Z.shiftl a 16) (Z.shiftl b 8) = (a * 65536 + b * 256)%Z.
Proof.
  intros Ha Hb. pose proof (triple_value a b 0 Ha Hb ltac:(unfold is_byte; lia)) as H.
  rewrite Z.lor_0_r in H. lia.
Qed.

Lemma sextets n :
  (0 <= n)%Z →
  Z.shiftr n 18 = (n / 262144)%Z
  ∧ Z.land (Z.shiftr n 12) 63 = ((n / 4096) mod 64)%Z
  ∧ Z.land (Z.shiftr n 6) 63 = ((n / 64) mod 64)%Z
  ∧ Z.land n 63 = (n mod 64)%Z.
Proof.
  intros Hn. change 63%Z with (Z.ones 6).
  rewrite !Z.land_ones, !Z.shiftr_div_pow2 by lia. done.
Qed.

Lemma alphabet_lookup i :
  (i < 64)%nat → alphabet !! i = Some (nth i alphabet "="%char).
Proof.
  intros Hi. rewrite nth_lookup.
  destruct (lookup_lt_is_Some_2 alphabet i) as [a ->]; [|done].
  by vm_compute.
Qed.

Lemma digit64_inj x y :
  (0 <= x < 64)%Z → (0 <= y < 64)%Z → digit64 x = digit64 y → x = y.
Proof.
  intros Hx Hy H. unfold digit64 in H.
  assert (NoDup alphabet) as Hnd by (apply (bool_decide_eq_true_1 _); by vm_compute).
  assert (Z.to_nat x = Z.to_nat y); [|lia].
  apply (NoDup_lookup alphabet _ _ (nth (Z.to_nat x) alphabet "="%char) Hnd).
  - apply alphabet_lookup. lia.
  - rewrite H. apply alphabet_lookup. lia.
Qed.

Lemma digit64_not_pad x : (0 <= x < 64)%Z → digit64 x ≠ "="%char.
Proof.
  intros Hx H. unfold digit64 in H.
  assert ("="%char ∈ alphabet) as Hin.
  { apply (list_elem_of_lookup_2 _ (Z.to_nat x)).
    rewrite alphabet_lookup by lia. by rewrite H. }
  revert Hin. apply (bool_decide_eq_false_1 _). by vm_compute.
Qed.

Ltac sextet_bounds n :=
  pose proof (Z.mod_pos_bound (n / 4096) 64 ltac:(lia));
  pose proof (Z.mod_pos_bound (n / 64) 64 ltac:(lia));
  pose proof (Z.mod_pos_bound n 64 ltac:(lia));
  pose proof (Z.div_pos n 262144 ltac:(lia) ltac:(lia));
  pose proof (Z.div_lt_upper_bound n 262144 64 ltac:(lia) ltac:(lia)).

Lemma group64_inj n n' l l' :
  (0 <= n < 16777216)%Z → (0 <= n' < 16777216)%Z →
  group64 n 0 ++ l = group64 n' 0 ++ l' → n = n' ∧ l = l'.
Proof.
  intros Hn Hn'. unfold group64. simpl.
  destruct (sextets n) as (-> & -> & -> & ->); [lia|].
  destruct (sextets n') as (-> & -> & -> & ->); [lia|].
  sextet_bounds n. sextet_bounds n'.
  intros [= E1 E2 E3 E4 Hl].
  apply digit64_inj in E1, E2, E3, E4; try lia.
  split; [|done]. clear -Hn Hn' E1 E2 E3 E4.
  Z.div_mod_to_equations. lia.
Qed.

Lemma encode64_inj bs : ∀ bs',
  Forall is_byte bs → Forall is_byte bs' → encode64 bs = encode64 bs' → bs = bs'.
Proof.
  assert (∀ a b c, is_byte a → is_byte b → is_byte c →
            (0 <= a * 65536 + b * 256 + c < 16777216)%Z) as Hrange
    by (unfold is_byte; lia).
  induction bs as [|a|a b|a b c l IH] using list_ind3; intros bs' Hbs Hbs';
    destruct bs' as [|a' [|b' [|c' l']]];
    repeat match goal with
    | H : Forall _ (_ :: _) |- _ => apply Forall_cons in H as [? H]
    end;
    rewrite ?(triple_value _ _ _), ?(pair_value _ _) in * by done;
    try done.
  all: cbn [encode64];
    rewrite ?(triple_value _ _ _), ?(pair_value _ _) by done;
    rewrite ?Z.shiftl_mul_pow2 by lia; change (2 ^ 16)%Z with 65536%Z.
  all: try match goal with
    | |- group64 ?n 0 ++ ?x = group64 ?m 0 ++ ?y → _ =>
        intros [Hn Hl]%group64_inj;
          [apply IH in Hl; [|done..]; subst;
             unfold is_byte in *; f_equal; [lia|f_equal; [lia|f_equal; lia]]
          |by apply Hrange..]
    end.
  all: unfold is_byte in *.
  all: unfold group64; simpl;
    repeat match goal with
    | |- context [Z.shiftr ?n 18] =>
        destruct (sextets n) as (S1 & S2 & S3 & S4); [unfold is_byte in *; lia|];
        rewrite ?S1, ?S2, ?S3, ?S4; clear S1 S2 S3 S4;
        sextet_bounds n
    end.
  all: try (intros [= E1 E2 E3 E4]).
  all: try (intros [= E1 E2 E3]).
  all: try (intros [= E1 E2]).
  all: try (by destruct l; [|destruct l as [|? [|? ?]]]).
  all: repeat match goal with
    | H : digit64 _ = "="%char |- _ => apply digit64_not_pad in H; [done|lia]
    | H : "="%char = digit64 _ |- _ => symmetry in H
    | H : digit64 _ = digit64 _ |- _ => apply digit64_inj in H; [|lia..]
    end.
  - assert (a = a') as -> by (Z.div_mod_to_equations; lia). done.
  - assert (a = a' ∧ b = b') as [-> ->] by (Z.div_mod_to_equations; lia). done.
Qed.

(** X15. [toBase64] loses nothing of the encoded text: two strings
    with the same result have the same UTF-8 encoding. *)
Theorem toBase64_injective (str str' : list Z) :
  code_units str → code_units str' →
  toBase64 str = toBase64 str' → encode str = encode str'.
Proof.
  intros Hs Hs'. unfold toBase64, btoa.
  pose proof (encode_bytes str Hs) as Hb. pose proof (encode_bytes str' Hs') as Hb'.
  assert (∀ bs, Forall is_byte bs →
            forallb (λ b, (0 <=? b)%Z && (b <=? 255)%Z) bs = true) as Hall.
  { intros bs H. apply forallb_forall. intros b Hin%list_elem_of_In.
    rewrite Forall_forall in H. specialize (H b Hin). unfold is_byte in H. lia. }
  rewrite !Hall by done. intros [= H].
  apply encode64_inj; [done..|].
  by rewrite <- (list_ascii_of_string_of_list_ascii (encode64 (encode str))), H,
    list_ascii_of_string_of_list_ascii.
Qed.

(** A lone surrogate and the replacement character: two strings with
    the same encoding. *)
Lemma toBase64_injective_witness :
  encode [56320]%Z = encode [65533]%Z.
Proof.
  apply toBase64_injective;
    [unfold code_units; repeat constructor; lia..|vm_compute; reflexivity].
Defined.

(** *** The approval of a device *)

Lemma split_on_word c w : lacks c w = true → split_on c w = [w].
Proof.
  unfold lacks. induction w as [|a w IH]; simpl; [done|].
  intros [Ha Hw]%andb_true_iff. apply negb_true_iff in Ha. rewrite Ha.
  by rewrite (IH Hw).
Qed.

Lemma split_on_app c w rest :
  lacks c w = true → split_on c (w +:+ String c rest) = w :: split_on c rest.
Proof.
  unfold lacks. induction w as [|a w IH]; intros Hw.
  - change (EmptyString +:+ String c rest) with (String c rest). simpl.
    by rewrite Ascii.eqb_refl.
  - simpl in Hw. apply andb_true_iff in Hw as [Ha Hw]. apply negb_true_iff in Ha.
    change (String a w +:+ String c rest) with (String a (w +:+ String c rest)).
    simpl. rewrite Ha. by rewrite (IH Hw).
Qed.

Lemma list_ascii_app a b :
  list_ascii_of_string (a +:+ b) = list_ascii_of_string a ++ list_ascii_of_string b.
Proof.
  induction a as [|x a IH]; [done|].
  change (String x a +:+ b) with (String x (a +:+ b)). simpl. by rewrite IH.
Qed.

Lemma request_id_plain requestId :
  valid_request_id requestId = true →
  lacks " " requestId = true
  ∧ forallb plain_char (list_ascii_of_string requestId) = true.
Proof.
  unfold valid_request_id, lacks. intros [_ H]%andb_true_iff.
  rewrite forallb_forall in H. split; apply forallb_forall; intros a Ha.
  - specialize (H a Ha). destruct (Ascii.eqb_spec a " ") as [->|]; [|done].
    by vm_compute in H.
  - unfold plain_char. by rewrite (H a Ha).
Qed.



(** *** The storage routes *)

Ltac body_get :=
  simpl; repeat first [rewrite lookup_insert_eq | rewrite lookup_insert_ne by done];
  simpl.

Lemma looks_like_date_nonempty t : Sync.looks_like_date t = true → nonempty t = true.
Proof. by destruct t. Qed.

Lemma storage_configured env probe :
  jget ["configured"] (body (storage env probe))
  = Some (JBool (env_set env "R2_ACCESS_KEY_ID" && env_set env "R2_SECRET_ACCESS_KEY"
                 && env_set env "CF_ACCOUNT_ID")).
Proof. unfold storage. by body_get. Qed.

(** X17. The storage report. The answer is 200; [configured] tells
    whether the three credentials are set; [missing] is absent exactly
    when it is true, and otherwise lists exactly the credentials that
    are not set; [lastSync] is [null], or else storage is configured and
    it is the trimmed, non-empty output of the marker probe. *)
Theorem storage_report (env : Env) (probe : option (option string)) :
  let r := storage env probe in
  let configured :=
    env_set env "R2_ACCESS_KEY_ID" && env_set env "R2_SECRET_ACCESS_KEY"
    && env_set env "CF_ACCOUNT_ID" in
  status r = 200%Z
  ∧ jget ["configured"] (body r) = Some (JBool configured)
  ∧ (configured = true ↔ jget ["missing"] (body r) = None)
  ∧ (∀ l, jget ["missing"] (body r) = Some (JArr l) →
       ∀ v, JStr v ∈ l ↔
            v ∈ ["R2_ACCESS_KEY_ID"; "R2_SECRET_ACCESS_KEY"; "CF_ACCOUNT_ID"]
            ∧ env_set env v = false)
  ∧ (jget ["lastSync"] (body r) = Some JNull
     ∨ ∃ stdout, configured = true ∧ probe = Some (Some stdout)
         ∧ nonempty (trim stdout) = true
         ∧ jget ["lastSync"] (body r) = Some (JStr (trim stdout))).
Proof.
  cbv zeta. unfold storage.
  destruct (env_set env "R2_ACCESS_KEY_ID") eqn:E1;
    destruct (env_set env "R2_SECRET_ACCESS_KEY") eqn:E2;
    destruct (env_set env "CF_ACCOUNT_ID") eqn:E3.
  all: split; [done|]; split; [by body_get|]; split; [by body_get|].
  all: split;
    [body_get;
     first
       [ done
       | intros l [= <-] v; simpl; rewrite ?elem_of_cons, ?elem_of_nil;
         split;
         [ intros H; repeat destruct H as [H|H]; try done; simplify_eq;
           (split; [tauto|done])
         | intros [H Hv]; repeat destruct H as [H|H]; try done; subst;
           first [congruence | tauto] ] ]
    |].
  2-8: by left; body_get.
  simpl. destruct probe as [[stdout|]|]; try (by left; body_get).
  destruct (nonempty (trim stdout)) eqn:En; [|by left; body_get].
  right. exists stdout. split; [done|]. split; [done|]. split; [done|]. by body_get.
Qed.

(** X18. Status codes of the manual sync. The answer is 200, 400 or
    500. It is 400 exactly when the storage report says that storage is
    not configured, and then nothing was run and nothing has changed.
    When it is 200, the time it reports looks like a date and is the
    time the storage report gives for the marker the bucket then
    holds. *)
Theorem sync_status (x : Sync.Ext) (env : Env) (w : World) (probe : option (option string)) :
  let r := (storage_sync x env w).1.1 in
  let w' := (storage_sync x env w).1.2 in
  (status r = 200%Z ∨ status r = 400%Z ∨ status r = 500%Z)
  ∧ (status r = 400%Z ↔ jget ["configured"] (body (storage env probe)) = Some (JBool false))
  ∧ (status r = 400%Z → w' = w ∧ (storage_sync x env w).2 = [])
  ∧ (status r = 200%Z →
     ∃ t, jget ["lastSync"] (body r) = Some (JStr t)
          ∧ Sync.looks_like_date t = true
          ∧ jget ["lastSync"] (body (storage env (Some (Some (marker_output (backup_sync w'))))))
            = Some (JStr t)).
Proof.
  cbv zeta.
  rewrite storage_configured.
  unfold storage_sync, Sync.syncToR2, Sync.failed.
  destruct (env_set env "R2_ACCESS_KEY_ID") eqn:E1;
    [destruct (env_set env "R2_SECRET_ACCESS_KEY") eqn:E2;
       [destruct (env_set env "CF_ACCOUNT_ID") eqn:E3|]|]; simpl.
  2-4: by repeat split; auto.
  destruct (Sync.mount_ok x); simpl; [|by repeat split; auto].
  destruct (Sync.check_throws x); simpl; [by repeat split; auto|].
  destruct (bool_decide _ && Sync.check_logged x); simpl; [|by repeat split; auto].
  destruct (Sync.sync_throws x); simpl; [by repeat split; auto|].
  destruct (Sync.cat_throws x); simpl; [by repeat split; auto|].
  destruct (bool_decide (is_Some (backup_sync (Sync.run_sync x w)))) eqn:Em; simpl;
    [|by repeat split; auto].
  destruct (Sync.looks_like_date _) eqn:Ed; simpl; [|by repeat split; auto].
  split; [auto|]. split; [done|]. split; [done|]. intros _.
  eexists. split; [by body_get|]. split; [done|].
  apply bool_decide_eq_true_1 in Em as [m Hm]. rewrite Hm in Ed |- *. simpl in Ed |- *.
  unfold storage. rewrite E1, E2, E3. simpl.
  rewrite (looks_like_date_nonempty _ Ed). by body_get.
Qed.

End Api_facts.

(** ** Saving a token through the admin API *)

Module Setup_facts.
Import Js Token Spec Slots Boot Frame Api Js_facts Patch_facts Token_facts.

#[local] Arguments update : simpl never.
#[local] Arguments update_strict : simpl never.
#[local] Arguments getp : simpl never.
#[local] Arguments or_obj : simpl never.
#[local] Arguments truthy : simpl never.

Lemma update_strict_obj k rest op m :
  update_strict (k :: rest) op (Some (VObj m))
  = c ← update_strict rest op (m !! k); Some (VObj (<[k:=c]> m)).
Proof. done. Qed.

Lemma update_strict_here op m : update_strict [] op (Some (VObj m)) = op (VObj m).
Proof. done. Qed.

Ltac strict_simpl :=
  repeat first
    [ rewrite update_strict_obj | rewrite update_strict_here
    | rewrite getp_obj | rewrite getp_nil
    | rewrite lookup_insert_eq | rewrite lookup_insert_ne by done
    | rewrite insert_insert_eq
    | progress simpl ].

(** The credential store after lines 394-399. *)
Lemma store_profile_shape pid entry store :
  store_shape store = true →
  ∃ p, store_profile pid entry (load store) = Some p
       ∧ file_get ["profiles"; pid] (Some (Doc (stringify p))) = Some (stringify entry)
       ∧ ∀ q, q ≠ pid →
           file_get ["profiles"; q] (Some (Doc (stringify p)))
           = file_get ["profiles"; q] store.
Proof.
  intros Hs. rewrite (load_shape _ Hs).
  set (m := block (file_get [] store)).
  assert (object_or_nothing (m !! "profiles") = true) as Hp.
  { unfold m, store_shape, file_get in *.
    destruct store as [[|[| | | | |m']]|]; simpl; rewrite ?lookup_empty; try done. }
  unfold store_profile, assign_or_obj_strict, assign_strict, read.
  strict_simpl. rewrite (or_obj_lookup _ _ Hp). strict_simpl.
  eexists. split; [done|]. split; [by doc_read|].
  intros q Hq. rewrite (file_get_2 "profiles" q store). fold m. doc_read.
  by destruct (block (m !! "profiles") !! q); simpl; rewrite ?stringify_parse.
Qed.

Lemma auth_loading config :
  auth_shape config = true →
  let m := block (file_get [] config) in
  load config = VObj (parse <$> m) ∧ nested_shape "auth" "profiles" m = true.
Proof.
  unfold auth_shape, load, file_get, block.
  destruct config as [[|[| | | | |m]]|]; simpl; try done; by rewrite ?fmap_empty.
Qed.

Lemma shape_blocks outer inner config :
  match config with
  | Some (Doc (JObj m)) => nested_shape outer inner m
  | Some (Doc _) => false
  | _ => true
  end = true →
  nested_shape outer inner (block (file_get [] config)) = true.
Proof.
  unfold file_get, block. by destruct config as [[|[| | | | |m]]|].
Qed.

(** The configuration after lines 419-435. *)
Lemma reference_provider_shape provider pid config :
  auth_shape config = true →
  (is_str "anthropic" (Some provider) = true →
   config_shape config = true ∧ defaults_shape config = true) →
  ∃ c, reference_provider provider pid (load config) = Some c
    ∧ file_get ["auth"; "profiles"; pid] (Some (Doc (stringify c)))
      = Some (stringify (reference provider))
    ∧ (∀ q, q ≠ pid →
         file_get ["auth"; "profiles"; q] (Some (Doc (stringify c)))
         = file_get ["auth"; "profiles"; q] config)
    ∧ (is_str "anthropic" (Some provider) = false →
       ∀ k, k ≠ "auth" →
         file_get [k] (Some (Doc (stringify c))) = file_get [k] config)
    ∧ (is_str "anthropic" (Some provider) = true →
       file_get ["agents"; "defaults"; "model"] (Some (Doc (stringify c)))
       = Some (stringify sonnet)
       ∧ file_get ["models"; "providers"; "anthropic"] (Some (Doc (stringify c)))
         = (if json_truthy (file_get ["models"; "providers"; "anthropic"] config)
            then file_get ["models"; "providers"; "anthropic"] config
            else Some (JObj ∅))).
Proof.
  intros Ha Hrest. destruct (auth_loading config Ha) as (Hm & Hau).
  set (m := block (file_get [] config)) in *.
  apply nested_shape_blocks in Hau as [Hau Hap].
  assert (∀ q, file_get ["auth"; "profiles"; q] config
               = block (block (m !! "auth") !! "profiles") !! q) as Hq
    by (intros q; apply file_get_3).
  rewrite Hm. unfold reference_provider.
  destruct (is_str "anthropic" (Some provider)) eqn:Ean;
    unfold assign_or_obj_strict, assign_strict, read;
    repeat (strict_simpl; rewrite ?or_obj_lookup by done).
  2:{ eexists. split; [done|]. split; [by doc_read|]. split; [|split; [|done]].
      - intros q Hne. rewrite Hq. doc_read.
        by destruct (block (block (m !! "auth") !! "profiles") !! q);
          simpl; rewrite ?stringify_parse.
      - intros _ k Hk. rewrite (Patch_more.file_get_1 k config). fold m. doc_read.
        destruct (m !! k); simpl; by rewrite ?stringify_parse. }
  destruct (Hrest eq_refl) as [Hc Hd].
  destruct (config_loading config Hc) as (_ & _ & Hmo). fold m in Hmo.
  apply shape_blocks in Hd. fold m in Hd.
  apply nested_shape_blocks in Hmo as [Hmo Hpr].
  apply nested_shape_blocks in Hd as [Hag Hde].
  repeat (strict_simpl; rewrite ?or_obj_lookup by done).
  assert (file_get ["models"; "providers"; "anthropic"] config
          = block (block (m !! "models") !! "providers") !! "anthropic") as ->
    by apply file_get_3.
  rewrite lookup_fmap. unfold json_truthy.
  set (old := block (block (m !! "models") !! "providers") !! "anthropic").
  destruct (truthy (parse <$> old)) eqn:Et; strict_simpl;
    (eexists; split; [done|]); (split; [by doc_read|]).
  - split; [|split; [done|]].
    + intros q Hne. rewrite Hq. doc_read.
      by destruct (block (block (m !! "auth") !! "profiles") !! q);
        simpl; rewrite ?stringify_parse.
    + intros _. split; [by doc_read|]. doc_read. fold old.
      destruct old; simpl; [|done]. by rewrite stringify_parse.
  - split; [|split; [done|]].
    + intros q Hne. rewrite Hq. doc_read.
      by destruct (block (block (m !! "auth") !! "profiles") !! q);
        simpl; rewrite ?stringify_parse.
    + intros _. split; by doc_read.
Qed.

Lemma file_get_app p q f : file_get (p ++ q) f = file_get p f ≫= jget q.
Proof.
  unfold file_get. destruct f as [[|d]|]; try done. apply Patch_more.jget_app.
Qed.

Lemma trim_nonempty token : nonempty (trim token) = true → nonempty token = true.
Proof. by destruct token. Qed.

(** A request with a token reaches the [try] block. *)
Lemma setup_request e x bm token fs :
  requested_token (Some (JObj bm)) = Some token →
  setup_token e x (Some (JObj bm)) fs
  = save_token e x (requested_provider ((parse <$> bm) !! "provider")) token fs.
Proof.
  unfold requested_token, setup_token. simpl. rewrite (lookup_fmap parse bm "token").
  destruct (bm !! "token") as [[| | |t| |]|]; try done. simpl.
  destruct (nonempty (trim t)) eqn:Et; [|done]. intros [= ->].
  by rewrite (trim_nonempty _ Et).
Qed.

(** A request without one never gets there. *)
Lemma setup_refused e x body fs :
  requested_token body = None →
  setup_token e x body fs = (Uncaught, fs, false) ∧ body = Some JNull
  ∨ ∃ msg, setup_token e x body fs = (Sent (failure 400 msg), fs, false).
Proof.
  unfold requested_token, setup_token.
  destruct body as [j|]; [|right; by eexists].
  destruct j as [| | | |es|m]; simpl; try (right; by eexists); [by left|].
  rewrite (lookup_fmap parse m "token").
  destruct (m !! "token") as [[| | |t| |]|]; simpl; try (right; by eexists).
  destruct (nonempty (trim t)); [done|]. rewrite andb_false_r. right. by eexists.
Qed.

Lemma save_token_cases e x provider token fs :
  let r := save_token e x provider token fs in
  (r.2 = true ∧ ∃ resp, r.1.1 = Sent resp ∧ status resp = 200%Z)
  ∨ (r.2 = false ∧ ∃ msg, r.1.1 = Sent (failure 500 msg)).
Proof.
  cbv zeta. unfold save_token, fail.
  repeat case_match; simpl; first [left; split; [done|]; by eexists
                                  |right; split; [done|]; by eexists].
Qed.

Lemma save_token_early e x provider token fs :
  is_Some (gateway_rejects x) ∨ is_Some (read_store_rejects x) →
  (save_token e x provider token fs).1.2 = fs.
Proof.
  unfold save_token, fail. intros [[m Hm]|[m Hm]]; rewrite Hm; [done|].
  by destruct (gateway_rejects x).
Qed.


Lemma obliging_inv x :
  obliging x = true →
  gateway_rejects x = None ∧ read_store_rejects x = None ∧ store_logged x = true
  ∧ write_store_rejects x = None ∧ store_written x = true
  ∧ read_config_rejects x = None ∧ config_logged x = true
  ∧ write_config_rejects x = None ∧ config_written x = true
  ∧ find_rejects x = None.
Proof.
  unfold obliging. rewrite !andb_true_iff, !bool_decide_eq_true. tauto.
Qed.





(** X22. Which saved profiles the delete route can name. The id under
    which the setup-token route saves a profile passes the pattern of
    the delete route exactly when the text of the provider has no
    character outside [a-zA-Z0-9_:-]; a provider with a dot or a blank
    in its name gives a profile that the route refuses to delete. *)
Theorem saved_profile_addressable (e : Engine) (provider : value) :
  valid_profile_id (text e provider +:+ ":default")
  = forallb (λ a, request_id_char a || Ascii.eqb a ":")
      (list_ascii_of_string (text e provider)).
Proof.
  unfold valid_profile_id. rewrite Api_facts.list_ascii_app, forallb_app.
  assert (nonempty (text e provider +:+ ":default") = true) as ->.
  { by destruct (text e provider). }
  simpl. by rewrite andb_true_r.
Qed.

End Setup_facts.
